(** * claude2stream: the read-only storage adapter of [storage.go]

    A shallow embedding of [ClaudeStorage] (the offset codec, the file
    index and its resolution, the line reader, the watcher's event
    handler and the subscriber registry) together with the parts of the Go
    standard library the adapter calls ([strings], [strconv], [fmt],
    [bufio], [path/filepath], [os]).

    Integers of Go type [int64] / [int] are modelled in [Z] with their
    wrap-around written out ([wrap64]); offsets are [string]s, file
    contents and message payloads are [list byte]; the two shared maps of
    the storage are [gmap]s keyed by strings. *)

From Stdlib Require Import ZArith Lia List Bool Ascii String.
From Stdlib.Strings Require Import Byte.
From stdpp Require Import base option list gmap strings.

Local Open Scope Z_scope.

(* ===================================================================== *)
(** * Machine integers *)
(* ===================================================================== *)

Definition min_int64 : Z := - 2 ^ 63.
Definition max_int64 : Z := 2 ^ 63 - 1.
Definition max_uint64 : Z := 2 ^ 64 - 1.

(** Two's complement wrap-around of a 64-bit signed integer. *)
Definition wrap64 (z : Z) : Z := (z + 2 ^ 63) mod 2 ^ 64 - 2 ^ 63.

(** Wrap-around of a 64-bit unsigned integer. *)
Definition wrapu64 (z : Z) : Z := z mod 2 ^ 64.

(* ===================================================================== *)
(** * Package [strings] *)
(* ===================================================================== *)

Definition zero_char : ascii := "0"%char.

(** [strings.TrimLeft(s, "0")]: drop every leading ['0']. *)
Fixpoint TrimLeft0 (s : string) : string :=
  match s with
  | String c rest => if Ascii.eqb c zero_char then TrimLeft0 rest else s
  | EmptyString => EmptyString
  end.

(** [strings.HasPrefix(s, prefix)]. *)
Definition HasPrefix (s pre : string) : bool := String.prefix pre s.

(** [strings.TrimPrefix(s, prefix)]. *)
Definition TrimPrefix (s pre : string) : string :=
  if HasPrefix s pre
  then String.substring (String.length pre) (String.length s - String.length pre) s
  else s.

(** [strings.HasSuffix(s, suffix)]. *)
Definition HasSuffix (s suf : string) : bool :=
  (String.length suf <=? String.length s)%nat &&
  String.eqb
    (String.substring (String.length s - String.length suf) (String.length suf) s)
    suf.

(** [strings.TrimSuffix(s, suffix)]. *)
Definition TrimSuffix (s suf : string) : string :=
  if HasSuffix s suf
  then String.substring 0 (String.length s - String.length suf) s
  else s.

(* ===================================================================== *)
(** * Package [strconv]: [ParseInt(s, 10, 64)] *)
(* ===================================================================== *)

(** Value of a decimal digit character, if it is one. *)
Definition digit_val (c : ascii) : option Z :=
  let n := Z.of_N (N_of_ascii c) in
  if (48 <=? n) && (n <=? 57) then Some (n - 48) else None.

(** The two errors of [strconv]: [ErrSyntax] and [ErrRange]. *)
Inductive num_error : Type :=
| ErrSyntax
| ErrRange.

(** Smallest number such that [cutoff * 10 > max_uint64]. *)
Definition parse_cutoff : Z := max_uint64 / 10 + 1.

(** The digit loop of [ParseUint] for base 10 and bit size 64: [n] is the
    value accumulated so far.  The syntax check of a character comes
    before the overflow checks of that character, and an overflow returns
    at once, without looking at the rest of the string.  A syntax error
    returns 0, a range error the largest [uint64]. *)
Fixpoint ParseUint_loop (s : string) (n : Z) : Z * option num_error :=
  match s with
  | EmptyString => (n, None)
  | String c rest =>
      match digit_val c with
      | None => (0, Some ErrSyntax)
      | Some d =>
          if parse_cutoff <=? n then (max_uint64, Some ErrRange)
          else
            let n10 := wrapu64 (n * 10) in
            let n1 := wrapu64 (n10 + d) in
            if (n1 <? n10) || (max_uint64 <? n1) then (max_uint64, Some ErrRange)
            else ParseUint_loop rest n1
      end
  end.

Definition ParseUint (s : string) : Z * option num_error :=
  match s with
  | EmptyString => (0, Some ErrSyntax)
  | _ => ParseUint_loop s 0
  end.

(** [strconv.ParseInt(s, 10, 64)]: the returned value and the error that
    comes with it.  A syntax error returns 0; a range error returns the
    [int64] of largest magnitude with the sign of the input. *)
Definition pick_sign (s : string) : bool * string :=
  match s with
  | EmptyString => (false, EmptyString)
  | String c rest =>
      if Ascii.eqb c "+"%char then (false, rest)
      else if Ascii.eqb c "-"%char then (true, rest)
      else (false, s)
  end.

Definition ParseInt (s : string) : Z * option num_error :=
  match s with
  | EmptyString => (0, Some ErrSyntax)
  | _ =>
      (* pick off the leading sign *)
      let '(neg, body) := pick_sign s in
      let '(un, err) := ParseUint body in
      match err with
      | Some ErrSyntax => (0, err)
      | _ =>
          let cutoff := 2 ^ 63 in
          if negb neg && (cutoff <=? un) then (cutoff - 1, Some ErrRange)
          else if neg && (cutoff <? un) then (- cutoff, Some ErrRange)
          else
            let n := wrap64 un in
            (if neg then wrap64 (- n) else n, None)
      end
  end.

(* ===================================================================== *)
(** * Package [fmt]: [Sprintf("%020d", n)] *)
(* ===================================================================== *)

Definition digit_char (d : Z) : ascii := ascii_of_N (48 + Z.to_N d).

(** [fmtInteger] writes the digits of the magnitude [u] from the least
    significant one, right to left: [for u >= 10 { ... }] and then the
    leading digit.  A [uint64] has at most 20 decimal digits, which bounds
    the loop. *)
Fixpoint fmt_digits (fuel : nat) (u : Z) (acc : string) : string :=
  match fuel with
  | O => acc
  | S fuel' =>
      if u <? 10 then String (digit_char u) acc
      else fmt_digits fuel' (u / 10) (String (digit_char (u mod 10)) acc)
  end.

(** Left padding with ['0'] up to [prec] digits. *)
Fixpoint zeros (k : nat) : string :=
  match k with
  | O => EmptyString
  | S k' => String zero_char (zeros k')
  end.

Definition pad_zeros (prec : nat) (digits : string) : string :=
  (zeros (prec - String.length digits) ++ digits)%string.

(** [fmt.Sprintf("%020d", n)] for an [int64] [n]: the width 20 with the
    zero flag becomes a precision of 20 digits, one less when a sign is
    written. *)
Definition Sprintf_020d (n : Z) : string :=
  if n <? 0
  then String "-"%char (pad_zeros 19 (fmt_digits 20 (- n) EmptyString))
  else pad_zeros 20 (fmt_digits 20 n EmptyString).

(** Go compares strings byte by byte. *)
Definition string_lt (a b : string) : Prop := String.compare a b = Lt.

(** The [w] low decimal digits of [u] in front of [acc]: what a
    zero-padded field of width [w] holds. *)
Fixpoint fixed_digits (w : nat) (u : Z) (acc : string) : string :=
  match w with
  | O => acc
  | S w' => fixed_digits w' (u / 10) (String (digit_char (u mod 10)) acc)
  end.

Fixpoint all_digits (s : string) : bool :=
  match s with
  | EmptyString => true
  | String c rest =>
      match digit_val c with
      | Some _ => all_digits rest
      | None => false
      end
  end.

(* ===================================================================== *)
(** * Package [bufio]: a [Scanner] with the default [ScanLines] split *)
(* ===================================================================== *)

Definition newline : byte := x0a.
Definition carriage_return : byte := x0d.

(** The limit given to [scanner.Buffer]: 16MB.  A line must fit in the
    buffer together with its terminator (or with the end of file still to
    be seen), otherwise [Scan] stops with [ErrTooLong]. *)
Definition maxTokenSize : Z := 16 * 1024 * 1024.

(** The lines of the remaining input, cut at every newline byte; [cur]
    holds the bytes of the line being read, last byte first.  A last line
    without a terminator counts when it is not empty. *)
Fixpoint raw_lines (cur : list byte) (data : list byte) : list (list byte) :=
  match data with
  | [] => match cur with [] => [] | _ => [rev cur] end
  | b :: rest =>
      if Byte.eqb b newline then rev cur :: raw_lines [] rest
      else raw_lines (b :: cur) rest
  end.

(** [dropCR]: [ScanLines] removes one trailing carriage return from the
    line it hands out. *)
Definition dropCR (data : list byte) : list byte :=
  match last data with
  | Some c => if Byte.eqb c carriage_return then removelast data else data
  | None => data
  end.

(** One call of [scanner.Scan()] followed by [scanner.Bytes()], on the
    lines still to be read. *)
Inductive scan_result : Type :=
| ScanToken (line : list byte) (pending : list (list byte))
| ScanEOF
| ScanTooLong.

Definition Scan (pending : list (list byte)) : scan_result :=
  match pending with
  | [] => ScanEOF
  | raw :: rest =>
      if maxTokenSize <? Z.of_nat (length raw) + 1 then ScanTooLong
      else ScanToken (dropCR raw) rest
  end.

(** The lines a scanner hands out on [data] when none is too long. *)
Definition scanner_lines (data : list byte) : list (list byte) :=
  map dropCR (raw_lines [] data).

(* ===================================================================== *)
(** * Package [path/filepath] (Unix) *)
(* ===================================================================== *)

Definition is_sep (c : ascii) : bool := Ascii.eqb c "/"%char.

Fixpoint drop_seps (l : list ascii) : list ascii :=
  match l with
  | c :: rest => if is_sep c then drop_seps rest else l
  | [] => []
  end.

Fixpoint take_elem (l : list ascii) : list ascii :=
  match l with
  | c :: rest => if is_sep c then [] else c :: take_elem rest
  | [] => []
  end.

(** [filepath.Base]: the last element of the path, trailing slashes
    removed; ["."] for the empty path and ["/"] for a path of slashes. *)
Definition Base (path : string) : string :=
  match path with
  | EmptyString => "."
  | _ =>
      let stripped := drop_seps (rev (list_ascii_of_string path)) in
      match take_elem stripped with
      | [] => "/"
      | elem => string_of_list_ascii (rev elem)
      end
  end.

(** What [filepath.WalkDir] passes to its callback at one visit: the
    path, whether the entry is a directory, and whether the visit reports
    an error. *)
Record DirEntry : Type := {
  entry_path : string;
  entry_isDir : bool;
  entry_err : bool
}.

(** The callback returns [nil] (continue) or [filepath.SkipAll]. *)
Inductive WalkAction : Type :=
| WalkContinue
| WalkSkipAll.

(** [filepath.WalkDir] over the visits of a tree in its lexical order,
    threading the variables the callback closes over. *)
Fixpoint WalkDir {S : Type} (visits : list DirEntry)
    (fn : DirEntry -> S -> S * WalkAction) (s : S) : S :=
  match visits with
  | [] => s
  | e :: rest =>
      let '(s', act) := fn e s in
      match act with
      | WalkContinue => WalkDir rest fn s'
      | WalkSkipAll => s'
      end
  end.

(* ===================================================================== *)
(** * The file system and fsnotify, as the adapter sees them *)
(* ===================================================================== *)

(** What a path can name other than a regular file that can be read: a
    file that [os.Open] refuses (no read permission), or a directory,
    which opens but cannot be read.  [os.Stat] reports a size for both. *)
Inductive Special : Type :=
| NoRead (size : Z)
| Directory (size : Z).

(** [fs_files] holds the regular files that can be opened and read, with
    their content; [fs_special] holds what else the paths name (a path
    listed in both is a readable file); a path in neither names nothing.
    [fs_maxbytes path] is the largest position the file system of [path]
    accepts in a seek (about 2^44 on ext4, 2^63 - 1 on tmpfs).
    [fs_glob pattern] is what [filepath.Glob] returns (the matches, and
    whether an error came with them); [fs_walk root] lists the visits of
    [filepath.WalkDir root]. *)
Record World : Type := {
  fs_files : gmap string (list byte);
  fs_special : gmap string Special;
  fs_maxbytes : string -> Z;
  fs_glob : string -> list string * bool;
  fs_walk : string -> list DirEntry
}.

(** [fsnotify.Op] bits. *)
Definition fsnotify_Create : Z := 1.
Definition fsnotify_Write : Z := 2.
Definition fsnotify_Remove : Z := 4.
Definition fsnotify_Rename : Z := 8.
Definition fsnotify_Chmod : Z := 16.

Record Event : Type := {
  ev_Name : string;
  ev_Op : Z
}.

(* ===================================================================== *)
(** * [durablestream] types and the storage *)
(* ===================================================================== *)

Inductive error : Type :=
| ErrReadOnly
| ErrStreamNotFound
| ErrOpen
| ErrSeek
| ErrStat
| ErrScan.

Inductive result (A : Type) : Type :=
| Ok (a : A)
| Err (e : error).
Arguments Ok {A} a.
Arguments Err {A} e.

Record StoredMessage : Type := {
  Data : list byte;
  Offset : string
}.

Record ReadResult : Type := {
  Messages : list StoredMessage;
  NextOffset : string;
  TailOffset : string
}.

Record StreamInfo : Type := {
  ContentType : string;
  InfoNextOffset : string
}.

(** A channel of capacity 1: the value it buffers, and whether it has
    been closed. *)
Record Chan : Type := {
  chan_buf : option string;
  chan_closed : bool
}.

(** [ClaudeStorage], with the directories given to the watcher and the
    channels the registry points to. *)
Record ClaudeStorage : Type := {
  claudeDir : string;
  projectsDir : string;
  watched : list string;
  subscribers : gmap string (list nat);
  fileIndex : gmap string string;
  chans : gmap nat Chan
}.

Definition set_fileIndex (ix : gmap string string) (s : ClaudeStorage) : ClaudeStorage :=
  {| claudeDir := claudeDir s; projectsDir := projectsDir s;
     watched := watched s; subscribers := subscribers s;
     fileIndex := ix; chans := chans s |}.

Definition set_watched (ws : list string) (s : ClaudeStorage) : ClaudeStorage :=
  {| claudeDir := claudeDir s; projectsDir := projectsDir s;
     watched := ws; subscribers := subscribers s;
     fileIndex := fileIndex s; chans := chans s |}.

Definition set_subscribers (sb : gmap string (list nat)) (s : ClaudeStorage) : ClaudeStorage :=
  {| claudeDir := claudeDir s; projectsDir := projectsDir s;
     watched := watched s; subscribers := sb;
     fileIndex := fileIndex s; chans := chans s |}.

Definition set_chans (cs : gmap nat Chan) (s : ClaudeStorage) : ClaudeStorage :=
  {| claudeDir := claudeDir s; projectsDir := projectsDir s;
     watched := watched s; subscribers := subscribers s;
     fileIndex := fileIndex s; chans := cs |}.

(** The variables of the read loop. *)
Record LoopState : Type := {
  messages : list StoredMessage;
  currentOffset : Z;
  bytesRead : Z
}.

Definition jsonl : string := ".jsonl".

(** The bytes a reader placed at position [pos >= 0] of a file has
    left to read; at the end of the file and past it there are none. *)
Fixpoint seek (content : list byte) (pos : Z) : list byte :=
  match content with
  | [] => []
  | _ :: rest => if pos <=? 0 then content else seek rest (pos - 1)
  end.

(** [os.Stat(path)]: the size it reports, when the path names
    something. *)
Definition os_Stat (w : World) (path : string) : option Z :=
  match fs_files w !! path with
  | Some content => Some (Z.of_nat (length content))
  | None =>
      match fs_special w !! path with
      | Some (NoRead size) => Some size
      | Some (Directory size) => Some size
      | None => None
      end
  end.

(** An open file, as [os.Open] returns it, with the largest position
    its file system accepts. *)
Inductive File : Type :=
| RegularFile (content : list byte) (maxbytes : Z)
| DirectoryFile (size : Z) (maxbytes : Z).

(** [os.Open(path)]. *)
Definition os_Open (w : World) (path : string) : option File :=
  match fs_files w !! path with
  | Some content => Some (RegularFile content (fs_maxbytes w path))
  | None =>
      match fs_special w !! path with
      | Some (Directory size) => Some (DirectoryFile size (fs_maxbytes w path))
      | Some (NoRead _) => None
      | None => None
      end
  end.

(** [f.Stat()] followed by [info.Size()]. *)
Definition File_Size (f : File) : Z :=
  match f with
  | RegularFile content _ => Z.of_nat (length content)
  | DirectoryFile size _ => size
  end.

Definition File_maxbytes (f : File) : Z :=
  match f with
  | RegularFile _ maxbytes => maxbytes
  | DirectoryFile _ maxbytes => maxbytes
  end.

(** [f.Seek(pos, io.SeekStart)], [true] when it succeeds: the system
    refuses a negative position and a position past the largest one of
    the file system.  No file is larger than that, so a position inside
    the file is accepted. *)
Definition File_Seek (f : File) (pos : Z) : bool :=
  (0 <=? pos) && (pos <=? Z.max (File_maxbytes f) (File_Size f)).

(** The capacity of the buffer handed to [scanner.Buffer]: what the
    scanner asks for in its first read. *)
Definition scanBufferSize : Z := 64 * 1024.

(** What the scanner is given to read on a file placed at [pos], or
    [None] when its read fails.  Reading a directory fails.  The first read
    asks for [scanBufferSize] bytes at [pos] and the system refuses it
    when [pos + scanBufferSize] passes the largest [int64]; files are
    taken to end at least a buffer before that, so that only a position
    past the end is refused. *)
Definition File_Read (f : File) (pos : Z) : option (list byte) :=
  match f with
  | DirectoryFile _ _ => None
  | RegularFile content _ =>
      if (Z.of_nat (length content) <? pos) && (max_int64 <? pos + scanBufferSize)
      then None
      else Some (seek content pos)
  end.

(** [offsetFromInt]. *)
Definition offsetFromInt (n : Z) : string := Sprintf_020d n.

(** The loop [for scanner.Scan() { ... }] of [Read]: the variables at the
    end of the loop and [scanner.Err()].  Each turn is one [Scan] on the
    pending lines (see [scan_loop_Scan]); [int] is taken to be 64 bits
    wide, as [int64] is. *)
Fixpoint scan_loop (limit : Z) (pending : list (list byte)) (st : LoopState)
  : LoopState * option error :=
  match pending with
  | [] => (st, None)
  | raw :: rest =>
      if maxTokenSize <? Z.of_nat (length raw) + 1 then (st, Some ErrScan)
      else
        let line := dropCR raw in
        let lineLen := wrap64 (Z.of_nat (length line) + 1) in
        if (limit <? wrap64 (bytesRead st + Z.of_nat (length line)))
           && (0 <? Z.of_nat (length (messages st)))
        then (st, None)
        else
          let currentOffset' := wrap64 (currentOffset st + lineLen) in
          scan_loop limit rest
            {| messages := messages st ++
                 [ {| Data := line; Offset := offsetFromInt currentOffset' |} ];
               currentOffset := currentOffset';
               bytesRead := wrap64 (bytesRead st + Z.of_nat (length line)) |}
  end.

(** A non-blocking send [select { case ch <- v: default: }]. *)
Definition try_send (ch : nat) (v : string) (cs : gmap nat Chan) : gmap nat Chan :=
  match cs !! ch with
  | Some {| chan_buf := None; chan_closed := false |} =>
      <[ch := {| chan_buf := Some v; chan_closed := false |}]> cs
  | _ => cs
  end.

(** Removal of the first occurrence of [ch]: the loop with [break] of the
    cancellation goroutine. *)
Fixpoint remove_first (ch : nat) (subs : list nat) : list nat :=
  match subs with
  | [] => []
  | c :: rest => if Nat.eqb c ch then rest else c :: remove_first ch rest
  end.

Section Storage.

(** [durablestream.ZeroOffset], the "from the beginning" token, and
    [filepath.Join], whose cleaning of the joined path plays no part
    here, are taken as given, as is the type of stream configurations. *)
Variable ZeroOffset : string.
Variable Join : list string -> string.
Variable StreamConfig : Type.

(** [offsetToInt]. *)
Definition offsetToInt (o : string) : Z :=
  if String.eqb o ZeroOffset || String.eqb o "-1" then 0
  else fst (ParseInt (TrimLeft0 o)).

(** [getTailOffset]. *)
Definition getTailOffset (w : World) (path : string) : string * option error :=
  match os_Stat w path with
  | None => (ZeroOffset, Some ErrStat)
  | Some size => (offsetFromInt size, None)
  end.

(** The callback of [indexFiles]. *)
Definition indexFiles_fn (e : DirEntry) (s : ClaudeStorage) : ClaudeStorage * WalkAction :=
  if entry_err e then (s, WalkContinue)
  else if entry_isDir e then (set_watched (watched s ++ [entry_path e]) s, WalkContinue)
  else if HasSuffix (entry_path e) jsonl then
    let streamID := TrimSuffix (Base (entry_path e)) jsonl in
    (set_fileIndex (<[streamID := entry_path e]> (fileIndex s)) s, WalkContinue)
  else (s, WalkContinue).

Definition indexFiles (w : World) (s : ClaudeStorage) : ClaudeStorage :=
  WalkDir (fs_walk w (projectsDir s)) indexFiles_fn s.

(** [NewClaudeStorage]. *)
Definition NewClaudeStorage (w : World) (dir : string) : ClaudeStorage :=
  let s := {| claudeDir := dir;
              projectsDir := Join [dir; "projects"];
              watched := [dir];
              subscribers := ∅;
              fileIndex := {[ "_history" := Join [dir; "history.jsonl"] ]};
              chans := ∅ |} in
  indexFiles w s.

(** The callback of the deeper search of [getPath]; it threads [found]. *)
Definition getPath_fn (streamID : string) (e : DirEntry) (found : string)
  : string * WalkAction :=
  if entry_err e || entry_isDir e then (found, WalkContinue)
  else if String.eqb (Base (entry_path e)) (streamID +:+ jsonl)
  then (entry_path e, WalkSkipAll)
  else (found, WalkContinue).

(** [getPath]. *)
Definition getPath (w : World) (s : ClaudeStorage) (streamID : string)
  : ClaudeStorage * result string :=
  let streamID := TrimPrefix streamID "/" in
  match fileIndex s !! streamID with
  | Some path => (s, Ok path)
  | None =>
      let pattern := Join [projectsDir s; "**"; streamID +:+ jsonl] in
      let '(matches, err) := fs_glob w pattern in
      match (if err then [] else matches) with
      | m0 :: _ => (set_fileIndex (<[streamID := m0]> (fileIndex s)) s, Ok m0)
      | [] =>
          let found :=
            WalkDir (fs_walk w (projectsDir s)) (getPath_fn streamID) EmptyString in
          if negb (String.eqb found EmptyString)
          then (set_fileIndex (<[streamID := found]> (fileIndex s)) s, Ok found)
          else (s, Err ErrStreamNotFound)
      end
  end.

(** The four mutating calls. *)
Definition Create (s : ClaudeStorage) (streamID : string) (cfg : StreamConfig)
  : ClaudeStorage * (bool * option error) :=
  (s, (false, Some ErrReadOnly)).

Definition Append (s : ClaudeStorage) (streamID : string) (data : list byte)
    (seq : string) : ClaudeStorage * (string * option error) :=
  (s, (ZeroOffset, Some ErrReadOnly)).

Definition AppendFrom (s : ClaudeStorage) (streamID : string) (r : list byte)
    (seq : string) : ClaudeStorage * (string * option error) :=
  (s, (ZeroOffset, Some ErrReadOnly)).

Definition Delete (s : ClaudeStorage) (streamID : string)
  : ClaudeStorage * option error :=
  (s, Some ErrReadOnly).

(** [Head]. *)
Definition Head (w : World) (s : ClaudeStorage) (streamID : string)
  : ClaudeStorage * result StreamInfo :=
  let '(s1, r) := getPath w s streamID in
  match r with
  | Err e => (s1, Err e)
  | Ok path =>
      match os_Stat w path with
      | None => (s1, Err ErrStat)
      | Some size =>
          (s1, Ok {| ContentType := "application/json";
                     InfoNextOffset := offsetFromInt size |})
      end
  end.

(** [Read]. *)
Definition Read (w : World) (s : ClaudeStorage) (streamID : string)
    (offset : string) (limit : Z) : ClaudeStorage * result ReadResult :=
  let '(s1, r) := getPath w s streamID in
  match r with
  | Err e => (s1, Err e)
  | Ok path =>
      match os_Open w path with
      | None => (s1, Err ErrOpen)
      | Some f =>
          let startOffset := offsetToInt offset in
          if negb (File_Seek f startOffset) then (s1, Err ErrSeek)
          else
            let tailOffset := offsetFromInt (File_Size f) in
            match File_Read f startOffset with
            | None => (s1, Err ErrScan)
            | Some data =>
                let '(st, err) :=
                  scan_loop limit (raw_lines [] data)
                    {| messages := []; currentOffset := startOffset; bytesRead := 0 |} in
                match err with
                | Some e => (s1, Err e)
                | None =>
                    let nextOffset :=
                      if (Z.of_nat (length (messages st)) =? 0) then offset
                      else offsetFromInt (currentOffset st) in
                    (s1, Ok {| Messages := messages st;
                               NextOffset := nextOffset;
                               TailOffset := tailOffset |})
                end
            end
      end
  end.

(** [Subscribe], up to the start of the cancellation goroutine: the new
    channel is the result. *)
Definition Subscribe (w : World) (s : ClaudeStorage) (streamID : string)
    (offset : string) : ClaudeStorage * result nat :=
  let streamID := TrimPrefix streamID "/" in
  let '(s1, r) := getPath w s streamID in
  match r with
  | Err e => (s1, Err e)
  | Ok _ =>
      let ch := fresh (dom (chans s1)) in
      let s2 := set_chans (<[ch := {| chan_buf := None; chan_closed := false |}]> (chans s1)) s1 in
      let subs := default [] (subscribers s2 !! streamID) in
      (set_subscribers (<[streamID := subs ++ [ch]]> (subscribers s2)) s2, Ok ch)
  end.

(** The goroutine [Subscribe] starts, once [ctx.Done()] has fired;
    [streamID] is the identifier with its slash stripped. *)
Definition cancel (s : ClaudeStorage) (streamID : string) (ch : nat) : ClaudeStorage :=
  let subs := default [] (subscribers s !! streamID) in
  let s1 :=
    if existsb (Nat.eqb ch) subs
    then set_subscribers (<[streamID := remove_first ch subs]> (subscribers s)) s
    else s in
  match chans s1 !! ch with
  | Some c => set_chans (<[ch := {| chan_buf := chan_buf c; chan_closed := true |}]> (chans s1)) s1
  | None => s1
  end.

(** One turn of [watchLoop] on an event of the watcher. *)
Definition handleEvent (w : World) (ev : Event) (s : ClaudeStorage) : ClaudeStorage :=
  let historyPath := Join [claudeDir s; "history.jsonl"] in
  if negb (Z.land (ev_Op ev) (Z.lor fsnotify_Write fsnotify_Create) =? 0) then
    if HasSuffix (ev_Name ev) jsonl then
      let '(streamID, s1) :=
        if String.eqb (ev_Name ev) historyPath then ("_history", s)
        else
          let streamID := TrimSuffix (Base (ev_Name ev)) jsonl in
          (streamID, set_fileIndex (<[streamID := ev_Name ev]> (fileIndex s)) s) in
      (* get new tail offset *)
      let tail := fst (getTailOffset w (ev_Name ev)) in
      (* notify subscribers *)
      set_chans
        (fold_left (fun cs ch => try_send ch tail cs)
           (default [] (subscribers s1 !! streamID)) (chans s1))
        s1
    else s
  else s.

(** ** The storage as a machine

    Callers and the watcher act on one storage; the files change only
    from outside.  A step is a call, a turn of the watch loop, or a change
    of the file system. *)

Record System : Type := {
  sys_world : World;
  sys_storage : ClaudeStorage
}.

Inductive Step : Type :=
| StepIndexFiles
| StepWatchEvent (ev : Event)
| StepGetPath (streamID : string)
| StepHead (streamID : string)
| StepRead (streamID : string) (offset : string) (limit : Z)
| StepSubscribe (streamID : string) (offset : string)
| StepCancel (streamID : string) (ch : nat)
| StepCreate (streamID : string) (cfg : StreamConfig)
| StepAppend (streamID : string) (data : list byte) (seq : string)
| StepAppendFrom (streamID : string) (r : list byte) (seq : string)
| StepDelete (streamID : string)
| StepWorld (w' : World).

Definition step (st : Step) (sys : System) : System :=
  let w := sys_world sys in
  let s := sys_storage sys in
  match st with
  | StepIndexFiles => {| sys_world := w; sys_storage := indexFiles w s |}
  | StepWatchEvent ev => {| sys_world := w; sys_storage := handleEvent w ev s |}
  | StepGetPath id => {| sys_world := w; sys_storage := fst (getPath w s id) |}
  | StepHead id => {| sys_world := w; sys_storage := fst (Head w s id) |}
  | StepRead id o l => {| sys_world := w; sys_storage := fst (Read w s id o l) |}
  | StepSubscribe id o => {| sys_world := w; sys_storage := fst (Subscribe w s id o) |}
  | StepCancel id ch => {| sys_world := w; sys_storage := cancel s id ch |}
  | StepCreate id cfg => {| sys_world := w; sys_storage := fst (Create s id cfg) |}
  | StepAppend id d q => {| sys_world := w; sys_storage := fst (Append s id d q) |}
  | StepAppendFrom id r q => {| sys_world := w; sys_storage := fst (AppendFrom s id r q) |}
  | StepDelete id => {| sys_world := w; sys_storage := fst (Delete s id) |}
  | StepWorld w' => {| sys_world := w'; sys_storage := s |}
  end.

Definition run (steps : list Step) (sys : System) : System :=
  fold_left (fun acc st => step st acc) steps sys.

(** ** Notions the properties are stated with *)

(** The visits at which the deeper search of [getPath] stops: a file,
    reported without error, whose name is the identifier followed by the
    extension. *)
Definition walk_hit (streamID : string) (e : DirEntry) : bool :=
  negb (entry_err e) && negb (entry_isDir e) &&
  String.eqb (Base (entry_path e)) (streamID +:+ jsonl).

(** [getPath] finds a path for the identifier. *)
Definition resolves (w : World) (s : ClaudeStorage) (streamID : string) : Prop :=
  exists s' path, getPath w s streamID = (s', Ok path).

(** The shallow pattern of [getPath] gives no match (or an error). *)
Definition glob_misses (w : World) (s : ClaudeStorage) (streamID : string) : Prop :=
  let '(matches, err) :=
    fs_glob w (Join [projectsDir s; "**"; streamID +:+ jsonl]) in
  err = true \/ matches = [].

(** [s'] knows every identifier [s] knows. *)
Definition index_le (s s' : ClaudeStorage) : Prop :=
  dom (fileIndex s) ⊆ dom (fileIndex s').

(** A token is taken for a number when, its leading zeros and one sign
    apart, it is a non-empty run of decimal digits; [not_numeric] holds
    when the text is empty or a character that is not a digit shows up
    among its first 20. *)
Definition not_numeric (o : string) : bool :=
  let body := snd (pick_sign (TrimLeft0 o)) in
  match body with
  | EmptyString => true
  | _ => negb (all_digits (String.substring 0 20 body))
  end.

(** Payload bytes of a run of lines, and the bytes it spans when every
    line is counted with one terminator byte. *)
Definition payload (ls : list (list byte)) : Z :=
  fold_right (fun l acc => Z.of_nat (length l) + acc) 0 ls.

Definition span (ls : list (list byte)) : Z :=
  fold_right (fun l acc => Z.of_nat (length l) + 1 + acc) 0 ls.

(** The messages for a run of lines read from position [pos]: each one
    carries the position reached once it has been counted. *)
Fixpoint build_messages (pos : Z) (ls : list (list byte)) : list StoredMessage :=
  match ls with
  | [] => []
  | l :: rest =>
      let pos' := pos + Z.of_nat (length l) + 1 in
      {| Data := l; Offset := offsetFromInt pos' |} :: build_messages pos' rest
  end.

(** A file made of records, each followed by one newline byte. *)
Definition file_of_records (records : list (list byte)) : list byte :=
  concat (map (fun r => r ++ [newline]) records).

(** The byte position just after the newline of record [i] (from 0). *)
Definition end_of_record (records : list (list byte)) (i : nat) : Z :=
  span (firstn (S i) records).

Definition fits_scanner (raw : list byte) : Prop :=
  Z.of_nat (length raw) + 1 <= maxTokenSize.

(** The lines the read loop scans under a budget, counted from 0 among
    the lines that follow the starting position: the first two always
    (the first message is taken whatever its size), and line [n] when the
    payload of the [n] lines before it is within the budget, for these
    have all been taken. *)
Definition reached (limit : Z) (lines : list (list byte)) (n : nat) : Prop :=
  (n <= 1)%nat \/ payload (firstn n lines) <= limit.

(** The number an unsigned decimal text stands for, read from [n]
    onwards; reading stops at a character that is not a digit. *)
Fixpoint decimal_value_from (s : string) (n : Z) : Z :=
  match s with
  | EmptyString => n
  | String c rest =>
      match digit_val c with
      | Some d => decimal_value_from rest (n * 10 + d)
      | None => n
      end
  end.

Definition decimal_value (s : string) : Z := decimal_value_from s 0.

(** The text after the last slash of a path. *)
Definition last_elem (p : string) : string :=
  string_of_list_ascii (rev (take_elem (rev (list_ascii_of_string p)))).

Definition no_slash (s : string) : bool :=
  forallb (fun c => negb (is_sep c)) (list_ascii_of_string s).

(** The identifier [indexFiles] and [watchLoop] give to a path. *)
Definition streamID_of_path (p : string) : string := TrimSuffix (Base p) jsonl.

(** The visits [indexFiles] registers a file for, those it registers
    under [k], and the visits it hands to the watcher. *)
Definition indexable (e : DirEntry) : bool :=
  negb (entry_err e) && negb (entry_isDir e) && HasSuffix (entry_path e) jsonl.

Definition indexed_as (k : string) (e : DirEntry) : bool :=
  indexable e && String.eqb (streamID_of_path (entry_path e)) k.

Definition watchable (e : DirEntry) : bool :=
  negb (entry_err e) && entry_isDir e.

(** What a non-blocking send does to the channel it aims at: an open
    channel with an empty buffer takes the value, any other is left. *)
Definition sent (v : string) (oc : option Chan) : option Chan :=
  match oc with
  | Some {| chan_buf := None; chan_closed := false |} =>
      Some {| chan_buf := Some v; chan_closed := false |}
  | _ => oc
  end.

(** An event the watch loop acts on: a write or a creation of a file
    with the extension. *)
Definition relevant (ev : Event) : bool :=
  negb (Z.land (ev_Op ev) (Z.lor fsnotify_Write fsnotify_Create) =? 0)
  && HasSuffix (ev_Name ev) jsonl.

(** The stream the watch loop attributes an event to. *)
Definition event_stream (s : ClaudeStorage) (ev : Event) : string :=
  if String.eqb (ev_Name ev) (Join [claudeDir s; "history.jsonl"])
  then "_history" else streamID_of_path (ev_Name ev).

(** The registry is sound when every channel it lists exists and is
    open, no list names a channel twice and no channel is listed under two
    identifiers. *)
Definition registry_ok (s : ClaudeStorage) : Prop :=
  (forall (id : string) (subs : list nat) (ch : nat),
     subscribers s !! id = Some subs -> ch ∈ subs ->
     exists c : Chan, chans s !! ch = Some c /\ chan_closed c = false) /\
  (forall (id : string) (subs : list nat),
     subscribers s !! id = Some subs -> NoDup subs) /\
  (forall (id1 id2 : string) (subs1 subs2 : list nat) (ch : nat),
     subscribers s !! id1 = Some subs1 -> subscribers s !! id2 = Some subs2 ->
     ch ∈ subs1 -> ch ∈ subs2 -> id1 = id2).

(** The cancellation goroutine of a subscription runs for the
    identifier and the channel of that subscription, while the channel is
    still registered. *)
Definition step_allowed (st : Step) (sys : System) : Prop :=
  match st with
  | StepCancel id ch => ch ∈ default [] (subscribers (sys_storage sys) !! id)
  | _ => True
  end.

Fixpoint run_allowed (steps : list Step) (sys : System) : Prop :=
  match steps with
  | [] => True
  | st :: rest => step_allowed st sys /\ run_allowed rest (step st sys)
  end.

(** ** A small tree to run the adapter on

    [/c/history.jsonl] and, under [/c/projects], three conversation
    files two directories down; [deep] has a namesake in a later
    directory and [crlf] ends its one line with a carriage return and a
    newline. *)

Definition bytes (s : string) : list byte := String.list_byte_of_string s.

Definition sample_records : list (list byte) :=
  [bytes "alpha"; bytes "be"; bytes "gamma"].

Definition crlf_content : list byte := [x61; carriage_return; newline].

Definition sample_walk : list DirEntry :=
  [ {| entry_path := "/c/projects"; entry_isDir := true; entry_err := false |};
    {| entry_path := "/c/projects/p"; entry_isDir := true; entry_err := false |};
    {| entry_path := "/c/projects/p/a"; entry_isDir := true; entry_err := false |};
    {| entry_path := "/c/projects/p/a/crlf.jsonl"; entry_isDir := false; entry_err := false |};
    {| entry_path := "/c/projects/p/a/deep.jsonl"; entry_isDir := false; entry_err := false |};
    {| entry_path := "/c/projects/p/a/recs.jsonl"; entry_isDir := false; entry_err := false |};
    {| entry_path := "/c/projects/p/z"; entry_isDir := true; entry_err := false |};
    {| entry_path := "/c/projects/p/z/deep.jsonl"; entry_isDir := false; entry_err := false |} ].

(** The largest position of an ext4 file system with 4KB blocks. *)
Definition sample_maxbytes : Z := 17592186040320.

Definition sample_world : World :=
  {| fs_files :=
       list_to_map
         [ ("/c/history.jsonl", file_of_records [bytes "ls"]);
           ("/c/projects/p/a/crlf.jsonl", crlf_content);
           ("/c/projects/p/a/deep.jsonl", file_of_records sample_records);
           ("/c/projects/p/a/recs.jsonl", file_of_records sample_records);
           ("/c/projects/p/z/deep.jsonl", file_of_records [bytes "other"]) ];
     fs_special := ∅;
     fs_maxbytes := fun _ => sample_maxbytes;
     fs_glob := fun _ => ([], false);
     fs_walk := fun root =>
       if String.eqb root "/c/projects" then sample_walk else [] |}.

Definition sample_storage : ClaudeStorage :=
  {| claudeDir := "/c";
     projectsDir := "/c/projects";
     watched := ["/c"; "/c/projects"; "/c/projects/p"; "/c/projects/p/a"; "/c/projects/p/z"];
     subscribers := ∅;
     fileIndex :=
       list_to_map
         [ ("_history", "/c/history.jsonl");
           ("crlf", "/c/projects/p/a/crlf.jsonl");
           ("recs", "/c/projects/p/a/recs.jsonl") ];
     chans := ∅ |}.

Definition sample_ZeroOffset : string := "-1".

Definition sample_Join (elems : list string) : string := String.concat "/" elems.

(** More trees: one where the shallow pattern matches, one without any
    file, one whose file ends in a line that has no newline yet, and one
    whose file holds a line as long as the scanner's buffer. *)
Definition sample_world_glob : World :=
  {| fs_files := fs_files sample_world;
     fs_special := ∅;
     fs_maxbytes := fun _ => sample_maxbytes;
     fs_glob := fun _ =>
       (["/c/projects/p/shallow.jsonl"; "/c/projects/q/shallow.jsonl"], false);
     fs_walk := fs_walk sample_world |}.

Definition sample_world_empty : World :=
  {| fs_files := ∅; fs_special := ∅; fs_maxbytes := fun _ => sample_maxbytes;
     fs_glob := fun _ => ([], false); fs_walk := fun _ => [] |}.

Definition sample_world_partial : World :=
  {| fs_files :=
       {[ "/c/projects/p/a/recs.jsonl" := file_of_records [bytes "alpha"] ++ bytes "be" ]};
     fs_special := ∅;
     fs_maxbytes := fun _ => sample_maxbytes;
     fs_glob := fun _ => ([], false);
     fs_walk := fun _ => [] |}.

Definition long_line : list byte := repeat x61 (Z.to_nat maxTokenSize).

Definition sample_world_long : World :=
  {| fs_files := {[ "/c/projects/p/a/recs.jsonl" := long_line ++ [newline] ]};
     fs_special := ∅;
     fs_maxbytes := fun _ => sample_maxbytes;
     fs_glob := fun _ => ([], false);
     fs_walk := fun _ => [] |}.




(** A tree where the history file is gone, [recs] has lost its read
    permission and a directory has taken the place of [crlf]. *)
Definition sample_world_special : World :=
  {| fs_files := ∅;
     fs_special :=
       list_to_map
         [ ("/c/projects/p/a/crlf.jsonl", Directory 4096);
           ("/c/projects/p/a/recs.jsonl", NoRead 15) ];
     fs_maxbytes := fun _ => sample_maxbytes;
     fs_glob := fun _ => ([], false);
     fs_walk := fun _ => [] |}.

Definition sample_event : Event :=
  {| ev_Name := "/c/projects/p/a/recs.jsonl"; ev_Op := fsnotify_Write |}.

Definition deep_entry : DirEntry :=
  {| entry_path := "/c/projects/p/a/deep.jsonl"; entry_isDir := false; entry_err := false |}.

(* ===================================================================== *)
(** * The offset codec *)
(* ===================================================================== *)

Example TrimPrefix_slash : TrimPrefix "/abc" "/" = "abc".
Proof. reflexivity. Qed.

Example TrimPrefix_none : TrimPrefix "abc" "/" = "abc".
Proof. reflexivity. Qed.

Example HasSuffix_jsonl : HasSuffix "/c/projects/p/a.jsonl" jsonl = true.
Proof. reflexivity. Qed.

Example HasSuffix_short : HasSuffix "sonl" jsonl = false.
Proof. reflexivity. Qed.

Example TrimSuffix_jsonl : TrimSuffix "a.jsonl" jsonl = "a".
Proof. reflexivity. Qed.

Example TrimLeft0_padded : TrimLeft0 "00000000000000001024" = "1024".
Proof. reflexivity. Qed.

Example Base_file : Base "/c/projects/p/a.jsonl" = "a.jsonl".
Proof. reflexivity. Qed.

Example Base_trailing_slash : Base "a/b//" = "b".
Proof. reflexivity. Qed.

Example Base_slashes : Base "//" = "/".
Proof. reflexivity. Qed.

Example raw_lines_unterminated :
  raw_lines [] (bytes "ab" ++ [newline] ++ [newline] ++ bytes "c")
  = [bytes "ab"; []; bytes "c"].
Proof. reflexivity. Qed.

Example dropCR_crlf : dropCR [x61; carriage_return] = [x61].
Proof. reflexivity. Qed.

Example Sprintf_020d_42 : Sprintf_020d 42 = "00000000000000000042".
Proof. reflexivity. Qed.

Example Sprintf_020d_neg5 : Sprintf_020d (-5) = "-0000000000000000005".
Proof. reflexivity. Qed.

Example ParseInt_overflow :
  ParseInt "99999999999999999999" = (max_int64, Some ErrRange).
Proof. reflexivity. Qed.

Example ParseInt_negative : ParseInt "-17" = (-17, None).
Proof. reflexivity. Qed.

Example ParseInt_letters : ParseInt "12a" = (0, Some ErrSyntax).
Proof. reflexivity. Qed.

Example ParseInt_min : ParseInt "-9223372036854775808" = (min_int64, None).
Proof. reflexivity. Qed.

Lemma digit_char_code (d : Z) :
  0 <= d < 10 -> N_of_ascii (digit_char d) = (48 + Z.to_N d)%N.
Proof.
  intros Hd. unfold digit_char. apply N_ascii_embedding. lia.
Qed.

Lemma digit_val_digit_char (d : Z) :
  0 <= d < 10 -> digit_val (digit_char d) = Some d.
Proof.
  intros Hd. unfold digit_val. rewrite digit_char_code by exact Hd.
  replace (Z.of_N (48 + Z.to_N d)) with (48 + d) by lia.
  destruct (48 <=? 48 + d) eqn:E1; [|lia].
  destruct (48 + d <=? 57) eqn:E2; [|lia].
  simpl. f_equal. lia.
Qed.

Lemma digit_char_compare (a b : Z) :
  0 <= a < 10 -> 0 <= b < 10 ->
  Ascii.compare (digit_char a) (digit_char b) = (a ?= b).
Proof.
  intros Ha Hb. unfold Ascii.compare.
  rewrite !digit_char_code by assumption.
  rewrite <- N2Z.inj_compare, !N2Z.inj_add, !Z2N.id by lia.
  apply Z.add_compare_mono_l.
Qed.

Lemma digit_char_0 : digit_char 0 = zero_char.
Proof. reflexivity. Qed.

(** ** Fixed-width fields *)

Lemma append_cons (c : ascii) (s t : string) :
  (String c s +:+ t) = String c (s +:+ t).
Proof. reflexivity. Qed.

Lemma append_empty (t : string) : (EmptyString +:+ t) = t.
Proof. reflexivity. Qed.

Lemma zeros_snoc (k : nat) (acc : string) :
  (zeros k +:+ String zero_char acc) = String zero_char (zeros k +:+ acc).
Proof.
  induction k as [|k IH]; [reflexivity|].
  cbn [zeros]. rewrite !append_cons. now rewrite IH.
Qed.

Lemma fixed_digits_zero (w : nat) (acc : string) :
  fixed_digits w 0 acc = (zeros w +:+ acc).
Proof.
  revert acc. induction w as [|w IH]; intros acc; [reflexivity|].
  cbn [fixed_digits zeros].
  change (0 / 10) with 0. change (0 mod 10) with 0.
  rewrite IH, digit_char_0, append_cons. apply zeros_snoc.
Qed.

Lemma fixed_digits_length (w : nat) (u : Z) (acc : string) :
  String.length (fixed_digits w u acc) = (w + String.length acc)%nat.
Proof.
  revert u acc. induction w as [|w IH]; intros u acc; simpl; [reflexivity|].
  rewrite IH. simpl. lia.
Qed.

Lemma fixed_digits_all_digits (w : nat) (u : Z) (acc : string) :
  0 <= u -> all_digits acc = true -> all_digits (fixed_digits w u acc) = true.
Proof.
  revert u acc. induction w as [|w IH]; intros u acc Hu Hacc; simpl; [exact Hacc|].
  apply IH.
  - apply Z.div_pos; lia.
  - simpl. rewrite digit_val_digit_char; [exact Hacc|].
    apply Z.mod_pos_bound. lia.
Qed.

(** [fmtInteger] followed by the padding writes the fixed-width field. *)
Lemma fmt_digits_fixed (fuel w : nat) (u : Z) (acc : string) :
  (1 <= w <= fuel)%nat -> 0 <= u < 10 ^ Z.of_nat w ->
  pad_zeros (w + String.length acc) (fmt_digits fuel u acc) = fixed_digits w u acc.
Proof.
  revert w u acc. induction fuel as [|fuel IH]; intros w u acc Hw Hu; [lia|].
  destruct w as [|w]; [lia|]. simpl fmt_digits. simpl fixed_digits.
  destruct (u <? 10) eqn:E.
  - apply Z.ltb_lt in E.
    rewrite Z.div_small, Z.mod_small by lia.
    rewrite fixed_digits_zero. unfold pad_zeros. simpl String.length.
    replace (S w + String.length acc - S (String.length acc))%nat with w by lia.
    reflexivity.
  - apply Z.ltb_ge in E.
    assert (Hpow : 10 ^ Z.of_nat (S w) = 10 * 10 ^ Z.of_nat w).
    { rewrite Nat2Z.inj_succ, Z.pow_succ_r by lia. reflexivity. }
    destruct w as [|w].
    { simpl in Hu. lia. }
    rewrite <- (IH (S w) (u / 10) (String (digit_char (u mod 10)) acc)).
    + simpl String.length. f_equal. lia.
    + lia.
    + split; [apply Z.div_pos; lia|].
      apply Z.div_lt_upper_bound; lia.
Qed.

Lemma offsetFromInt_fixed (p : Z) :
  0 <= p < 10 ^ 20 -> offsetFromInt p = fixed_digits 20 p EmptyString.
Proof.
  intros Hp. unfold offsetFromInt, Sprintf_020d.
  destruct (p <? 0) eqn:E; [lia|].
  exact (fmt_digits_fixed 20 20 p EmptyString ltac:(lia) Hp).
Qed.

(** ** Order of the encodings *)

Lemma string_compare_cons (c : ascii) (s t : string) :
  String.compare (String c s) (String c t) = String.compare s t.
Proof.
  simpl. unfold Ascii.compare. now rewrite N.compare_refl.
Qed.

(** Fields of one width compare as their numbers do; with equal numbers
    the texts behind them decide. *)
Lemma fixed_digits_compare (w : nat) (x y : Z) (a b : string) :
  0 <= x < 10 ^ Z.of_nat w -> 0 <= y < 10 ^ Z.of_nat w ->
  x < y \/ (x = y /\ String.compare a b = Lt) ->
  String.compare (fixed_digits w x a) (fixed_digits w y b) = Lt.
Proof.
  revert x y a b. induction w as [|w IH]; intros x y a b Hx Hy H.
  - simpl in *. destruct H as [H|[_ H]]; [lia|exact H].
  - assert (Hpow : 10 ^ Z.of_nat (S w) = 10 * 10 ^ Z.of_nat w).
    { rewrite Nat2Z.inj_succ, Z.pow_succ_r by lia. reflexivity. }
    cbn [fixed_digits]. apply IH.
    + split; [apply Z.div_pos; lia | apply Z.div_lt_upper_bound; lia].
    + split; [apply Z.div_pos; lia | apply Z.div_lt_upper_bound; lia].
    + destruct H as [H|[-> H]].
      * destruct (Z.eq_dec (x / 10) (y / 10)) as [E|E].
        -- right. split; [exact E|].
           cbn [String.compare].
           rewrite digit_char_compare by (apply Z.mod_pos_bound; lia).
           assert (x mod 10 < y mod 10) as ->%Z.compare_lt_iff; [|reflexivity].
           rewrite !Z.mod_eq by lia. lia.
        -- left. assert (x / 10 <= y / 10) by (apply Z.div_le_mono; lia). lia.
      * right. split; [reflexivity|]. now rewrite string_compare_cons.
Qed.

(** ** Decoding an encoding *)

Lemma max_uint64_val : max_uint64 = 18446744073709551615.
Proof. reflexivity. Qed.

Lemma max_int64_val : max_int64 = 9223372036854775807.
Proof. reflexivity. Qed.

Lemma min_int64_val : min_int64 = -9223372036854775808.
Proof. reflexivity. Qed.

Lemma parse_cutoff_val : parse_cutoff = 1844674407370955162.
Proof. reflexivity. Qed.

(** Linear arithmetic with the bounds of the machine integers written
    out. *)
Ltac int_lia :=
  rewrite ?min_int64_val, ?max_int64_val, ?max_uint64_val in *; lia.

Lemma wrapu64_small (z : Z) : 0 <= z <= max_uint64 -> wrapu64 z = z.
Proof.
  rewrite max_uint64_val. unfold wrapu64. intros H. apply Z.mod_small.
  change (2 ^ 64) with 18446744073709551616. lia.
Qed.

Lemma wrap64_small (z : Z) : min_int64 <= z <= max_int64 -> wrap64 z = z.
Proof.
  rewrite min_int64_val, max_int64_val. unfold wrap64. intros H.
  change (2 ^ 63) with 9223372036854775808.
  change (2 ^ 64) with 18446744073709551616.
  rewrite Z.mod_small by lia. lia.
Qed.

(** One turn of the digit loop below the overflow bounds. *)
Lemma ParseUint_loop_step (c : ascii) (rest : string) (n d : Z) :
  digit_val c = Some d -> 0 <= d < 10 -> 0 <= n -> n * 10 + d <= max_uint64 ->
  ParseUint_loop (String c rest) n = ParseUint_loop rest (n * 10 + d).
Proof.
  intros Hc Hd Hn Hb. cbn [ParseUint_loop]. rewrite Hc.
  rewrite (wrapu64_small (n * 10)) by lia.
  rewrite (wrapu64_small (n * 10 + d)) by lia.
  rewrite parse_cutoff_val. rewrite max_uint64_val in *.
  destruct (_ <=? n) eqn:E1; [apply Z.leb_le in E1; lia|].
  destruct (n * 10 + d <? n * 10) eqn:E2; [apply Z.ltb_lt in E2; lia|].
  destruct (_ <? n * 10 + d) eqn:E3; [apply Z.ltb_lt in E3; lia|].
  reflexivity.
Qed.

Lemma ParseUint_loop_fixed (w : nat) (u n : Z) (acc : string) :
  0 <= u < 10 ^ Z.of_nat w -> 0 <= n ->
  n * 10 ^ Z.of_nat w + u <= max_uint64 ->
  ParseUint_loop (fixed_digits w u acc) n =
  ParseUint_loop acc (n * 10 ^ Z.of_nat w + u).
Proof.
  revert u acc. induction w as [|w IH]; intros u acc Hu Hn Hb.
  - simpl in *. f_equal. lia.
  - assert (Hpow : 10 ^ Z.of_nat (S w) = 10 * 10 ^ Z.of_nat w).
    { rewrite Nat2Z.inj_succ, Z.pow_succ_r by lia. reflexivity. }
    assert (Hp : 0 < 10 ^ Z.of_nat w) by (apply Z.pow_pos_nonneg; lia).
    assert (Hm : 0 <= u mod 10 < 10) by (apply Z.mod_pos_bound; lia).
    assert (Hq : u = 10 * (u / 10) + u mod 10) by (apply Z.div_mod; lia).
    assert (Hq0 : 0 <= u / 10) by (apply Z.div_pos; lia).
    cbn [fixed_digits]. rewrite IH.
    + rewrite (ParseUint_loop_step _ _ _ (u mod 10)).
      * f_equal. rewrite Hpow. lia.
      * apply digit_val_digit_char, Hm.
      * exact Hm.
      * nia.
      * rewrite Hpow in Hb. nia.
    + split; [exact Hq0 | apply Z.div_lt_upper_bound; lia].
    + exact Hn.
    + rewrite Hpow in Hb. nia.
Qed.

Lemma digit_val_zero_char : digit_val zero_char = Some 0.
Proof. reflexivity. Qed.

Lemma ParseUint_loop_TrimLeft0 (s : string) :
  ParseUint_loop (TrimLeft0 s) 0 = ParseUint_loop s 0.
Proof.
  induction s as [|c rest IH]; [reflexivity|].
  cbn [TrimLeft0]. destruct (Ascii.eqb c zero_char) eqn:E; [|reflexivity].
  apply Ascii.eqb_eq in E. subst c.
  rewrite (ParseUint_loop_step _ _ _ 0); [exact IH | reflexivity | lia | lia |].
  rewrite max_uint64_val. lia.
Qed.

Lemma ParseUint_loop_head_digit (c : ascii) (rest : string) (n v : Z) :
  ParseUint_loop (String c rest) n = (v, None) -> is_Some (digit_val c).
Proof.
  cbn [ParseUint_loop]. destruct (digit_val c) as [d|]; [eauto|discriminate].
Qed.

Lemma pick_sign_digit (c : ascii) (rest : string) :
  is_Some (digit_val c) -> pick_sign (String c rest) = (false, String c rest).
Proof.
  intros [d Hd]. cbn [pick_sign].
  destruct (Ascii.eqb c "+") eqn:E1.
  { apply Ascii.eqb_eq in E1. subst c. discriminate. }
  destruct (Ascii.eqb c "-") eqn:E2.
  { apply Ascii.eqb_eq in E2. subst c. discriminate. }
  reflexivity.
Qed.

(** [ParseInt] reads back the value of a zero-padded field, its leading
    zeros removed or not. *)
Lemma ParseInt_TrimLeft0_fixed (w : nat) (p : Z) :
  0 <= p < 10 ^ Z.of_nat w -> p <= max_int64 ->
  fst (ParseInt (TrimLeft0 (fixed_digits w p EmptyString))) = p.
Proof.
  intros Hp Hmax.
  assert (Hloop : ParseUint_loop (TrimLeft0 (fixed_digits w p EmptyString)) 0 = (p, None)).
  { rewrite ParseUint_loop_TrimLeft0, ParseUint_loop_fixed.
    - rewrite Z.mul_0_l, Z.add_0_l. reflexivity.
    - exact Hp.
    - lia.
    - rewrite max_int64_val in Hmax. rewrite max_uint64_val. lia. }
  destruct (TrimLeft0 (fixed_digits w p EmptyString)) as [|c rest] eqn:Et.
  - simpl in Hloop. injection Hloop as <-. reflexivity.
  - pose proof (ParseUint_loop_head_digit _ _ _ _ Hloop) as Hc.
    unfold ParseInt. rewrite (pick_sign_digit _ _ Hc).
    unfold ParseUint. rewrite Hloop.
    rewrite max_int64_val in Hmax.
    change (2 ^ 63) with 9223372036854775808.
    destruct (9223372036854775808 <=? p) eqn:E; [apply Z.leb_le in E; lia|].
    cbn [negb andb fst]. apply wrap64_small.
    rewrite min_int64_val, max_int64_val. lia.
Qed.

Lemma append_length (s t : string) :
  String.length (s +:+ t) = (String.length s + String.length t)%nat.
Proof.
  induction s as [|c s IH]; [reflexivity|].
  rewrite append_cons. cbn [String.length]. now rewrite IH.
Qed.

Lemma zeros_length (k : nat) : String.length (zeros k) = k.
Proof. induction k as [|k IH]; [reflexivity|]. cbn [zeros String.length]. now rewrite IH. Qed.

Lemma pad_zeros_length (prec : nat) (digits : string) :
  (prec <= String.length (pad_zeros prec digits))%nat.
Proof. unfold pad_zeros. rewrite append_length, zeros_length. lia. Qed.

(** An encoding is never shorter than its field. *)
Lemma offsetFromInt_length_ge (n : Z) : (20 <= String.length (offsetFromInt n))%nat.
Proof.
  unfold offsetFromInt, Sprintf_020d. destruct (n <? 0).
  - cbn [String.length].
    pose proof (pad_zeros_length 19 (fmt_digits 20 (- n) EmptyString)). lia.
  - apply pad_zeros_length.
Qed.

Lemma pow10_20_gt_max_int64 : max_int64 < 10 ^ 20.
Proof. reflexivity. Qed.

Lemma offsetFromInt_length (p : Z) :
  0 <= p <= max_int64 -> String.length (offsetFromInt p) = 20%nat.
Proof.
  intros Hp. pose proof pow10_20_gt_max_int64.
  rewrite offsetFromInt_fixed by lia. now rewrite fixed_digits_length.
Qed.

Lemma offsetFromInt_all_digits (p : Z) :
  0 <= p <= max_int64 -> all_digits (offsetFromInt p) = true.
Proof.
  intros Hp. pose proof pow10_20_gt_max_int64.
  rewrite offsetFromInt_fixed by lia.
  apply fixed_digits_all_digits; [lia | reflexivity].
Qed.

(** C2: for byte positions [0 <= p1 < p2 <= 2^63 - 1] the encoding of
    [p1] is strictly below the encoding of [p2] in the byte-wise order of
    strings, and both encodings are 20 characters long and made of decimal
    digits only. *)
Theorem offsetFromInt_strictly_monotone (p1 p2 : Z) :
  0 <= p1 -> p1 < p2 -> p2 <= max_int64 ->
  string_lt (offsetFromInt p1) (offsetFromInt p2) /\
  (String.length (offsetFromInt p1) = 20%nat /\ all_digits (offsetFromInt p1) = true) /\
  (String.length (offsetFromInt p2) = 20%nat /\ all_digits (offsetFromInt p2) = true).
Proof.
  intros H0 Hlt Hmax. pose proof pow10_20_gt_max_int64 as Hpow.
  split; [|split; split;
            first [apply offsetFromInt_length | apply offsetFromInt_all_digits]; lia].
  unfold string_lt. rewrite !offsetFromInt_fixed by lia.
  apply fixed_digits_compare; [change (Z.of_nat 20) with 20; lia ..|].
  left. exact Hlt.
Qed.

Lemma offsetToInt_encoded (q : Z) :
  0 <= q <= max_int64 ->
  (ZeroOffset = offsetFromInt q -> q = 0) ->
  offsetToInt (offsetFromInt q) = q.
Proof.
  intros Hq HZq. pose proof pow10_20_gt_max_int64 as Hpow. unfold offsetToInt.
  destruct (String.eqb (offsetFromInt q) ZeroOffset) eqn:E1.
  { apply String.eqb_eq in E1. cbn [orb]. symmetry. apply HZq. now symmetry. }
  destruct (String.eqb (offsetFromInt q) "-1") eqn:E2.
  { apply String.eqb_eq in E2.
    pose proof (offsetFromInt_length q Hq) as Hlen.
    rewrite E2 in Hlen. discriminate. }
  cbn [orb]. rewrite offsetFromInt_fixed by lia.
  apply ParseInt_TrimLeft0_fixed; [change (Z.of_nat 20) with 20|]; lia.
Qed.

Lemma offsetToInt_encoded_0 : offsetToInt (offsetFromInt 0) = 0.
Proof.
  apply offsetToInt_encoded; [rewrite max_int64_val; lia | reflexivity].
Qed.

(** C3: decoding the encoding of a byte position [0 <= p <= 2^63 - 1]
    gives [p] back, as long as the "from the beginning" token of the
    library is not itself the encoding of a position other than 0; the
    encoding of 0 is the token of twenty zeros and decodes to 0 whatever
    that token is. *)
Theorem offsetToInt_offsetFromInt (p : Z) :
  0 <= p <= max_int64 ->
  (ZeroOffset = offsetFromInt p -> p = 0) ->
  offsetToInt (offsetFromInt p) = p /\
  offsetFromInt 0 = "00000000000000000000" /\
  offsetToInt (offsetFromInt 0) = 0.
Proof.
  intros Hp HZ.
  split; [apply offsetToInt_encoded; assumption|].
  split; [reflexivity|]. apply offsetToInt_encoded_0.
Qed.

(** ** Lenient decoding *)

Lemma substring_0_cons (k : nat) (c : ascii) (s : string) :
  String.substring 0 (S k) (String c s) = String c (String.substring 0 k s).
Proof. reflexivity. Qed.

Lemma substring_0_0 (s : string) : String.substring 0 0 s = EmptyString.
Proof. destruct s; reflexivity. Qed.

(** A character that is not a digit among the first [k] ones stops the
    digit loop with a syntax error: with fewer than [20 - k] digits read
    so far, no overflow can come first. *)
Lemma ParseUint_loop_syntax (k : nat) (s : string) (n : Z) :
  (k <= 20)%nat -> 0 <= n < 10 ^ Z.of_nat (20 - k) ->
  all_digits (String.substring 0 k s) = false ->
  ParseUint_loop s n = (0, Some ErrSyntax).
Proof.
  revert s n. induction k as [|k IH]; intros s n Hk Hn Hs.
  - rewrite substring_0_0 in Hs. discriminate.
  - destruct s as [|c rest]; [discriminate|].
    rewrite substring_0_cons in Hs. cbn [all_digits] in Hs.
    destruct (digit_val c) as [d|] eqn:Hc.
    2:{ cbn [ParseUint_loop]. now rewrite Hc. }
    assert (Hd : 0 <= d < 10).
    { unfold digit_val in Hc.
      destruct ((48 <=? Z.of_N (N_of_ascii c)) && (Z.of_N (N_of_ascii c) <=? 57)) eqn:E;
        [|discriminate].
      apply andb_true_iff in E. destruct E as [E1%Z.leb_le E2%Z.leb_le].
      injection Hc as <-. lia. }
    assert (Hk1 : (1 <= k)%nat).
    { destruct k; [|lia]. rewrite substring_0_0 in Hs. discriminate. }
    assert (Hpow : 10 ^ Z.of_nat (20 - k) = 10 * 10 ^ Z.of_nat (20 - S k)).
    { replace (20 - k)%nat with (S (20 - S k)) by lia.
      rewrite Nat2Z.inj_succ, Z.pow_succ_r by lia. reflexivity. }
    assert (Hle : 10 ^ Z.of_nat (20 - k) <= 10 ^ 19).
    { apply Z.pow_le_mono_r; lia. }
    rewrite (ParseUint_loop_step _ _ _ d Hc Hd); [|lia|].
    + apply IH; [lia | lia | exact Hs].
    + rewrite max_uint64_val. change (10 ^ 19) with 10000000000000000000 in Hle. lia.
Qed.

Lemma digit_val_range (c : ascii) (d : Z) : digit_val c = Some d -> 0 <= d < 10.
Proof.
  unfold digit_val.
  destruct ((48 <=? Z.of_N (N_of_ascii c)) && (Z.of_N (N_of_ascii c) <=? 57)) eqn:E;
    [|discriminate].
  apply andb_true_iff in E as [E1%Z.leb_le E2%Z.leb_le].
  intros H. injection H as <-. lia.
Qed.

Lemma decimal_value_from_ge (s : string) (n : Z) :
  0 <= n -> n <= decimal_value_from s n.
Proof.
  revert n. induction s as [|c rest IH]; intros n Hn; cbn [decimal_value_from]; [lia|].
  destruct (digit_val c) as [d|] eqn:Hc; [|lia].
  pose proof (digit_val_range c d Hc).
  specialize (IH (n * 10 + d) ltac:(lia)). lia.
Qed.

(** The digit loop on a run of digits: the number read, or the range
    error once it passes the largest [uint64]. *)
Lemma ParseUint_loop_digits (s : string) (n : Z) :
  all_digits s = true -> 0 <= n <= max_uint64 ->
  ParseUint_loop s n =
    if decimal_value_from s n <=? max_uint64
    then (decimal_value_from s n, None)
    else (max_uint64, Some ErrRange).
Proof.
  revert n. induction s as [|c rest IH]; intros n Hs Hn.
  - cbn. destruct (n <=? max_uint64) eqn:E; [reflexivity|apply Z.leb_gt in E; lia].
  - cbn [all_digits] in Hs. cbn [ParseUint_loop decimal_value_from].
    destruct (digit_val c) as [d|] eqn:Hc; [|discriminate].
    pose proof (digit_val_range c d Hc) as Hd.
    pose proof (decimal_value_from_ge rest (n * 10 + d) ltac:(lia)) as Hge.
    rewrite parse_cutoff_val. rewrite max_uint64_val in *.
    destruct (1844674407370955162 <=? n) eqn:E1.
    { apply Z.leb_le in E1.
      destruct (_ <=? 18446744073709551615) eqn:E; [apply Z.leb_le in E; lia|reflexivity]. }
    apply Z.leb_gt in E1.
    rewrite (wrapu64_small (n * 10)) by int_lia.
    destruct (Z_le_gt_dec (n * 10 + d) 18446744073709551615) as [Hle|Hgt].
    + rewrite (wrapu64_small (n * 10 + d)) by int_lia.
      destruct (n * 10 + d <? n * 10) eqn:E2; [apply Z.ltb_lt in E2; lia|].
      destruct (18446744073709551615 <? n * 10 + d) eqn:E3; [apply Z.ltb_lt in E3; lia|].
      cbn [orb]. apply IH; [assumption | lia].
    + assert (Hw : wrapu64 (n * 10 + d) = n * 10 + d - 18446744073709551616).
      { unfold wrapu64. change (2 ^ 64) with 18446744073709551616.
        symmetry. apply Z.mod_unique with (q := 1); lia. }
      rewrite Hw.
      destruct (_ <? n * 10) eqn:E2; [|apply Z.ltb_ge in E2; lia].
      cbn [orb].
      destruct (_ <=? 18446744073709551615) eqn:E; [apply Z.leb_le in E; lia|reflexivity].
Qed.

Lemma all_digits_TrimLeft0 (s : string) :
  all_digits s = true -> all_digits (TrimLeft0 s) = true.
Proof.
  induction s as [|c rest IH]; intros H; [reflexivity|].
  cbn [TrimLeft0]. destruct (Ascii.eqb c zero_char); [|exact H].
  apply IH. cbn [all_digits] in H. now destruct (digit_val c).
Qed.

Lemma decimal_value_TrimLeft0 (s : string) :
  decimal_value (TrimLeft0 s) = decimal_value s.
Proof.
  unfold decimal_value. induction s as [|c rest IH]; [reflexivity|].
  cbn [TrimLeft0]. destruct (Ascii.eqb c zero_char) eqn:E; [|reflexivity].
  apply Ascii.eqb_eq in E. subst c. rewrite IH. reflexivity.
Qed.

(** [ParseInt] on a run of digits: the number, the largest [int64] at
    most. *)
Lemma ParseInt_digits (s : string) :
  all_digits s = true -> fst (ParseInt s) = Z.min (decimal_value s) max_int64.
Proof.
  intros Hs. destruct s as [|c rest]; [reflexivity|].
  assert (Hc : is_Some (digit_val c)).
  { cbn [all_digits] in Hs. destruct (digit_val c); [eauto|discriminate]. }
  unfold ParseInt. rewrite (pick_sign_digit _ _ Hc). unfold ParseUint.
  rewrite (ParseUint_loop_digits _ 0 Hs) by (rewrite max_uint64_val; lia).
  fold (decimal_value (String c rest)).
  pose proof (decimal_value_from_ge (String c rest) 0 ltac:(lia)) as H0.
  fold (decimal_value (String c rest)) in H0.
  rewrite max_uint64_val, max_int64_val.
  change (2 ^ 63) with 9223372036854775808.
  destruct (decimal_value (String c rest) <=? 18446744073709551615) eqn:E.
  - apply Z.leb_le in E.
    destruct (9223372036854775808 <=? decimal_value (String c rest)) eqn:E2; cbn [negb andb fst].
    + apply Z.leb_le in E2. lia.
    + apply Z.leb_gt in E2. rewrite wrap64_small by int_lia. lia.
  - apply Z.leb_gt in E.
    change (9223372036854775808 <=? 18446744073709551615) with true.
    cbn [negb andb fst]. lia.
Qed.

(** C4, as the code has it: the "from the beginning" token, its alias
    ["-1"] and every token that is not numeric (leading zeros and one sign
    apart, it is empty or has a character that is not a decimal digit
    among its first 20) decode to 0.  A token made of decimal digits only,
    other than the "from the beginning" token, is taken for the number it
    writes whether or not it is an encoding: it decodes to that number,
    and to [2^63 - 1] when the number is larger. *)
Theorem offsetToInt_lenient (o : string) :
  (o = ZeroOffset \/ o = "-1" \/ not_numeric o = true -> offsetToInt o = 0) /\
  (all_digits o = true -> o <> ZeroOffset ->
   offsetToInt o = Z.min (decimal_value o) max_int64).
Proof.
  split.
  - intros [->|[->|H]].
    + unfold offsetToInt. now rewrite String.eqb_refl.
    + unfold offsetToInt. now rewrite orb_true_r.
    + unfold offsetToInt.
      destruct (String.eqb o ZeroOffset || String.eqb o "-1"); [reflexivity|].
      unfold not_numeric in H. unfold ParseInt.
      destruct (TrimLeft0 o) as [|c rest] eqn:Et; [reflexivity|].
      destruct (pick_sign (String c rest)) as [neg body]. cbn [snd] in H.
      destruct body as [|b body'].
      * reflexivity.
      * apply negb_true_iff in H.
        unfold ParseUint.
        rewrite (ParseUint_loop_syntax 20 _ 0 ltac:(lia) ltac:(simpl; lia) H).
        reflexivity.
  - intros Hs Hz. unfold offsetToInt.
    destruct (String.eqb o ZeroOffset) eqn:E1; [apply String.eqb_eq in E1; contradiction|].
    destruct (String.eqb o "-1") eqn:E2.
    { apply String.eqb_eq in E2. subst o. discriminate Hs. }
    cbn [orb]. rewrite ParseInt_digits by now apply all_digits_TrimLeft0.
    now rewrite decimal_value_TrimLeft0.
Qed.

Lemma wrap64_range (z : Z) : min_int64 <= wrap64 z <= max_int64.
Proof.
  rewrite min_int64_val, max_int64_val. unfold wrap64.
  change (2 ^ 63) with 9223372036854775808.
  change (2 ^ 64) with 18446744073709551616.
  pose proof (Z.mod_pos_bound (z + 9223372036854775808) 18446744073709551616
                ltac:(lia)). lia.
Qed.

(** [ParseInt] returns an [int64]. *)
Lemma ParseInt_range (s : string) : min_int64 <= fst (ParseInt s) <= max_int64.
Proof.
  assert (H0 : min_int64 <= 0 <= max_int64)
    by int_lia.
  unfold ParseInt. destruct s as [|c rest]; [exact H0|].
  destruct (pick_sign (String c rest)) as [neg body].
  destruct (ParseUint body) as [un [[|]|]].
  - exact H0.
  - destruct (negb neg && (2 ^ 63 <=? un)); cbn [fst];
      [rewrite min_int64_val, max_int64_val; change (2 ^ 63) with 9223372036854775808; lia|].
    destruct (neg && (2 ^ 63 <? un)); cbn [fst];
      [rewrite min_int64_val, max_int64_val; change (2 ^ 63) with 9223372036854775808; lia|].
    destruct neg; apply wrap64_range.
  - destruct (negb neg && (2 ^ 63 <=? un)); cbn [fst];
      [rewrite min_int64_val, max_int64_val; change (2 ^ 63) with 9223372036854775808; lia|].
    destruct (neg && (2 ^ 63 <? un)); cbn [fst];
      [rewrite min_int64_val, max_int64_val; change (2 ^ 63) with 9223372036854775808; lia|].
    destruct neg; apply wrap64_range.
Qed.

Lemma offsetToInt_range (o : string) : min_int64 <= offsetToInt o <= max_int64.
Proof.
  unfold offsetToInt. destruct (_ || _); [|apply ParseInt_range].
  rewrite min_int64_val, max_int64_val; lia.
Qed.

(* ===================================================================== *)
(** * The line reader *)
(* ===================================================================== *)

(** ** Seeking and cutting into lines *)

Lemma seek_drop (content : list byte) (pos : Z) :
  0 <= pos -> seek content pos = drop (Z.to_nat pos) content.
Proof.
  revert pos. induction content as [|b rest IH]; intros pos Hpos.
  - now rewrite drop_nil.
  - cbn [seek]. destruct (pos <=? 0) eqn:E.
    + apply Z.leb_le in E. replace pos with 0 by lia. reflexivity.
    + apply Z.leb_gt in E. rewrite IH by lia.
      replace (Z.to_nat pos) with (S (Z.to_nat (pos - 1))) by lia. reflexivity.
Qed.

Lemma seek_past_end (content : list byte) (pos : Z) :
  Z.of_nat (length content) <= pos -> seek content pos = [].
Proof.
  intros H. rewrite seek_drop by lia. apply drop_ge. lia.
Qed.

Lemma seek_0 (content : list byte) : seek content 0 = content.
Proof. destruct content; reflexivity. Qed.

Lemma seek_length (content : list byte) (pos : Z) :
  0 <= pos <= Z.of_nat (length content) ->
  Z.of_nat (length (seek content pos)) = Z.of_nat (length content) - pos.
Proof.
  intros H. rewrite seek_drop by lia. rewrite length_drop. lia.
Qed.

Lemma seek_app_length (a b : list byte) : seek (a ++ b) (Z.of_nat (length a)) = b.
Proof.
  rewrite seek_drop by lia. rewrite Nat2Z.id. now rewrite drop_app_length.
Qed.

Lemma payload_nonneg (ls : list (list byte)) : 0 <= payload ls.
Proof. induction ls as [|l ls IH]; simpl; lia. Qed.

Lemma payload_le_span (ls : list (list byte)) : payload ls <= span ls.
Proof. induction ls as [|l ls IH]; simpl; lia. Qed.

Lemma payload_app (l1 l2 : list (list byte)) :
  payload (l1 ++ l2) = payload l1 + payload l2.
Proof. induction l1 as [|l l1 IH]; simpl; lia. Qed.

Lemma span_app (l1 l2 : list (list byte)) :
  span (l1 ++ l2) = span l1 + span l2.
Proof. induction l1 as [|l l1 IH]; simpl; lia. Qed.

Lemma payload_firstn_mono (ls : list (list byte)) (i j : nat) :
  (i <= j)%nat -> payload (firstn i ls) <= payload (firstn j ls).
Proof.
  revert i j. induction ls as [|l ls IH]; intros i j Hij.
  - now rewrite !firstn_nil.
  - destruct i as [|i].
    + apply payload_nonneg.
    + destruct j as [|j]; [lia|]. simpl. specialize (IH i j). lia.
Qed.

Lemma payload_firstn_le (ls : list (list byte)) (i : nat) :
  payload (firstn i ls) <= payload ls.
Proof.
  rewrite <- (firstn_skipn i ls) at 2. rewrite payload_app.
  pose proof (payload_nonneg (skipn i ls)). lia.
Qed.

Lemma span_firstn_le (ls : list (list byte)) (i : nat) :
  span (firstn i ls) <= span ls.
Proof.
  rewrite <- (firstn_skipn i ls) at 2. rewrite span_app.
  pose proof (payload_nonneg (skipn i ls)).
  pose proof (payload_le_span (skipn i ls)). lia.
Qed.

Lemma dropCR_length (raw : list byte) :
  (length (dropCR raw) <= length raw)%nat.
Proof.
  unfold dropCR. destruct (last raw) as [c|]; [|lia].
  destruct (Byte.eqb c carriage_return); [|lia].
  destruct raw as [|b raw] using rev_ind; [simpl; lia|].
  rewrite removelast_last, length_app. lia.
Qed.

Lemma dropCR_no_CR (r : list byte) :
  last r <> Some carriage_return -> dropCR r = r.
Proof.
  intros H. unfold dropCR. destruct (last r) as [c|]; [|reflexivity].
  destruct (Byte.eqb c carriage_return) eqn:E; [|reflexivity].
  apply Byte.byte_dec_bl in E. congruence.
Qed.

Lemma span_map_dropCR (raws : list (list byte)) :
  span (map dropCR raws) <= span raws.
Proof.
  induction raws as [|r raws IH]; simpl; [lia|].
  pose proof (dropCR_length r). lia.
Qed.

(** The lines cut from [data] span at most one byte more than [data]:
    the terminator counted for a last line that has none. *)
Lemma raw_lines_span (cur data : list byte) :
  span (raw_lines cur data) <= Z.of_nat (length cur) + Z.of_nat (length data) + 1.
Proof.
  revert cur. induction data as [|b rest IH]; intros cur.
  - cbn [raw_lines]. destruct cur; simpl; [lia|]. rewrite length_app, length_rev.
    simpl. lia.
  - cbn [raw_lines]. destruct (Byte.eqb b newline).
    + specialize (IH []). simpl in *. rewrite length_rev. lia.
    + specialize (IH (b :: cur)). simpl in *. lia.
Qed.

(** ** The read loop *)

Lemma build_messages_Data (pos : Z) (ls : list (list byte)) :
  map Data (build_messages pos ls) = ls.
Proof.
  revert pos. induction ls as [|l ls IH]; intros pos; [reflexivity|].
  cbn [build_messages map Data]. now rewrite IH.
Qed.

Lemma build_messages_length (pos : Z) (ls : list (list byte)) :
  length (build_messages pos ls) = length ls.
Proof.
  revert pos. induction ls as [|l ls IH]; intros pos; [reflexivity|].
  cbn [build_messages length]. now rewrite IH.
Qed.

Lemma span_firstn_cons (i : nat) (l : list byte) (ls : list (list byte)) :
  span (firstn (S i) (l :: ls)) = Z.of_nat (length l) + 1 + span (firstn i ls).
Proof. reflexivity. Qed.

Lemma payload_firstn_cons (i : nat) (l : list byte) (ls : list (list byte)) :
  payload (firstn (S i) (l :: ls)) = Z.of_nat (length l) + payload (firstn i ls).
Proof. reflexivity. Qed.

Lemma span_firstn_0 (ls : list (list byte)) : span (firstn 0 ls) = 0.
Proof. reflexivity. Qed.

Lemma payload_firstn_0 (ls : list (list byte)) : payload (firstn 0 ls) = 0.
Proof. reflexivity. Qed.

Lemma build_messages_cons (pos : Z) (l : list byte) (ls : list (list byte)) :
  build_messages pos (l :: ls) =
  {| Data := l; Offset := offsetFromInt (pos + Z.of_nat (length l) + 1) |}
    :: build_messages (pos + Z.of_nat (length l) + 1) ls.
Proof. reflexivity. Qed.

Lemma build_messages_lookup (pos : Z) (ls : list (list byte)) (i : nat) (l : list byte) :
  ls !! i = Some l ->
  build_messages pos ls !! i =
  Some {| Data := l; Offset := offsetFromInt (pos + span (firstn (S i) ls)) |}.
Proof.
  revert pos i. induction ls as [|l0 ls IH]; intros pos i Hi; [discriminate|].
  rewrite build_messages_cons, span_firstn_cons. destruct i as [|i].
  - injection Hi as ->. rewrite span_firstn_0.
    replace (pos + (Z.of_nat (length l) + 1 + 0)) with (pos + Z.of_nat (length l) + 1)
      by lia.
    reflexivity.
  - change ((l0 :: ls) !! S i) with (ls !! i) in Hi.
    change ((?x :: ?t) !! S i) with (t !! i).
    rewrite (IH _ _ Hi). do 3 f_equal. lia.
Qed.

(** A turn of the loop is a call of [Scan] and the body of the loop on
    the line it hands out. *)
Lemma scan_loop_Scan (limit : Z) (pending : list (list byte)) (st : LoopState) :
  scan_loop limit pending st =
  match Scan pending with
  | ScanEOF => (st, None)
  | ScanTooLong => (st, Some ErrScan)
  | ScanToken line rest =>
      let lineLen := wrap64 (Z.of_nat (length line) + 1) in
      if (limit <? wrap64 (bytesRead st + Z.of_nat (length line)))
         && (0 <? Z.of_nat (length (messages st)))
      then (st, None)
      else
        let currentOffset' := wrap64 (currentOffset st + lineLen) in
        scan_loop limit rest
          {| messages := messages st ++
               [ {| Data := line; Offset := offsetFromInt currentOffset' |} ];
             currentOffset := currentOffset';
             bytesRead := wrap64 (bytesRead st + Z.of_nat (length line)) |}
  end.
Proof.
  destruct pending as [|raw rest]; [reflexivity|].
  cbn [scan_loop Scan]. destruct (maxTokenSize <? _); reflexivity.
Qed.

(** The loop takes lines in order and stops at the first line, other
    than the very first message, that would take the payload over
    [limit]; [j] is the number of lines it takes.  Only the lines the
    loop scans have to fit the scanner: the first, the second when no
    message was held before, and a later one when the payload up to it
    is within [limit]. *)
Lemma scan_loop_reached (limit : Z) (pending : list (list byte)) (st : LoopState) :
  (forall (n : nat) (raw : list byte),
     pending !! n = Some raw ->
     n = 0%nat \/ (n = 1%nat /\ messages st = []) \/
       bytesRead st + payload (firstn n (map dropCR pending)) <= limit ->
     fits_scanner raw) ->
  0 <= bytesRead st -> 0 <= currentOffset st ->
  currentOffset st + span (map dropCR pending) <= max_int64 ->
  bytesRead st + payload (map dropCR pending) <= max_int64 ->
  exists j : nat,
    (j <= length pending)%nat /\
    scan_loop limit pending st =
      ({| messages := messages st ++
            build_messages (currentOffset st) (firstn j (map dropCR pending));
          currentOffset := currentOffset st + span (firstn j (map dropCR pending));
          bytesRead := bytesRead st + payload (firstn j (map dropCR pending)) |},
       None) /\
    ((j < length pending)%nat ->
       limit < bytesRead st + payload (firstn (S j) (map dropCR pending)) /\
       (0 < length (messages st) + j)%nat) /\
    (forall i : nat, (i < j)%nat ->
       limit < bytesRead st + payload (firstn (S i) (map dropCR pending)) ->
       (length (messages st) + i = 0)%nat).
Proof.
  revert st. induction pending as [|raw rest IH]; intros st Hfit Hbr Hco Hspan Hpay.
  - exists 0%nat. cbn. rewrite app_nil_r, !Z.add_0_r.
    split; [lia|]. split; [now destruct st|]. split; intros; lia.
  - assert (Hraw : fits_scanner raw) by (apply (Hfit 0%nat); [reflexivity | now left]).
    cbn [map span payload fold_right] in Hspan, Hpay.
    fold (span (map dropCR rest)) in Hspan. fold (payload (map dropCR rest)) in Hpay.
    pose proof (payload_nonneg (map dropCR rest)) as Hp0.
    pose proof (payload_le_span (map dropCR rest)) as Hps.
    rewrite max_int64_val in Hspan, Hpay.
    cbn [scan_loop]. unfold fits_scanner in Hraw.
    destruct (maxTokenSize <? Z.of_nat (length raw) + 1) eqn:E;
      [apply Z.ltb_lt in E; lia|].
    rewrite (wrap64_small (Z.of_nat (length (dropCR raw)) + 1))
      by int_lia.
    rewrite (wrap64_small (bytesRead st + Z.of_nat (length (dropCR raw))))
      by int_lia.
    rewrite (wrap64_small (currentOffset st + _))
      by int_lia.
    destruct ((limit <? bytesRead st + Z.of_nat (length (dropCR raw)))
              && (0 <? Z.of_nat (length (messages st)))) eqn:Estop.
    + apply andb_true_iff in Estop as [E1%Z.ltb_lt E2%Z.ltb_lt].
      exists 0%nat. rewrite span_firstn_0, payload_firstn_0.
      cbn [firstn build_messages]. rewrite app_nil_r, !Z.add_0_r.
      split; [lia|]. split; [now destruct st|]. split; [|intros; lia].
      intros _. cbn [map]. rewrite payload_firstn_cons, payload_firstn_0. lia.
    + edestruct (IH {| messages := messages st ++
                         [ {| Data := dropCR raw;
                              Offset := offsetFromInt
                                (currentOffset st + (Z.of_nat (length (dropCR raw)) + 1)) |} ];
                       currentOffset := currentOffset st + (Z.of_nat (length (dropCR raw)) + 1);
                       bytesRead := bytesRead st + Z.of_nat (length (dropCR raw)) |})
        as (j & Hj & Heq & Hstop & Hall); cbn [messages currentOffset bytesRead];
        [ | lia | lia | int_lia | int_lia |].
      { intros n raw' Hn Hreach. apply (Hfit (S n) raw' Hn). right.
        destruct Hreach as [->|[[_ Hnil]|Hb]].
        - apply andb_false_iff in Estop as [E1%Z.ltb_ge|E2%Z.ltb_ge].
          + right. cbn [map]. rewrite payload_firstn_cons, payload_firstn_0. lia.
          + left. split; [reflexivity|]. destruct (messages st); [reflexivity|].
            cbn [length] in E2. lia.
        - apply app_eq_nil in Hnil as [_ Hnil]. discriminate Hnil.
        - right. cbn [map]. rewrite payload_firstn_cons. lia. }
      cbn [messages currentOffset bytesRead] in *.
      exists (S j). split; [cbn [length]; lia|]. split; [|split].
      * rewrite Heq. cbn [map]. rewrite span_firstn_cons, payload_firstn_cons.
        change (firstn (S j) (dropCR raw :: map dropCR rest))
          with (dropCR raw :: firstn j (map dropCR rest)).
        rewrite build_messages_cons, <- app_assoc. cbn [app].
        rewrite !Z.add_assoc. reflexivity.
      * intros Hlt. cbn [length] in Hlt.
        destruct (Hstop ltac:(lia)) as [H1 H2].
        cbn [map]. rewrite payload_firstn_cons. split; lia.
      * intros i Hi Hlim. cbn [map] in Hlim. rewrite payload_firstn_cons in Hlim.
        destruct i as [|i].
        -- rewrite payload_firstn_0 in Hlim.
           apply andb_false_iff in Estop as [E1%Z.ltb_ge|E2%Z.ltb_ge]; lia.
        -- specialize (Hall i ltac:(lia)). rewrite length_app in Hall.
           cbn [length] in Hall. lia.
Qed.

Lemma scan_loop_spec (limit : Z) (pending : list (list byte)) (st : LoopState) :
  Forall fits_scanner pending ->
  0 <= bytesRead st -> 0 <= currentOffset st ->
  currentOffset st + span (map dropCR pending) <= max_int64 ->
  bytesRead st + payload (map dropCR pending) <= max_int64 ->
  exists j : nat,
    (j <= length pending)%nat /\
    scan_loop limit pending st =
      ({| messages := messages st ++
            build_messages (currentOffset st) (firstn j (map dropCR pending));
          currentOffset := currentOffset st + span (firstn j (map dropCR pending));
          bytesRead := bytesRead st + payload (firstn j (map dropCR pending)) |},
       None) /\
    ((j < length pending)%nat ->
       limit < bytesRead st + payload (firstn (S j) (map dropCR pending)) /\
       (0 < length (messages st) + j)%nat) /\
    (forall i : nat, (i < j)%nat ->
       limit < bytesRead st + payload (firstn (S i) (map dropCR pending)) ->
       (length (messages st) + i = 0)%nat).
Proof.
  intros Hfit. apply scan_loop_reached.
  intros n raw Hn _. exact (Forall_lookup_1 _ _ _ _ Hfit Hn).
Qed.

(** A loop that ends without an error has found every line it scanned
    to fit the scanner. *)
Lemma scan_loop_None_reached (limit : Z) (pending : list (list byte))
    (st st' : LoopState) :
  scan_loop limit pending st = (st', None) ->
  0 <= bytesRead st ->
  bytesRead st + payload (map dropCR pending) <= max_int64 ->
  forall (n : nat) (raw : list byte),
    pending !! n = Some raw ->
    n = 0%nat \/ (n = 1%nat /\ messages st = []) \/
      bytesRead st + payload (firstn n (map dropCR pending)) <= limit ->
    fits_scanner raw.
Proof.
  revert st. induction pending as [|raw0 rest IH]; intros st Heq Hbr Hpay n raw Hn Hreach.
  - discriminate Hn.
  - cbn [map payload fold_right] in Hpay. fold (payload (map dropCR rest)) in Hpay.
    pose proof (payload_nonneg (map dropCR rest)) as Hp0.
    rewrite max_int64_val in Hpay.
    cbn [scan_loop] in Heq.
    destruct (maxTokenSize <? Z.of_nat (length raw0) + 1) eqn:E; [discriminate Heq|].
    apply Z.ltb_ge in E.
    rewrite (wrap64_small (bytesRead st + Z.of_nat (length (dropCR raw0)))) in Heq
      by int_lia.
    destruct n as [|n].
    { injection Hn as <-. unfold fits_scanner. lia. }
    change ((raw0 :: rest) !! S n) with (rest !! n) in Hn.
    cbn [map] in Hreach. rewrite payload_firstn_cons in Hreach.
    pose proof (payload_nonneg (firstn n (map dropCR rest))) as Hpn.
    destruct ((limit <? bytesRead st + Z.of_nat (length (dropCR raw0)))
              && (0 <? Z.of_nat (length (messages st)))) eqn:Estop.
    + exfalso. apply andb_true_iff in Estop as [E1%Z.ltb_lt E2%Z.ltb_lt].
      destruct Hreach as [H|[[_ Hnil]|Hb]]; [discriminate H| |lia].
      rewrite Hnil in E2. cbn in E2. lia.
    + apply (IH _ Heq) with (n := n); cbn [bytesRead messages];
        [lia | int_lia | exact Hn |].
      destruct Hreach as [H|[[H1 _]|Hb]]; [discriminate H| left; lia |].
      right. right. lia.
Qed.

(** ** [Read] on a stream that resolves to a readable file *)

Lemma scanner_lines_bounds (content : list byte) (start : Z) :
  0 <= start <= max_int64 ->
  Z.of_nat (length content) < max_int64 ->
  start + span (scanner_lines (seek content start)) <= max_int64.
Proof.
  intros Hstart Hsize. unfold scanner_lines.
  destruct (Z_le_gt_dec (Z.of_nat (length content)) start) as [Hge|Hlt].
  - rewrite seek_past_end by exact Hge. simpl. lia.
  - pose proof (span_map_dropCR (raw_lines [] (seek content start))).
    pose proof (raw_lines_span [] (seek content start)) as Hs.
    rewrite seek_length in Hs by lia. simpl in Hs. lia.
Qed.

Lemma os_Open_file (w : World) (path : string) (content : list byte) :
  fs_files w !! path = Some content ->
  os_Open w path = Some (RegularFile content (fs_maxbytes w path)).
Proof. intros H. unfold os_Open. now rewrite H. Qed.

Lemma os_Stat_file (w : World) (path : string) (content : list byte) :
  fs_files w !! path = Some content ->
  os_Stat w path = Some (Z.of_nat (length content)).
Proof. intros H. unfold os_Stat. now rewrite H. Qed.

Lemma File_Seek_inside (content : list byte) (maxbytes pos : Z) :
  0 <= pos <= Z.of_nat (length content) ->
  File_Seek (RegularFile content maxbytes) pos = true.
Proof.
  intros H. unfold File_Seek. cbn [File_maxbytes File_Size].
  apply andb_true_iff. split; apply Z.leb_le; lia.
Qed.

Lemma File_Seek_negative (f : File) (pos : Z) : pos < 0 -> File_Seek f pos = false.
Proof.
  intros H. unfold File_Seek. apply andb_false_iff. left. apply Z.leb_gt. exact H.
Qed.

Lemma File_Seek_nonneg (f : File) (pos : Z) : File_Seek f pos = true -> 0 <= pos.
Proof.
  unfold File_Seek. intros H. apply andb_true_iff in H as [H _]. now apply Z.leb_le.
Qed.

Lemma File_Read_inside (content : list byte) (maxbytes pos : Z) :
  pos <= Z.of_nat (length content) ->
  File_Read (RegularFile content maxbytes) pos = Some (seek content pos).
Proof.
  intros H. cbn [File_Read].
  destruct (Z.of_nat (length content) <? pos) eqn:E; [apply Z.ltb_lt in E; lia|].
  reflexivity.
Qed.

(** A successful read of a regular file gives the bytes that follow the
    position. *)
Lemma File_Read_Some (content : list byte) (maxbytes pos : Z) (data : list byte) :
  File_Read (RegularFile content maxbytes) pos = Some data -> data = seek content pos.
Proof.
  cbn [File_Read]. destruct (_ && _); [discriminate|]. intros H. now injection H.
Qed.

(** [Read] once the stream has resolved to a readable file. *)
Lemma Read_unfold (w : World) (s s1 : ClaudeStorage) (streamID path offset : string)
    (limit : Z) (content : list byte) :
  getPath w s streamID = (s1, Ok path) ->
  fs_files w !! path = Some content ->
  Read w s streamID offset limit =
    let f := RegularFile content (fs_maxbytes w path) in
    if negb (File_Seek f (offsetToInt offset)) then (s1, Err ErrSeek)
    else
      match File_Read f (offsetToInt offset) with
      | None => (s1, Err ErrScan)
      | Some data =>
          let '(st, err) :=
            scan_loop limit (raw_lines [] data)
              {| messages := []; currentOffset := offsetToInt offset; bytesRead := 0 |} in
          match err with
          | Some e => (s1, Err e)
          | None =>
              (s1, Ok {| Messages := messages st;
                         NextOffset :=
                           if (Z.of_nat (length (messages st)) =? 0) then offset
                           else offsetFromInt (currentOffset st);
                         TailOffset := offsetFromInt (Z.of_nat (length content)) |})
          end
      end.
Proof.
  intros Hres Hfile. unfold Read. rewrite Hres, (os_Open_file w path content Hfile).
  reflexivity.
Qed.

(** What [Read] returns in terms of the lines of the scanner, when the
    seek and the first read are accepted and the lines the loop scans fit
    the scanner: [j] is the number of lines taken. *)
Lemma Read_accepted (w : World) (s s1 : ClaudeStorage) (streamID path offset : string)
    (limit : Z) (content : list byte) :
  getPath w s streamID = (s1, Ok path) ->
  fs_files w !! path = Some content ->
  File_Seek (RegularFile content (fs_maxbytes w path)) (offsetToInt offset) = true ->
  File_Read (RegularFile content (fs_maxbytes w path)) (offsetToInt offset)
    = Some (seek content (offsetToInt offset)) ->
  Z.of_nat (length content) < max_int64 ->
  let start := offsetToInt offset in
  let lines := scanner_lines (seek content start) in
  (forall (n : nat) (raw : list byte),
     raw_lines [] (seek content start) !! n = Some raw ->
     reached limit lines n -> fits_scanner raw) ->
  exists j : nat,
    (j <= length lines)%nat /\
    Read w s streamID offset limit =
      (s1, Ok {| Messages := build_messages start (firstn j lines);
                 NextOffset := if (j =? 0)%nat then offset
                               else offsetFromInt (start + span (firstn j lines));
                 TailOffset := offsetFromInt (Z.of_nat (length content)) |}) /\
    ((j < length lines)%nat ->
       limit < payload (firstn (S j) lines) /\ (1 <= j)%nat) /\
    (forall i : nat, (1 <= i < j)%nat -> payload (firstn (S i) lines) <= limit).
Proof.
  intros Hres Hfile Hseek Hread Hsize start lines Hfit.
  pose proof (File_Seek_nonneg _ _ Hseek) as Hstart. fold start in Hstart.
  pose proof (offsetToInt_range offset) as Hrange.
  pose proof (scanner_lines_bounds content start ltac:(unfold start; lia) Hsize) as Hb.
  fold lines in Hb.
  pose proof (payload_le_span lines) as Hps.
  destruct (scan_loop_reached limit (raw_lines [] (seek content start))
              {| messages := []; currentOffset := start; bytesRead := 0 |})
    as (j & Hj & Heq & Hstop & Hall); cbn [messages currentOffset bytesRead].
  { intros n raw Hn Hreach. apply (Hfit n raw Hn). unfold reached.
    destruct Hreach as [->|[[-> _]|Hr]]; [left; lia | left; lia | right].
    unfold lines, scanner_lines. lia. }
  { lia. } { exact Hstart. } { exact Hb. }
  { fold (scanner_lines (seek content start)). fold lines. unfold start in *. lia. }
  cbn [messages currentOffset bytesRead length] in *.
  fold (scanner_lines (seek content start)) in Heq, Hstop, Hall. fold lines in Heq, Hstop, Hall.
  exists j. split.
  { unfold lines, scanner_lines. now rewrite length_map. }
  split; [|split].
  - rewrite (Read_unfold w s s1 streamID path offset limit content Hres Hfile).
    cbv zeta. rewrite Hseek, Hread. cbn [negb]. fold start.
    rewrite Heq. cbn [messages currentOffset app].
    rewrite build_messages_length.
    assert (Hlen : length (firstn j lines) = j).
    { apply firstn_length_le. unfold lines, scanner_lines. now rewrite length_map. }
    rewrite Hlen. destruct j as [|j]; [reflexivity|].
    replace (Z.of_nat (S j) =? 0) with false by (symmetry; apply Z.eqb_neq; lia).
    reflexivity.
  - intros Hlt. unfold lines, scanner_lines in Hlt. rewrite length_map in Hlt.
    destruct (Hstop Hlt) as [H1 H2]. split; lia.
  - intros i Hi. destruct (Z_lt_le_dec limit (payload (firstn (S i) lines))) as [Hl|Hl];
      [|exact Hl].
    specialize (Hall i ltac:(lia) ltac:(lia)). lia.
Qed.

(** The same from a position inside the file, when every line that
    follows fits the scanner. *)
Lemma Read_spec (w : World) (s s1 : ClaudeStorage) (streamID path offset : string)
    (limit : Z) (content : list byte) :
  getPath w s streamID = (s1, Ok path) ->
  fs_files w !! path = Some content ->
  0 <= offsetToInt offset <= Z.of_nat (length content) ->
  Z.of_nat (length content) < max_int64 ->
  Forall fits_scanner (raw_lines [] (seek content (offsetToInt offset))) ->
  let start := offsetToInt offset in
  let lines := scanner_lines (seek content start) in
  exists j : nat,
    (j <= length lines)%nat /\
    Read w s streamID offset limit =
      (s1, Ok {| Messages := build_messages start (firstn j lines);
                 NextOffset := if (j =? 0)%nat then offset
                               else offsetFromInt (start + span (firstn j lines));
                 TailOffset := offsetFromInt (Z.of_nat (length content)) |}) /\
    ((j < length lines)%nat ->
       limit < payload (firstn (S j) lines) /\ (1 <= j)%nat) /\
    (forall i : nat, (1 <= i < j)%nat -> payload (firstn (S i) lines) <= limit).
Proof.
  intros Hres Hfile Hstart Hsize Hfit.
  apply (Read_accepted w s s1 streamID path offset limit content Hres Hfile).
  - now apply File_Seek_inside.
  - apply File_Read_inside. lia.
  - exact Hsize.
  - intros n raw Hn _. exact (Forall_lookup_1 _ _ _ _ Hfit Hn).
Qed.

(** What a successful [Read] has done: the seek and the first read were
    accepted, every line the loop scanned fits the scanner, and the
    result is made of the first [j] lines that follow the position. *)
Lemma Read_Ok_inv (w : World) (s s1 s2 : ClaudeStorage) (streamID path offset : string)
    (limit : Z) (content : list byte) (r : ReadResult) :
  getPath w s streamID = (s1, Ok path) ->
  fs_files w !! path = Some content ->
  Z.of_nat (length content) < max_int64 ->
  Read w s streamID offset limit = (s2, Ok r) ->
  let start := offsetToInt offset in
  let lines := scanner_lines (seek content start) in
  File_Seek (RegularFile content (fs_maxbytes w path)) start = true /\
  File_Read (RegularFile content (fs_maxbytes w path)) start = Some (seek content start) /\
  (forall (n : nat) (raw : list byte),
     raw_lines [] (seek content start) !! n = Some raw ->
     reached limit lines n -> fits_scanner raw) /\
  exists j : nat,
    (j <= length lines)%nat /\
    (s2, Ok r) =
      (s1, Ok {| Messages := build_messages start (firstn j lines);
                 NextOffset := if (j =? 0)%nat then offset
                               else offsetFromInt (start + span (firstn j lines));
                 TailOffset := offsetFromInt (Z.of_nat (length content)) |}) /\
    ((j < length lines)%nat ->
       limit < payload (firstn (S j) lines) /\ (1 <= j)%nat) /\
    (forall i : nat, (1 <= i < j)%nat -> payload (firstn (S i) lines) <= limit).
Proof.
  intros Hres Hfile Hsize HOk start lines.
  pose proof HOk as HOk'.
  rewrite (Read_unfold w s s1 streamID path offset limit content Hres Hfile) in HOk'.
  cbv zeta in HOk'. fold start in HOk'.
  destruct (File_Seek (RegularFile content (fs_maxbytes w path)) start) eqn:Hseek;
    [|discriminate HOk'].
  cbn [negb] in HOk'.
  destruct (File_Read (RegularFile content (fs_maxbytes w path)) start) as [data|] eqn:Hread;
    [|discriminate HOk'].
  pose proof (File_Read_Some _ _ _ _ Hread) as ->.
  destruct (scan_loop limit (raw_lines [] (seek content start)) _) as [st [e|]] eqn:Hloop;
    [discriminate HOk'|]. clear HOk'.
  pose proof (File_Seek_nonneg _ _ Hseek) as Hstart.
  pose proof (offsetToInt_range offset) as Hrange. fold start in Hrange.
  pose proof (scanner_lines_bounds content start ltac:(lia) Hsize) as Hb.
  fold lines in Hb.
  pose proof (payload_le_span lines) as Hps.
  assert (Hfit : forall (n : nat) (raw : list byte),
            raw_lines [] (seek content start) !! n = Some raw ->
            reached limit lines n -> fits_scanner raw).
  { intros n raw Hn Hreach.
    apply (scan_loop_None_reached _ _ _ _ Hloop) with (n := n);
      cbn [bytesRead messages]; [lia | | exact Hn |].
    - fold (scanner_lines (seek content start)). fold lines. lia.
    - destruct Hreach as [H1|Hr].
      + destruct n as [|[|n]]; [now left | right; left; now split | lia].
      + right. right. fold (scanner_lines (seek content start)). fold lines. lia. }
  split; [reflexivity|]. split; [reflexivity|]. split; [exact Hfit|].
  destruct (Read_accepted w s s1 streamID path offset limit content
              Hres Hfile Hseek Hread Hsize Hfit) as (j & Hj & Heq & Hstop & Hall).
  exists j. split; [exact Hj|]. split; [|split; assumption].
  rewrite <- HOk. exact Heq.
Qed.

Lemma getPath_indexed (w : World) (s : ClaudeStorage) (streamID path : string) :
  fileIndex s !! TrimPrefix streamID "/" = Some path ->
  getPath w s streamID = (s, Ok path).
Proof. intros H. unfold getPath. now rewrite H. Qed.


(** The number of lines taken under a budget that holds [k] lines
    but not [k + 1]. *)
Lemma taken_count (lines : list (list byte)) (limit : Z) (j k : nat) :
  ((j < length lines)%nat ->
     limit < payload (firstn (S j) lines) /\ (1 <= j)%nat) ->
  (forall i : nat, (1 <= i < j)%nat -> payload (firstn (S i) lines) <= limit) ->
  (1 <= k < length lines)%nat ->
  payload (firstn k lines) <= limit < payload (firstn (S k) lines) ->
  j = k.
Proof.
  intros Hstop Hall Hk [Hk1 Hk2].
  destruct (Nat.lt_trichotomy j k) as [Hlt|[Heqk|Hgt]]; [|exact Heqk|].
  - destruct Hstop as [H1 _]; [lia|].
    pose proof (payload_firstn_mono lines (S j) k ltac:(lia)). lia.
  - specialize (Hall k ltac:(lia)). lia.
Qed.






(** ** Files of newline-terminated records *)

Lemma raw_lines_record (cur r rest : list byte) :
  Forall (fun b => b <> newline) r ->
  raw_lines cur (r ++ newline :: rest) = (rev cur ++ r) :: raw_lines [] rest.
Proof.
  revert cur. induction r as [|b r IH]; intros cur Hr.
  - cbn [app raw_lines]. rewrite app_nil_r. reflexivity.
  - apply Forall_cons in Hr as [Hb Hr]. cbn [app raw_lines].
    destruct (Byte.eqb b newline) eqn:E.
    { apply Byte.byte_dec_bl in E. contradiction. }
    rewrite IH by exact Hr. cbn [rev]. now rewrite <- app_assoc.
Qed.

Lemma raw_lines_file_of_records (records : list (list byte)) :
  Forall (Forall (fun b => b <> newline)) records ->
  raw_lines [] (file_of_records records) = records.
Proof.
  induction records as [|r records IH]; intros H; [reflexivity|].
  apply Forall_cons in H as [Hr H]. unfold file_of_records in *.
  cbn [map concat]. rewrite <- app_assoc. cbn [app].
  rewrite raw_lines_record by exact Hr. cbn [rev app]. now rewrite IH.
Qed.

Lemma file_of_records_length (records : list (list byte)) :
  Z.of_nat (length (file_of_records records)) = span records.
Proof.
  induction records as [|r records IH]; [reflexivity|].
  unfold file_of_records in *. cbn [map concat span fold_right].
  rewrite !length_app. cbn [length]. fold (span records). lia.
Qed.

Lemma scanner_lines_file_of_records (records : list (list byte)) :
  Forall (Forall (fun b => b <> newline)) records ->
  Forall (fun r => last r <> Some carriage_return) records ->
  scanner_lines (file_of_records records) = records.
Proof.
  intros Hnl Hcr. unfold scanner_lines.
  rewrite raw_lines_file_of_records by exact Hnl. clear Hnl.
  induction Hcr as [|r records Hr _ IH]; [reflexivity|].
  cbn [map]. now rewrite dropCR_no_CR, IH.
Qed.

(** On a file of records that hold no newline and do not end in a
    carriage return, a read from the start with budget enough returns
    every record, each with the position just after its newline, and the
    next offset is the encoded size of the file. *)
Lemma Read_all_records (w : World) (s s1 : ClaudeStorage)
    (streamID path offset : string) (limit : Z) (records : list (list byte)) :
  getPath w s streamID = (s1, Ok path) ->
  fs_files w !! path = Some (file_of_records records) ->
  offsetToInt offset = 0 ->
  records <> [] ->
  Forall (Forall (fun b => b <> newline)) records ->
  Forall (fun r => last r <> Some carriage_return) records ->
  Forall fits_scanner records ->
  span records < max_int64 ->
  payload records <= limit ->
  exists r : ReadResult,
    Read w s streamID offset limit = (s1, Ok r) /\
    map Data (Messages r) = records /\
    (forall i m, Messages r !! i = Some m ->
       Offset m = offsetFromInt (end_of_record records i)) /\
    NextOffset r = offsetFromInt (Z.of_nat (length (file_of_records records))) /\
    TailOffset r = offsetFromInt (Z.of_nat (length (file_of_records records))).
Proof.
  intros Hres Hfile Hoff Hne Hnl Hcr Hfit Hsize Hlim.
  destruct (Read_spec w s s1 streamID path offset limit (file_of_records records)
              Hres Hfile) as (j & Hj & Heq & Hstop & _).
  { lia. }
  { now rewrite file_of_records_length. }
  { rewrite Hoff, seek_0, raw_lines_file_of_records by exact Hnl. exact Hfit. }
  rewrite Hoff, seek_0, scanner_lines_file_of_records in * by assumption.
  assert (Hjn : j = length records).
  { destruct (Nat.eq_dec j (length records)) as [E|E]; [exact E|].
    destruct Hstop as [H1 _]; [lia|].
    pose proof (payload_firstn_le records (S j)). lia. }
  subst j. rewrite firstn_all in Heq.
  eexists. split; [exact Heq|]. cbn [Messages NextOffset TailOffset].
  split; [apply build_messages_Data|]. split; [|split; [|reflexivity]].
  - intros i m Hm.
    destruct (records !! i) as [l|] eqn:Hl.
    + rewrite (build_messages_lookup _ _ _ _ Hl) in Hm. injection Hm as <-.
      cbn [Offset]. unfold end_of_record. now rewrite Z.add_0_l.
    + apply lookup_ge_None in Hl. apply lookup_lt_Some in Hm.
      rewrite build_messages_length in Hm. lia.
  - destruct records as [|r0 records]; [contradiction|]. cbn [length Nat.eqb].
    now rewrite file_of_records_length, Z.add_0_l.
Qed.

(** On such a file a budget that holds [k >= 1] records but not
    [k + 1] gives the first [k] records, and the next offset is the
    position just after record [k]. *)
Lemma Read_k_records (w : World) (s s1 : ClaudeStorage)
    (streamID path offset : string) (limit : Z) (records : list (list byte))
    (k : nat) :
  getPath w s streamID = (s1, Ok path) ->
  fs_files w !! path = Some (file_of_records records) ->
  offsetToInt offset = 0 ->
  Forall (Forall (fun b => b <> newline)) records ->
  Forall (fun r => last r <> Some carriage_return) records ->
  Forall fits_scanner records ->
  span records < max_int64 ->
  (1 <= k < length records)%nat ->
  payload (firstn k records) <= limit < payload (firstn (S k) records) ->
  exists r : ReadResult,
    Read w s streamID offset limit = (s1, Ok r) /\
    map Data (Messages r) = firstn k records /\
    NextOffset r = offsetFromInt (end_of_record records (k - 1)).
Proof.
  intros Hres Hfile Hoff Hnl Hcr Hfit Hsize Hk Hbudget.
  destruct (Read_spec w s s1 streamID path offset limit (file_of_records records)
              Hres Hfile) as (j & Hj & Heq & Hstop & Hall).
  { lia. }
  { now rewrite file_of_records_length. }
  { rewrite Hoff, seek_0, raw_lines_file_of_records by exact Hnl. exact Hfit. }
  rewrite Hoff, seek_0, scanner_lines_file_of_records in * by assumption.
  assert (Hjk : j = k) by exact (taken_count records limit j k Hstop Hall Hk Hbudget).
  subst j. eexists. split; [exact Heq|]. cbn [Messages NextOffset].
  split; [apply build_messages_Data|].
  destruct k as [|k]; [lia|]. cbn [Nat.eqb]. unfold end_of_record.
  replace (S k - 1)%nat with k by lia. now rewrite Z.add_0_l.
Qed.

(** C5 fails on a file whose line ends in a carriage return and a
    newline: on the three bytes ["a\r\n"] the one message and the next
    offset carry position 2, while the newline ends at position 3, the
    size of the file. *)
Theorem Read_crlf_offset_short :
  exists r : ReadResult,
    Read sample_world sample_storage "crlf" (offsetFromInt 0) 1024
      = (sample_storage, Ok r) /\
    fs_files sample_world !! "/c/projects/p/a/crlf.jsonl" = Some crlf_content /\
    Z.of_nat (length crlf_content) = 3 /\
    map Data (Messages r) = [[x61]] /\
    map Offset (Messages r) = [offsetFromInt 2] /\
    NextOffset r = offsetFromInt 2 /\
    TailOffset r = offsetFromInt 3 /\
    offsetFromInt 2 <> offsetFromInt 3.
Proof.
  eexists. split.
  - rewrite (Read_unfold sample_world sample_storage sample_storage "crlf"
               "/c/projects/p/a/crlf.jsonl" (offsetFromInt 0) 1024 crlf_content
               (getPath_indexed sample_world sample_storage "crlf"
                  "/c/projects/p/a/crlf.jsonl" eq_refl) eq_refl).
    cbv zeta. rewrite offsetToInt_encoded_0. reflexivity.
  - repeat split; try reflexivity. discriminate.
Qed.

(* ===================================================================== *)
(** * Resolution of stream identifiers *)
(* ===================================================================== *)

Lemma getPath_fn_miss (streamID : string) (e : DirEntry) (found : string) :
  walk_hit streamID e = false ->
  getPath_fn streamID e found = (found, WalkContinue).
Proof.
  unfold walk_hit, getPath_fn. intros H.
  destruct (entry_err e); [reflexivity|].
  destruct (entry_isDir e); [reflexivity|].
  cbn [negb andb orb] in *. now rewrite H.
Qed.

Lemma getPath_fn_hit (streamID : string) (e : DirEntry) (found : string) :
  walk_hit streamID e = true ->
  getPath_fn streamID e found = (entry_path e, WalkSkipAll).
Proof.
  unfold walk_hit, getPath_fn. intros H.
  destruct (entry_err e); [discriminate|].
  destruct (entry_isDir e); [discriminate|].
  cbn [negb andb orb] in *. now rewrite H.
Qed.

(** The walk stops at the first hit: what comes after it plays no part. *)
Lemma WalkDir_first_hit (streamID : string) (pre post : list DirEntry)
    (e : DirEntry) (found : string) :
  Forall (fun x => walk_hit streamID x = false) pre ->
  walk_hit streamID e = true ->
  WalkDir (pre ++ e :: post) (getPath_fn streamID) found = entry_path e.
Proof.
  intros Hpre He. induction Hpre as [|x pre Hx _ IH].
  - cbn [app WalkDir]. now rewrite getPath_fn_hit.
  - cbn [app WalkDir]. now rewrite getPath_fn_miss.
Qed.

Lemma WalkDir_no_hit (streamID : string) (visits : list DirEntry) (found : string) :
  Forall (fun x => walk_hit streamID x = false) visits ->
  WalkDir visits (getPath_fn streamID) found = found.
Proof.
  intros H. induction H as [|x visits Hx _ IH]; [reflexivity|].
  cbn [WalkDir]. now rewrite getPath_fn_miss.
Qed.

Lemma Base_empty : Base EmptyString = ".".
Proof. reflexivity. Qed.

Lemma walk_hit_path_nonempty (streamID : string) (e : DirEntry) :
  walk_hit streamID e = true -> String.eqb (entry_path e) EmptyString = false.
Proof.
  unfold walk_hit. intros H.
  apply andb_true_iff in H as [_ H]. apply String.eqb_eq in H.
  apply String.eqb_neq. intros Hp. rewrite Hp, Base_empty in H.
  apply (f_equal String.length) in H. rewrite append_length in H.
  cbn in H. lia.
Qed.

Lemma glob_misses_spec (w : World) (s : ClaudeStorage) (streamID : string) :
  glob_misses w s streamID ->
  (let '(matches, err) :=
     fs_glob w (Join [projectsDir s; "**"; streamID +:+ jsonl]) in
   if err then [] else matches) = [].
Proof.
  unfold glob_misses. destruct (fs_glob w _) as [ms err].
  intros [->| ->]; [reflexivity|]. now destruct err.
Qed.

Lemma getPath_unfold_miss (w : World) (s : ClaudeStorage) (streamID : string) :
  fileIndex s !! TrimPrefix streamID "/" = None ->
  glob_misses w s (TrimPrefix streamID "/") ->
  getPath w s streamID =
    let id := TrimPrefix streamID "/" in
    let found := WalkDir (fs_walk w (projectsDir s)) (getPath_fn id) EmptyString in
    if negb (String.eqb found EmptyString)
    then (set_fileIndex (<[id := found]> (fileIndex s)) s, Ok found)
    else (s, Err ErrStreamNotFound).
Proof.
  intros Hix Hglob. apply glob_misses_spec in Hglob.
  unfold getPath. rewrite Hix.
  destruct (fs_glob w _) as [ms err]. now rewrite Hglob.
Qed.

(** C8: an identifier that is not in the index and that the shallow
    pattern does not match, but whose file the walk of the projects
    directory comes across, resolves: [getPath] returns the path of the
    first such visit, whatever the walk would list after it, and the
    index maps the identifier to that path afterwards. *)
Theorem getPath_fallback_walk (w : World) (s : ClaudeStorage) (streamID : string)
    (pre post : list DirEntry) (e : DirEntry) :
  let id := TrimPrefix streamID "/" in
  fileIndex s !! id = None ->
  glob_misses w s id ->
  fs_walk w (projectsDir s) = pre ++ e :: post ->
  Forall (fun x => walk_hit id x = false) pre ->
  walk_hit id e = true ->
  exists s' : ClaudeStorage,
    getPath w s streamID = (s', Ok (entry_path e)) /\
    fileIndex s' = <[id := entry_path e]> (fileIndex s) /\
    fileIndex s' !! id = Some (entry_path e) /\
    subscribers s' = subscribers s /\ chans s' = chans s.
Proof.
  intros id Hix Hglob Hwalk Hpre He.
  rewrite (getPath_unfold_miss w s streamID Hix Hglob). fold id. cbv zeta.
  rewrite Hwalk, (WalkDir_first_hit id pre post e _ Hpre He).
  rewrite (walk_hit_path_nonempty id e He). cbn [negb].
  eexists. split; [reflexivity|]. cbn [set_fileIndex fileIndex subscribers chans].
  split; [reflexivity|]. split; [apply lookup_insert_eq|]. split; reflexivity.
Qed.

Lemma getPath_not_found (w : World) (s : ClaudeStorage) (streamID : string) :
  let id := TrimPrefix streamID "/" in
  fileIndex s !! id = None ->
  glob_misses w s id ->
  Forall (fun x => walk_hit id x = false) (fs_walk w (projectsDir s)) ->
  getPath w s streamID = (s, Err ErrStreamNotFound).
Proof.
  intros id Hix Hglob Hwalk.
  rewrite (getPath_unfold_miss w s streamID Hix Hglob). fold id. cbv zeta.
  now rewrite (WalkDir_no_hit id _ _ Hwalk).
Qed.

(** A failed resolution reports [ErrStreamNotFound] and leaves the
    storage as it was. *)
Lemma getPath_Err (w : World) (s s' : ClaudeStorage) (streamID : string) (e : error) :
  getPath w s streamID = (s', Err e) -> s' = s /\ e = ErrStreamNotFound.
Proof.
  unfold getPath. destruct (fileIndex s !! _); [discriminate|].
  destruct (fs_glob w _) as [ms err].
  destruct (if err then [] else ms); [|discriminate].
  destruct (negb _); [discriminate|].
  intros H. injection H as <- <-. split; reflexivity.
Qed.

Lemma not_resolves_Err (w : World) (s : ClaudeStorage) (streamID : string) :
  ~ resolves w s streamID -> getPath w s streamID = (s, Err ErrStreamNotFound).
Proof.
  intros H. destruct (getPath w s streamID) as [s' [path|e]] eqn:E.
  - exfalso. apply H. now exists s', path.
  - apply getPath_Err in E as [-> ->]. reflexivity.
Qed.


(* ===================================================================== *)
(** * The mutating calls *)
(* ===================================================================== *)

Lemma System_eta (sys : System) :
  {| sys_world := sys_world sys; sys_storage := sys_storage sys |} = sys.
Proof. now destruct sys. Qed.

(** C7: [Create], [Append], [AppendFrom] and [Delete] return
    [ErrReadOnly] for every stream identifier, and the step they make
    leaves the whole system (the files, the file index, the subscriber
    registry and the channels) as it was. *)
Theorem mutating_calls_read_only (sys : System) (streamID seq : string)
    (cfg : StreamConfig) (data r : list byte) :
  (snd (Create (sys_storage sys) streamID cfg) = (false, Some ErrReadOnly) /\
   step (StepCreate streamID cfg) sys = sys) /\
  (snd (Append (sys_storage sys) streamID data seq) = (ZeroOffset, Some ErrReadOnly) /\
   step (StepAppend streamID data seq) sys = sys) /\
  (snd (AppendFrom (sys_storage sys) streamID r seq) = (ZeroOffset, Some ErrReadOnly) /\
   step (StepAppendFrom streamID r seq) sys = sys) /\
  (snd (Delete (sys_storage sys) streamID) = Some ErrReadOnly /\
   step (StepDelete streamID) sys = sys).
Proof.
  repeat split; try reflexivity; cbn [step Create Append AppendFrom Delete fst];
    apply System_eta.
Qed.

(* ===================================================================== *)
(** * The file index only grows *)
(* ===================================================================== *)

Lemma index_le_refl (s : ClaudeStorage) : index_le s s.
Proof. unfold index_le. set_solver. Qed.

Lemma index_le_trans (s1 s2 s3 : ClaudeStorage) :
  index_le s1 s2 -> index_le s2 s3 -> index_le s1 s3.
Proof. unfold index_le. set_solver. Qed.

Lemma index_le_insert (s : ClaudeStorage) (id path : string) :
  index_le s (set_fileIndex (<[id := path]> (fileIndex s)) s).
Proof. unfold index_le. cbn [set_fileIndex fileIndex]. rewrite dom_insert_L. set_solver. Qed.

Lemma index_le_same (s s' : ClaudeStorage) :
  fileIndex s' = fileIndex s -> index_le s s'.
Proof. unfold index_le. intros ->. set_solver. Qed.

Create HintDb index_db.
#[local] Hint Resolve index_le_refl index_le_insert : index_db.

Lemma indexFiles_fn_index_le (e : DirEntry) (s : ClaudeStorage) :
  index_le s (fst (indexFiles_fn e s)).
Proof.
  unfold indexFiles_fn.
  destruct (entry_err e); [apply index_le_refl|].
  destruct (entry_isDir e); [now apply index_le_same|].
  destruct (HasSuffix _ _); cbn [fst]; auto with index_db.
Qed.

Lemma indexFiles_fn_continues (e : DirEntry) (s : ClaudeStorage) :
  snd (indexFiles_fn e s) = WalkContinue.
Proof.
  unfold indexFiles_fn.
  destruct (entry_err e); [reflexivity|].
  destruct (entry_isDir e); [reflexivity|].
  destruct (HasSuffix _ _); reflexivity.
Qed.

Lemma WalkDir_indexFiles_index_le (visits : list DirEntry) (s : ClaudeStorage) :
  index_le s (WalkDir visits indexFiles_fn s).
Proof.
  revert s. induction visits as [|e visits IH]; intros s; [apply index_le_refl|].
  cbn [WalkDir]. pose proof (indexFiles_fn_index_le e s) as H1.
  pose proof (indexFiles_fn_continues e s) as H2.
  destruct (indexFiles_fn e s) as [s' act]. cbn [fst snd] in *. subst act.
  eapply index_le_trans; [exact H1 | apply IH].
Qed.

Lemma indexFiles_index_le (w : World) (s : ClaudeStorage) :
  index_le s (indexFiles w s).
Proof.
  unfold indexFiles.
  generalize (fs_walk w (projectsDir s)). intros visits.
  apply WalkDir_indexFiles_index_le.
Qed.

(** The well-known stream is in the index from the start. *)
Lemma NewClaudeStorage_history (w : World) (dir : string) :
  is_Some (fileIndex (NewClaudeStorage w dir) !! "_history").
Proof.
  unfold NewClaudeStorage. apply elem_of_dom.
  apply (indexFiles_index_le w). cbn [fileIndex].
  apply elem_of_dom. rewrite lookup_singleton_eq. eauto.
Qed.

Lemma getPath_index_le (w : World) (s : ClaudeStorage) (streamID : string) :
  index_le s (fst (getPath w s streamID)).
Proof.
  unfold getPath. destruct (fileIndex s !! _); [apply index_le_refl|].
  destruct (fs_glob w _) as [ms err].
  destruct (if err then [] else ms); [|cbn [fst]; auto with index_db].
  destruct (negb _); cbn [fst]; auto with index_db.
Qed.

Lemma Head_storage (w : World) (s : ClaudeStorage) (streamID : string) :
  fst (Head w s streamID) = fst (getPath w s streamID).
Proof.
  unfold Head. destruct (getPath w s streamID) as [s1 [path|e]]; [|reflexivity].
  destruct (os_Stat w path); reflexivity.
Qed.

Lemma Read_storage (w : World) (s : ClaudeStorage) (streamID offset : string) (limit : Z) :
  fst (Read w s streamID offset limit) = fst (getPath w s streamID).
Proof.
  unfold Read. destruct (getPath w s streamID) as [s1 [path|e]]; [|reflexivity].
  destruct (os_Open w path) as [f|]; [|reflexivity].
  destruct (negb (File_Seek f (offsetToInt offset))); [reflexivity|].
  destruct (File_Read f (offsetToInt offset)) as [data|]; [|reflexivity].
  destruct (scan_loop _ _ _) as [st [e|]]; reflexivity.
Qed.

Lemma Subscribe_fileIndex (w : World) (s : ClaudeStorage) (streamID offset : string) :
  fileIndex (fst (Subscribe w s streamID offset)) =
  fileIndex (fst (getPath w s (TrimPrefix streamID "/"))).
Proof.
  unfold Subscribe. destruct (getPath w s _) as [s1 [path|e]]; reflexivity.
Qed.

Lemma cancel_fileIndex (s : ClaudeStorage) (streamID : string) (ch : nat) :
  fileIndex (cancel s streamID ch) = fileIndex s.
Proof.
  unfold cancel. destruct (existsb _ _); cbn [set_subscribers chans];
    destruct (chans s !! ch); reflexivity.
Qed.

Lemma fileIndex_set_chans (cs : gmap nat Chan) (s : ClaudeStorage) :
  fileIndex (set_chans cs s) = fileIndex s.
Proof. reflexivity. Qed.

Lemma fileIndex_set_fileIndex (ix : gmap string string) (s : ClaudeStorage) :
  fileIndex (set_fileIndex ix s) = ix.
Proof. reflexivity. Qed.

Lemma handleEvent_index_le (w : World) (ev : Event) (s : ClaudeStorage) :
  index_le s (handleEvent w ev s).
Proof.
  unfold handleEvent. destruct (negb _); [|auto with index_db].
  destruct (HasSuffix _ _); [|auto with index_db].
  destruct (String.eqb _ _); unfold index_le; rewrite fileIndex_set_chans;
    [set_solver|].
  rewrite fileIndex_set_fileIndex, dom_insert_L. set_solver.
Qed.

(** A turn of the watch loop touches at most the entry of the
    identifier of its event. *)
Lemma handleEvent_frame (w : World) (ev : Event) (s : ClaudeStorage) (k : string) :
  k <> TrimSuffix (Base (ev_Name ev)) jsonl ->
  fileIndex (handleEvent w ev s) !! k = fileIndex s !! k.
Proof.
  intros Hk. unfold handleEvent. destruct (negb _); [|reflexivity].
  destruct (HasSuffix _ _); [|reflexivity].
  destruct (String.eqb _ _); rewrite fileIndex_set_chans; [reflexivity|].
  rewrite fileIndex_set_fileIndex. now rewrite lookup_insert_ne.
Qed.

(** A resolution touches at most the entry of its identifier. *)
Lemma getPath_frame (w : World) (s : ClaudeStorage) (streamID k : string) :
  k <> TrimPrefix streamID "/" ->
  fileIndex (fst (getPath w s streamID)) !! k = fileIndex s !! k.
Proof.
  intros Hk. unfold getPath. destruct (fileIndex s !! TrimPrefix _ _); [reflexivity|].
  destruct (fs_glob w _) as [ms err].
  destruct (if err then [] else ms);
    [destruct (negb _)|]; cbn [fst set_fileIndex fileIndex];
    try reflexivity; now rewrite lookup_insert_ne.
Qed.

Lemma step_index_le (st : Step) (sys : System) :
  index_le (sys_storage sys) (sys_storage (step st sys)).
Proof.
  destruct st; cbn [step sys_storage Create Append AppendFrom Delete fst];
    try apply index_le_refl.
  - apply indexFiles_index_le.
  - apply handleEvent_index_le.
  - apply getPath_index_le.
  - rewrite Head_storage. apply getPath_index_le.
  - rewrite Read_storage. apply getPath_index_le.
  - unfold index_le. rewrite Subscribe_fileIndex. apply getPath_index_le.
  - apply index_le_same, cancel_fileIndex.
Qed.

Lemma run_index_le (steps : list Step) (sys : System) :
  index_le (sys_storage sys) (sys_storage (run steps sys)).
Proof.
  revert sys. induction steps as [|st steps IH]; intros sys; [apply index_le_refl|].
  cbn [run fold_left]. eapply index_le_trans; [apply step_index_le|].
  apply (IH (step st sys)).
Qed.

(** C9: the index gives one path at most for an identifier, and over
    any run of steps (the scan of the tree, turns of the watch loop,
    resolutions, reads, subscriptions and their cancellation, mutating
    calls, changes of the files from outside) every identifier in the
    index stays in it.  A resolution and a turn of the watch loop leave
    the entries of all other identifiers as they were: they can only set
    the path of their own identifier. *)
Theorem fileIndex_never_shrinks (steps : list Step) (sys : System) :
  (forall (id p1 p2 : string),
     fileIndex (sys_storage sys) !! id = Some p1 /\
     fileIndex (sys_storage sys) !! id = Some p2 -> p1 = p2) /\
  dom (fileIndex (sys_storage sys)) ⊆ dom (fileIndex (sys_storage (run steps sys))) /\
  (forall id : string,
     is_Some (fileIndex (sys_storage sys) !! id) ->
     is_Some (fileIndex (sys_storage (run steps sys)) !! id)) /\
  (forall (streamID k : string),
     k <> TrimPrefix streamID "/" ->
     fileIndex (sys_storage (step (StepGetPath streamID) sys)) !! k =
     fileIndex (sys_storage sys) !! k) /\
  (forall (ev : Event) (k : string),
     k <> TrimSuffix (Base (ev_Name ev)) jsonl ->
     fileIndex (sys_storage (step (StepWatchEvent ev) sys)) !! k =
     fileIndex (sys_storage sys) !! k).
Proof.
  pose proof (run_index_le steps sys) as Hrun. unfold index_le in Hrun.
  split; [intros id p1 p2 [H1 H2]; congruence|].
  split; [exact Hrun|]. split; [|split].
  - intros id Hid. apply elem_of_dom. apply Hrun. now apply elem_of_dom.
  - intros streamID k Hk. cbn [step sys_storage]. now apply getPath_frame.
  - intros ev k Hk. cbn [step sys_storage]. now apply handleEvent_frame.
Qed.

(* ===================================================================== *)
(** * More on the offset codec *)
(* ===================================================================== *)

Lemma string_compare_refl (s : string) : String.compare s s = Eq.
Proof.
  induction s as [|c s IH]; [reflexivity|]. now rewrite string_compare_cons.
Qed.

Lemma offsetFromInt_compare_Z (a b : Z) :
  0 <= a <= max_int64 -> 0 <= b <= max_int64 ->
  String.compare (offsetFromInt a) (offsetFromInt b) = (a ?= b).
Proof.
  intros Ha Hb. pose proof pow10_20_gt_max_int64 as Hpow.
  rewrite !offsetFromInt_fixed by lia.
  destruct (Z.compare_spec a b) as [->|Hlt|Hgt].
  - apply string_compare_refl.
  - apply fixed_digits_compare; [change (Z.of_nat 20) with 20; lia ..|]. now left.
  - rewrite String.compare_antisym.
    rewrite fixed_digits_compare; [reflexivity | change (Z.of_nat 20) with 20; lia ..|].
    now left.
Qed.

(** X1: on byte positions the order of the encodings as strings is the
    order of the positions, in all three cases; so different positions
    have different encodings. *)
Theorem offsetFromInt_order_embedding (a b : Z) :
  0 <= a <= max_int64 -> 0 <= b <= max_int64 ->
  String.compare (offsetFromInt a) (offsetFromInt b) = (a ?= b) /\
  (offsetFromInt a = offsetFromInt b -> a = b).
Proof.
  intros Ha Hb. split; [now apply offsetFromInt_compare_Z|].
  intros Heq. apply Z.compare_eq.
  rewrite <- (offsetFromInt_compare_Z a b Ha Hb), Heq. apply string_compare_refl.
Qed.

(** X2: a token made of decimal digits only (the empty token
    included), other than the "from the beginning" token, decodes to the
    number it writes, whatever its width, and to [2^63 - 1] when that
    number is larger. *)
Theorem offsetToInt_decimal (o : string) :
  all_digits o = true -> o <> ZeroOffset ->
  offsetToInt o = Z.min (decimal_value o) max_int64.
Proof.
  intros Hs Hz. unfold offsetToInt.
  destruct (String.eqb o ZeroOffset) eqn:E1; [apply String.eqb_eq in E1; contradiction|].
  destruct (String.eqb o "-1") eqn:E2.
  { apply String.eqb_eq in E2. subst o. discriminate. }
  cbn [orb]. rewrite ParseInt_digits by now apply all_digits_TrimLeft0.
  now rewrite decimal_value_TrimLeft0.
Qed.

(* ===================================================================== *)
(** * Paths and stream identifiers *)
(* ===================================================================== *)

Lemma substring_0_length (s : string) : String.substring 0 (String.length s) s = s.
Proof. induction s as [|c s IH]; [reflexivity|]. cbn. now rewrite IH. Qed.

Lemma substring_0_append (x y : string) :
  String.substring 0 (String.length x) (x +:+ y) = x.
Proof.
  induction x as [|c x IH]; [apply substring_0_0|].
  rewrite append_cons. cbn [String.length]. rewrite substring_0_cons. now rewrite IH.
Qed.

Lemma substring_skip_append (x y : string) (m : nat) :
  String.substring (String.length x) m (x +:+ y) = String.substring 0 m y.
Proof.
  induction x as [|c x IH]; [reflexivity|].
  rewrite append_cons. cbn [String.length String.substring]. exact IH.
Qed.

Lemma substring_split (s : string) (n : nat) :
  (n <= String.length s)%nat ->
  s = (String.substring 0 n s +:+ String.substring n (String.length s - n) s).
Proof.
  revert s. induction n as [|n IH]; intros s Hn.
  - rewrite substring_0_0, append_empty, Nat.sub_0_r. symmetry. apply substring_0_length.
  - destruct s as [|c s]; [cbn in Hn; lia|].
    cbn [String.length] in *. rewrite substring_0_cons, append_cons.
    cbn [String.substring Nat.sub]. f_equal. apply IH. lia.
Qed.

Lemma HasSuffix_split (s suf : string) :
  HasSuffix s suf = true -> s = (TrimSuffix s suf +:+ suf).
Proof.
  intros H. unfold TrimSuffix. rewrite H. unfold HasSuffix in H.
  apply andb_true_iff in H as [Hlen%Nat.leb_le Heq%String.eqb_eq].
  rewrite (substring_split s (String.length s - String.length suf)) at 1 by lia.
  f_equal. rewrite <- Heq at 3. f_equal. lia.
Qed.

Lemma HasSuffix_append (x suf : string) : HasSuffix (x +:+ suf) suf = true.
Proof.
  unfold HasSuffix. rewrite append_length.
  apply andb_true_iff. split; [apply Nat.leb_le; lia|].
  replace (String.length x + String.length suf - String.length suf)%nat
    with (String.length x) by lia.
  rewrite substring_skip_append, substring_0_length. apply String.eqb_refl.
Qed.

Lemma TrimSuffix_append (x suf : string) : TrimSuffix (x +:+ suf) suf = x.
Proof.
  unfold TrimSuffix. rewrite HasSuffix_append, append_length.
  replace (String.length x + String.length suf - String.length suf)%nat
    with (String.length x) by lia.
  apply substring_0_append.
Qed.

Lemma append_assoc (x y z : string) : ((x +:+ y) +:+ z) = (x +:+ (y +:+ z)).
Proof.
  induction x as [|c x IH]; [reflexivity|].
  rewrite (append_cons c x y), (append_cons c (x +:+ y) z),
    (append_cons c x (y +:+ z)). now rewrite IH.
Qed.

Lemma list_ascii_of_string_append (x y : string) :
  list_ascii_of_string (x +:+ y) = list_ascii_of_string x ++ list_ascii_of_string y.
Proof.
  induction x as [|c x IH]; [reflexivity|].
  rewrite append_cons. cbn [list_ascii_of_string app]. now rewrite IH.
Qed.

Lemma string_of_list_ascii_app (l1 l2 : list ascii) :
  string_of_list_ascii (l1 ++ l2) = (string_of_list_ascii l1 +:+ string_of_list_ascii l2).
Proof.
  induction l1 as [|c l1 IH]; [reflexivity|].
  cbn [app string_of_list_ascii]. rewrite append_cons. now rewrite IH.
Qed.

Lemma take_elem_no_sep (l : list ascii) :
  forallb (fun c => negb (is_sep c)) (take_elem l) = true.
Proof.
  induction l as [|c l IH]; [reflexivity|].
  cbn [take_elem]. destruct (is_sep c) eqn:E; [reflexivity|].
  cbn [forallb]. now rewrite E, IH.
Qed.

Lemma take_elem_all (l : list ascii) :
  forallb (fun c => negb (is_sep c)) l = true -> take_elem l = l.
Proof.
  induction l as [|c l IH]; [reflexivity|].
  cbn [forallb take_elem]. intros [Hc Hl]%andb_true_iff.
  apply negb_true_iff in Hc. rewrite Hc. now rewrite IH.
Qed.

Lemma take_elem_app_sep (l rest : list ascii) (c : ascii) :
  forallb (fun c => negb (is_sep c)) l = true -> is_sep c = true ->
  take_elem (l ++ c :: rest) = l.
Proof.
  intros Hl Hc. induction l as [|a l IH]; cbn [app take_elem].
  - now rewrite Hc.
  - cbn [forallb] in Hl. apply andb_true_iff in Hl as [Ha Hl].
    apply negb_true_iff in Ha. rewrite Ha. now rewrite IH.
Qed.

Lemma forallb_rev {A : Type} (f : A -> bool) (l : list A) :
  forallb f (rev l) = forallb f l.
Proof.
  induction l as [|a l IH]; [reflexivity|].
  cbn [rev forallb]. rewrite forallb_app, IH. cbn [forallb].
  rewrite andb_true_r. apply andb_comm.
Qed.

Lemma last_elem_no_slash (p : string) : no_slash (last_elem p) = true.
Proof.
  unfold no_slash, last_elem. rewrite list_ascii_of_string_of_list_ascii.
  rewrite forallb_rev. apply take_elem_no_sep.
Qed.

(** [Base] on a path that ends in the extension: the text after the
    last slash. *)
Lemma Base_jsonl (x : string) : Base (x +:+ jsonl) = (last_elem x +:+ jsonl).
Proof.
  unfold Base. destruct (x +:+ jsonl) as [|c0 r0] eqn:E.
  { apply (f_equal String.length) in E. rewrite append_length in E. cbn in E. lia. }
  rewrite <- E. clear E c0 r0.
  rewrite list_ascii_of_string_append, rev_app_distr.
  change (rev (list_ascii_of_string jsonl))
    with ["l"; "n"; "o"; "s"; "j"; "."]%char.
  cbn [app drop_seps is_sep Ascii.eqb Bool.eqb take_elem].
  cbn [rev app]. unfold last_elem.
  rewrite <- !app_assoc. cbn [app].
  rewrite string_of_list_ascii_app. reflexivity.
Qed.

Lemma TrimPrefix_no_slash (s : string) : no_slash s = true -> TrimPrefix s "/" = s.
Proof.
  unfold no_slash, TrimPrefix, HasPrefix. destruct s as [|c s]; [reflexivity|].
  cbn [list_ascii_of_string forallb String.prefix].
  intros [Hc _]%andb_true_iff. apply negb_true_iff in Hc.
  destruct (ascii_dec "/" c) as [<-|]; [discriminate|reflexivity].
Qed.

Lemma last_elem_join (dir id : string) :
  no_slash id = true -> last_elem (dir +:+ "/" +:+ id) = id.
Proof.
  intros Hid. unfold last_elem.
  rewrite !list_ascii_of_string_append, !rev_app_distr.
  cbn [list_ascii_of_string rev app]. rewrite <- app_assoc. cbn [app].
  rewrite take_elem_app_sep; [|now rewrite forallb_rev|reflexivity].
  rewrite rev_involutive. apply string_of_list_ascii_of_string.
Qed.

Lemma streamID_of_path_Base_aux (p : string) :
  HasSuffix p jsonl = true ->
  Base p = (streamID_of_path p +:+ jsonl) /\
  no_slash (streamID_of_path p) = true /\
  TrimPrefix (streamID_of_path p) "/" = streamID_of_path p.
Proof.
  intros H. apply HasSuffix_split in H.
  remember (TrimSuffix p jsonl) as x eqn:Hx. clear Hx. subst p.
  unfold streamID_of_path. rewrite Base_jsonl, TrimSuffix_append.
  split; [reflexivity|]. split; [apply last_elem_no_slash|].
  apply TrimPrefix_no_slash, last_elem_no_slash.
Qed.

(** X3: for a path that ends in [.jsonl] the identifier is the text
    between the last slash and the extension: [Base] of the path is the
    identifier followed by the extension, the identifier holds no slash
    and [getPath]'s stripping of a leading slash leaves it alone. *)
Theorem streamID_of_path_Base (p : string) :
  HasSuffix p jsonl = true ->
  Base p = (streamID_of_path p +:+ jsonl) /\
  no_slash (streamID_of_path p) = true /\
  TrimPrefix (streamID_of_path p) "/" = streamID_of_path p.
Proof. apply streamID_of_path_Base_aux. Qed.

Lemma streamID_of_path_join_aux (dir id : string) :
  no_slash id = true ->
  HasSuffix (dir +:+ "/" +:+ id +:+ jsonl) jsonl = true /\
  streamID_of_path (dir +:+ "/" +:+ id +:+ jsonl) = id.
Proof.
  intros Hid.
  assert (E : (dir +:+ "/" +:+ id +:+ jsonl) = ((dir +:+ "/" +:+ id) +:+ jsonl)).
  { now rewrite !append_assoc. }
  rewrite E. split; [apply HasSuffix_append|].
  unfold streamID_of_path. rewrite Base_jsonl, TrimSuffix_append.
  now apply last_elem_join.
Qed.

(** X4: the file [dir/id.jsonl] of a slash-free [id] has the extension
    the scan and the watch loop look for, and the identifier they give it
    is [id]. *)
Theorem streamID_of_path_join (dir id : string) :
  no_slash id = true ->
  HasSuffix (dir +:+ "/" +:+ id +:+ jsonl) jsonl = true /\
  streamID_of_path (dir +:+ "/" +:+ id +:+ jsonl) = id.
Proof. apply streamID_of_path_join_aux. Qed.

(* ===================================================================== *)
(** * The scan of the projects tree *)
(* ===================================================================== *)

Lemma indexFiles_fn_spec (e : DirEntry) (s : ClaudeStorage) :
  indexFiles_fn e s =
  (set_watched (if watchable e then watched s ++ [entry_path e] else watched s)
     (set_fileIndex
        (if indexable e
         then <[streamID_of_path (entry_path e) := entry_path e]> (fileIndex s)
         else fileIndex s) s),
   WalkContinue).
Proof.
  unfold indexFiles_fn, watchable, indexable, streamID_of_path.
  destruct s as [cd pd ws sb ix cs]. cbn.
  destruct (entry_err e); [reflexivity|].
  destruct (entry_isDir e); [reflexivity|]. cbn.
  destruct (HasSuffix (entry_path e) jsonl); reflexivity.
Qed.

Lemma indexed_as_other (k : string) (e : DirEntry) :
  indexed_as k e = false ->
  (if indexable e
   then <[streamID_of_path (entry_path e) := entry_path e]> (∅ : gmap string string)
   else ∅) !! k = None.
Proof.
  unfold indexed_as. destruct (indexable e); [|intros _; apply lookup_empty].
  cbn [andb]. intros H%String.eqb_neq. rewrite lookup_insert_ne by exact H.
  apply lookup_empty.
Qed.

Lemma WalkDir_indexFiles_spec (visits : list DirEntry) (s : ClaudeStorage) (k : string) :
  let s' := WalkDir visits indexFiles_fn s in
  fileIndex s' !! k =
    match last (List.filter (indexed_as k) visits) with
    | Some e => Some (entry_path e)
    | None => fileIndex s !! k
    end /\
  watched s' = watched s ++ map entry_path (List.filter watchable visits) /\
  subscribers s' = subscribers s /\ chans s' = chans s /\
  claudeDir s' = claudeDir s /\ projectsDir s' = projectsDir s.
Proof.
  revert s. induction visits as [|e visits IH]; intros s.
  - cbn. rewrite app_nil_r. repeat split; reflexivity.
  - cbn [WalkDir]. rewrite indexFiles_fn_spec.
    destruct (IH (set_watched
                    (if watchable e then watched s ++ [entry_path e] else watched s)
                    (set_fileIndex
                       (if indexable e
                        then <[streamID_of_path (entry_path e) := entry_path e]> (fileIndex s)
                        else fileIndex s) s)))
      as (Hix & Hw & Hsb & Hcs & Hcd & Hpd).
    cbn zeta in *. rewrite Hix, Hw, Hsb, Hcs, Hcd, Hpd.
    cbn [set_watched set_fileIndex fileIndex watched subscribers chans claudeDir projectsDir].
    split; [|split; [|repeat split; reflexivity]].
    + cbn [List.filter]. unfold indexed_as at 2.
      destruct (indexable e) eqn:Hi; cbn [andb].
      * destruct (String.eqb (streamID_of_path (entry_path e)) k) eqn:Hk.
        -- apply String.eqb_eq in Hk. rewrite last_cons.
           destruct (last (List.filter (indexed_as k) visits)); [reflexivity|].
           rewrite Hk. now rewrite lookup_insert_eq.
        -- apply String.eqb_neq in Hk.
           destruct (last (List.filter (indexed_as k) visits)); [reflexivity|].
           now rewrite lookup_insert_ne.
      * reflexivity.
    + cbn [List.filter]. destruct (watchable e); [|reflexivity].
      cbn [map]. now rewrite <- app_assoc.
Qed.

Lemma indexFiles_spec_aux (w : World) (s : ClaudeStorage) (k : string) :
  fileIndex (indexFiles w s) !! k =
    match last (List.filter (indexed_as k) (fs_walk w (projectsDir s))) with
    | Some e => Some (entry_path e)
    | None => fileIndex s !! k
    end /\
  watched (indexFiles w s) =
    watched s ++ map entry_path (List.filter watchable (fs_walk w (projectsDir s))) /\
  subscribers (indexFiles w s) = subscribers s /\
  chans (indexFiles w s) = chans s.
Proof.
  unfold indexFiles.
  destruct (WalkDir_indexFiles_spec (fs_walk w (projectsDir s)) s k)
    as (H1 & H2 & H3 & H4 & _).
  repeat split; assumption.
Qed.

(** X5: after the scan, an identifier is mapped to the path of the last
    visit, in the order of the walk, that is a file with the extension,
    reported without error, and named after it; an identifier with no such
    visit keeps the entry it had.  The directories visited without error
    are handed to the watcher in the order of the walk, and the registry
    and the channels are left alone. *)
Theorem indexFiles_spec (w : World) (s : ClaudeStorage) (k : string) :
  fileIndex (indexFiles w s) !! k =
    match last (List.filter (indexed_as k) (fs_walk w (projectsDir s))) with
    | Some e => Some (entry_path e)
    | None => fileIndex s !! k
    end /\
  watched (indexFiles w s) =
    watched s ++ map entry_path (List.filter watchable (fs_walk w (projectsDir s))) /\
  subscribers (indexFiles w s) = subscribers s /\
  chans (indexFiles w s) = chans s.
Proof. apply indexFiles_spec_aux. Qed.

Lemma filter_last_In {A : Type} (f : A -> bool) (l : list A) (x : A) :
  last (List.filter f l) = Some x -> In x l /\ f x = true.
Proof.
  intros H. apply last_Some_elem_of in H. apply list_elem_of_In in H.
  now apply filter_In in H.
Qed.

(** X6: every file the scan comes across is resolved from the index
    afterwards: for a visit that is a file with the extension, [getPath]
    on its identifier returns, in whatever state the files are by then, the
    path of a visited file of that identifier, and changes nothing. *)
Theorem getPath_after_indexFiles (w w' : World) (s : ClaudeStorage) (e : DirEntry) :
  In e (fs_walk w (projectsDir s)) ->
  indexable e = true ->
  exists e' : DirEntry,
    In e' (fs_walk w (projectsDir s)) /\
    indexed_as (streamID_of_path (entry_path e)) e' = true /\
    getPath w' (indexFiles w s) (streamID_of_path (entry_path e))
      = (indexFiles w s, Ok (entry_path e')).
Proof.
  intros Hin He.
  set (k := streamID_of_path (entry_path e)).
  destruct (indexFiles_spec_aux w s k) as (Hix & _).
  assert (Hk : indexed_as k e = true).
  { unfold indexed_as. rewrite He. cbn [andb]. apply String.eqb_refl. }
  destruct (last (List.filter (indexed_as k) (fs_walk w (projectsDir s)))) as [e'|] eqn:Hl.
  - destruct (filter_last_In _ _ _ Hl) as [Hin' Hk'].
    exists e'. split; [exact Hin'|]. split; [exact Hk'|].
    apply getPath_indexed.
    assert (Hsuf : HasSuffix (entry_path e) jsonl = true).
    { unfold indexable in He. now apply andb_true_iff in He as [_ He]. }
    destruct (streamID_of_path_Base_aux _ Hsuf) as (_ & _ & Htrim).
    fold k in Htrim. now rewrite Htrim.
  - exfalso. apply last_None in Hl.
    assert (Hf : In e (List.filter (indexed_as k) (fs_walk w (projectsDir s)))).
    { apply filter_In. now split. }
    rewrite Hl in Hf. destruct Hf.
Qed.

(** X7: the visits the scan registers are visits the deeper search of
    [getPath] stops at: a file indexed under an identifier is one the
    fallback walk accepts for that identifier. *)
Theorem indexable_walk_hit (e : DirEntry) :
  indexable e = true ->
  walk_hit (streamID_of_path (entry_path e)) e = true.
Proof.
  unfold indexable, walk_hit.
  intros [[He Hd]%andb_true_iff Hs]%andb_true_iff.
  rewrite He, Hd. cbn [andb].
  destruct (streamID_of_path_Base_aux _ Hs) as (Hb & _).
  rewrite <- Hb. apply String.eqb_refl.
Qed.

Lemma NewClaudeStorage_spec_aux (w : World) (dir : string) :
  let s := NewClaudeStorage w dir in
  subscribers s = ∅ /\ chans s = ∅ /\
  watched s =
    dir :: map entry_path (List.filter watchable (fs_walk w (Join [dir; "projects"]))) /\
  fileIndex s !! "_history" =
    match last (List.filter (indexed_as "_history") (fs_walk w (Join [dir; "projects"]))) with
    | Some e => Some (entry_path e)
    | None => Some (Join [dir; "history.jsonl"])
    end.
Proof.
  unfold NewClaudeStorage.
  match goal with |- context [indexFiles w ?s0] => set (s0' := s0) end.
  destruct (indexFiles_spec_aux w s0' "_history") as (H1 & H2 & H3 & H4).
  cbv zeta. rewrite H1, H2, H3, H4. subst s0'.
  cbn [subscribers chans watched fileIndex projectsDir app].
  rewrite lookup_singleton_eq. repeat split; reflexivity.
Qed.

(** X8: a new storage has no subscriber and no channel, watches the
    Claude directory first and then the directories of the projects tree,
    and knows the command history under ["_history"] at
    [history.jsonl] of the Claude directory, unless the tree holds a file
    named [_history.jsonl], which then takes the entry. *)
Theorem NewClaudeStorage_spec (w : World) (dir : string) :
  let s := NewClaudeStorage w dir in
  subscribers s = ∅ /\ chans s = ∅ /\
  watched s =
    dir :: map entry_path (List.filter watchable (fs_walk w (Join [dir; "projects"]))) /\
  fileIndex s !! "_history" =
    match last (List.filter (indexed_as "_history") (fs_walk w (Join [dir; "projects"]))) with
    | Some e => Some (entry_path e)
    | None => Some (Join [dir; "history.jsonl"])
    end.
Proof. apply NewClaudeStorage_spec_aux. Qed.

(* ===================================================================== *)
(** * More on resolution *)
(* ===================================================================== *)

Lemma getPath_Ok_index (w : World) (s s1 : ClaudeStorage) (streamID path : string) :
  getPath w s streamID = (s1, Ok path) ->
  fileIndex s1 !! TrimPrefix streamID "/" = Some path.
Proof.
  unfold getPath. destruct (fileIndex s !! TrimPrefix streamID "/") as [p|] eqn:Hix.
  { intros H. injection H as <- <-. exact Hix. }
  destruct (fs_glob w _) as [ms err].
  destruct (if err then [] else ms) as [|m0 ms'].
  - destruct (negb _); [|discriminate].
    intros H. injection H as <- <-. cbn. apply lookup_insert_eq.
  - intros H. injection H as <- <-. cbn. apply lookup_insert_eq.
Qed.

Lemma getPath_cached_aux (w w' : World) (s s1 : ClaudeStorage) (streamID path : string) :
  getPath w s streamID = (s1, Ok path) ->
  getPath w' s1 streamID = (s1, Ok path).
Proof.
  intros H. apply getPath_indexed. exact (getPath_Ok_index w s s1 streamID path H).
Qed.

(** X9: a resolution is remembered: once [getPath] has returned a path
    for an identifier, it returns the same path from the storage it left,
    without changing it, whatever the files have become. *)
Theorem getPath_cached (w w' : World) (s s1 : ClaudeStorage) (streamID path : string) :
  getPath w s streamID = (s1, Ok path) ->
  getPath w' s1 streamID = (s1, Ok path).
Proof. apply getPath_cached_aux. Qed.

(** X10: for an identifier that is not in the index, a match of the
    shallow pattern wins: [getPath] returns the first match of
    [filepath.Glob] and records it, and the walk of the tree plays no
    part. *)
Theorem getPath_glob_match (w : World) (s : ClaudeStorage) (streamID m0 : string)
    (ms : list string) :
  let id := TrimPrefix streamID "/" in
  fileIndex s !! id = None ->
  fs_glob w (Join [projectsDir s; "**"; id +:+ jsonl]) = (m0 :: ms, false) ->
  getPath w s streamID = (set_fileIndex (<[id := m0]> (fileIndex s)) s, Ok m0).
Proof.
  intros id Hix Hglob. unfold getPath. fold id. now rewrite Hix, Hglob.
Qed.

(** What a resolution does to the storage: nothing, or one new entry for
    an identifier the index did not have. *)
Lemma getPath_effect (w : World) (s : ClaudeStorage) (streamID : string) :
  let id := TrimPrefix streamID "/" in
  fst (getPath w s streamID) = s \/
  (fileIndex s !! id = None /\
   exists path, snd (getPath w s streamID) = Ok path /\
     fst (getPath w s streamID) = set_fileIndex (<[id := path]> (fileIndex s)) s).
Proof.
  intros id. unfold getPath. fold id.
  destruct (fileIndex s !! id) as [p|] eqn:Hix; [now left|].
  destruct (fs_glob w _) as [ms err].
  destruct (if err then [] else ms) as [|m0 ms'].
  - destruct (negb _); [|now left].
    right. split; [reflexivity|]. eexists. split; reflexivity.
  - right. split; [reflexivity|]. eexists. split; reflexivity.
Qed.

(** X11: [Read] and [Head] change the storage as [getPath] does and no
    more: the registry, the channels and the watched directories stay,
    and the index stays or gains one entry, for the identifier read and
    only when it had none; for an identifier in the index nothing
    changes. *)
Theorem Read_Head_storage (w : World) (s : ClaudeStorage)
    (streamID offset : string) (limit : Z) :
  let id := TrimPrefix streamID "/" in
  let s1 := fst (Read w s streamID offset limit) in
  fst (Head w s streamID) = s1 /\
  subscribers s1 = subscribers s /\ chans s1 = chans s /\ watched s1 = watched s /\
  (forall k : string, k <> id -> fileIndex s1 !! k = fileIndex s !! k) /\
  (forall p : string, fileIndex s !! id = Some p -> s1 = s) /\
  (fileIndex s1 = fileIndex s \/
   fileIndex s !! id = None /\ exists path, fileIndex s1 = <[id := path]> (fileIndex s)).
Proof.
  intros id s1. subst s1 id. rewrite Head_storage, Read_storage.
  split; [reflexivity|].
  destruct (getPath_effect w s streamID) as [E|(Hix & path & _ & E)];
    rewrite E; cbn [set_fileIndex subscribers chans watched fileIndex].
  - repeat split; try reflexivity. now left.
  - split; [reflexivity|]. split; [reflexivity|]. split; [reflexivity|].
    split; [intros k Hk; now rewrite lookup_insert_ne|].
    split; [intros p Hp; congruence|].
    right. split; [exact Hix|]. now exists path.
Qed.

(* ===================================================================== *)
(** * Errors of [Read] and [Head] *)
(* ===================================================================== *)

(** X12: an entry of the index is trusted as it is, without searching
    the tree again and leaving the storage as it was.  When the path it
    names is gone, [Read] reports the open error and [Head] the stat
    error.  When the path names a file that cannot be opened for reading,
    [Read] reports the open error while [Head] still answers with the
    size.  When it names a directory, [Head] answers with the size the
    system reports and [Read], from a position the seek accepts, reports
    the scan error. *)
Theorem Read_stale_index (w : World) (s : ClaudeStorage)
    (streamID path offset : string) (limit : Z) :
  fileIndex s !! TrimPrefix streamID "/" = Some path ->
  fs_files w !! path = None ->
  (fs_special w !! path = None ->
   Read w s streamID offset limit = (s, Err ErrOpen) /\
   Head w s streamID = (s, Err ErrStat)) /\
  (forall size : Z, fs_special w !! path = Some (NoRead size) ->
   Read w s streamID offset limit = (s, Err ErrOpen) /\
   Head w s streamID =
     (s, Ok {| ContentType := "application/json"; InfoNextOffset := offsetFromInt size |})) /\
  (forall size : Z, fs_special w !! path = Some (Directory size) ->
   0 <= offsetToInt offset <= fs_maxbytes w path ->
   Read w s streamID offset limit = (s, Err ErrScan) /\
   Head w s streamID =
     (s, Ok {| ContentType := "application/json"; InfoNextOffset := offsetFromInt size |})).
Proof.
  intros Hix Hfile. unfold Read, Head, os_Open, os_Stat.
  rewrite (getPath_indexed w s streamID path Hix), Hfile.
  split; [|split].
  - intros ->. split; reflexivity.
  - intros size ->. split; reflexivity.
  - intros size -> Hpos. unfold File_Seek. cbn [File_maxbytes File_Size File_Read].
    replace (0 <=? offsetToInt offset) with true by (symmetry; apply Z.leb_le; lia).
    replace (offsetToInt offset <=? Z.max (fs_maxbytes w path) size) with true
      by (symmetry; apply Z.leb_le; lia).
    split; reflexivity.
Qed.

(** X13: a token that decodes to a negative position makes the seek
    fail: [Read] reports the seek error, whatever the file holds. *)
Theorem Read_negative_offset (w : World) (s s1 : ClaudeStorage)
    (streamID path offset : string) (limit : Z) (content : list byte) :
  getPath w s streamID = (s1, Ok path) ->
  fs_files w !! path = Some content ->
  offsetToInt offset < 0 ->
  Read w s streamID offset limit = (s1, Err ErrSeek).
Proof.
  intros Hres Hfile Hneg.
  rewrite (Read_unfold w s s1 streamID path offset limit content Hres Hfile).
  cbv zeta. now rewrite File_Seek_negative.
Qed.

(** X14: for an identifier that [getPath] cannot resolve, [Read] and
    [Head] report [ErrStreamNotFound] and leave the storage as it was. *)
Theorem Read_Head_not_found (w : World) (s : ClaudeStorage)
    (streamID offset : string) (limit : Z) :
  ~ resolves w s streamID ->
  Read w s streamID offset limit = (s, Err ErrStreamNotFound) /\
  Head w s streamID = (s, Err ErrStreamNotFound).
Proof.
  intros H. apply not_resolves_Err in H. unfold Read, Head. rewrite H.
  split; reflexivity.
Qed.

(** X15: what [Head] announces as the next offset is the tail offset of
    a read: when [Read] succeeds, [Head] on the same storage and files
    succeeds, leaves the same storage, and gives the content type
    [application/json] and the encoded size of the file the index names. *)
Theorem Head_agrees_with_Read (w : World) (s s1 : ClaudeStorage)
    (streamID offset : string) (limit : Z) (r : ReadResult) :
  Read w s streamID offset limit = (s1, Ok r) ->
  exists (path : string) (content : list byte),
    fileIndex s1 !! TrimPrefix streamID "/" = Some path /\
    fs_files w !! path = Some content /\
    TailOffset r = offsetFromInt (Z.of_nat (length content)) /\
    Head w s streamID =
      (s1, Ok {| ContentType := "application/json"; InfoNextOffset := TailOffset r |}).
Proof.
  unfold Read, Head.
  destruct (getPath w s streamID) as [s' [path|e]] eqn:Hres; [|discriminate].
  pose proof (getPath_Ok_index w s s' streamID path Hres) as Hix.
  unfold os_Open, os_Stat.
  destruct (fs_files w !! path) as [content|] eqn:Hfile.
  - destruct (negb _); [discriminate|].
    destruct (File_Read _ _) as [data|]; [|discriminate].
    destruct (scan_loop _ _ _) as [st [e|]]; [discriminate|].
    intros H. injection H as <- <-. cbn [TailOffset File_Size].
    exists path, content.
    split; [exact Hix|]. split; [exact Hfile|]. split; reflexivity.
  - destruct (fs_special w !! path) as [[size|size]|]; [discriminate| |discriminate].
    destruct (negb _); discriminate.
Qed.

(* ===================================================================== *)
(** * More on the line reader *)
(* ===================================================================== *)

Lemma raw_lines_no_newline (cur data : list byte) :
  Forall (fun b => b <> newline) cur ->
  Forall (Forall (fun b => b <> newline)) (raw_lines cur data).
Proof.
  revert cur. induction data as [|b rest IH]; intros cur Hcur.
  - cbn [raw_lines]. destruct cur as [|c cur]; [constructor|].
    constructor; [|constructor]. apply Forall_rev. exact Hcur.
  - cbn [raw_lines]. destruct (Byte.eqb b newline) eqn:E.
    + constructor; [apply Forall_rev; exact Hcur | apply IH; constructor].
    + apply IH. constructor; [|exact Hcur]. now apply Byte.eqb_false.
Qed.

Lemma Forall_removelast {A : Type} (P : A -> Prop) (l : list A) :
  Forall P l -> Forall P (removelast l).
Proof.
  intros H. destruct l as [|a l] using rev_ind; [exact H|].
  rewrite removelast_last. apply Forall_app in H. tauto.
Qed.

Lemma dropCR_Forall (P : byte -> Prop) (raw : list byte) :
  Forall P raw -> Forall P (dropCR raw).
Proof.
  intros H. unfold dropCR. destruct (last raw) as [c|]; [|exact H].
  destruct (Byte.eqb c carriage_return); [now apply Forall_removelast|exact H].
Qed.

(** Whatever the loop returns, the payloads it has added are lines of
    the scanner. *)
Lemma scan_loop_Data (P : list byte -> Prop) (limit : Z)
    (pending : list (list byte)) (st st' : LoopState) (e : option error) :
  scan_loop limit pending st = (st', e) ->
  Forall P (map Data (messages st)) ->
  Forall P (map dropCR pending) ->
  Forall P (map Data (messages st')).
Proof.
  revert st. induction pending as [|raw rest IH]; intros st Heq Hst Hp.
  - cbn in Heq. injection Heq as <- <-. exact Hst.
  - cbn [map] in Hp. apply Forall_cons in Hp as [Hraw Hp].
    cbn [scan_loop] in Heq.
    destruct (maxTokenSize <? _); [injection Heq as <- <-; exact Hst|].
    destruct (_ && _); [injection Heq as <- <-; exact Hst|].
    apply IH in Heq; [exact Heq| |exact Hp].
    cbn [messages]. rewrite map_app. apply Forall_app. split; [exact Hst|].
    cbn [map Data]. constructor; [exact Hraw|constructor].
Qed.

(** X16: a message never holds a newline byte: whatever the file, the
    offset and the budget, every payload of a successful [Read] is free of
    newlines. *)
Theorem Read_messages_no_newline (w : World) (s s1 : ClaudeStorage)
    (streamID offset : string) (limit : Z) (r : ReadResult) :
  Read w s streamID offset limit = (s1, Ok r) ->
  Forall (fun m => Forall (fun b => b <> newline) (Data m)) (Messages r).
Proof.
  unfold Read.
  destruct (getPath w s streamID) as [s' [path|e]]; [|discriminate].
  destruct (os_Open w path) as [f|]; [|discriminate].
  destruct (negb _); [discriminate|].
  destruct (File_Read f _) as [data|]; [|discriminate].
  destruct (scan_loop _ _ _) as [st [e|]] eqn:Hloop; [discriminate|].
  intros H. injection H as <- <-. cbn [Messages].
  apply (scan_loop_Data (Forall (fun b => b <> newline))) in Hloop.
  - exact (proj1 (List.Forall_map Data _ _) Hloop).
  - constructor.
  - apply (proj2 (List.Forall_map dropCR _ _)).
    eapply Forall_impl; [apply raw_lines_no_newline; constructor|].
    intros raw Hraw. cbn. now apply dropCR_Forall.
Qed.

Lemma span_nonneg (ls : list (list byte)) : 0 <= span ls.
Proof. induction ls as [|l ls IH]; simpl; lia. Qed.

Lemma span_firstn_strict (ls : list (list byte)) (i j : nat) :
  (i < j <= length ls)%nat -> span (firstn i ls) < span (firstn j ls).
Proof.
  revert i j. induction ls as [|l ls IH]; intros i j Hij; [cbn in Hij; lia|].
  destruct j as [|j]; [lia|]. rewrite span_firstn_cons.
  destruct i as [|i].
  - rewrite span_firstn_0. pose proof (span_nonneg (firstn j ls)). lia.
  - rewrite span_firstn_cons. cbn [length] in Hij. specialize (IH i j ltac:(lia)). lia.
Qed.

Lemma offsetFromInt_lt (a b : Z) :
  0 <= a -> a < b -> b <= max_int64 ->
  string_lt (offsetFromInt a) (offsetFromInt b).
Proof.
  intros Ha Hab Hb. unfold string_lt.
  rewrite offsetFromInt_compare_Z by lia. now apply Z.compare_lt_iff.
Qed.

(** X17: in a successful read the offsets of the messages grow strictly,
    in the order of strings, from one message to the next, and the next
    offset of the result is the offset of its last message. *)
Theorem Read_offsets_increase (w : World) (s s1 : ClaudeStorage)
    (streamID path offset : string) (limit : Z) (content : list byte)
    (r : ReadResult) :
  getPath w s streamID = (s1, Ok path) ->
  fs_files w !! path = Some content ->
  Z.of_nat (length content) < max_int64 ->
  Read w s streamID offset limit = (s1, Ok r) ->
  (forall (i j : nat) (mi mj : StoredMessage),
     (i < j)%nat -> Messages r !! i = Some mi -> Messages r !! j = Some mj ->
     string_lt (Offset mi) (Offset mj)) /\
  (forall m : StoredMessage, last (Messages r) = Some m -> Offset m = NextOffset r).
Proof.
  intros Hres Hfile Hsize HOk.
  destruct (Read_Ok_inv w s s1 s1 streamID path offset limit content r
              Hres Hfile Hsize HOk) as (Hseek & _ & _ & j & Hj & Heq & _ & _).
  apply File_Seek_nonneg in Hseek as Hstart.
  injection Heq as ->.
  set (start := offsetToInt offset) in *.
  set (lines := scanner_lines (seek content start)) in *.
  pose proof (offsetToInt_range offset) as Hrange. fold start in Hrange.
  pose proof (scanner_lines_bounds content start ltac:(lia) Hsize) as Hb.
  fold lines in Hb.
  set (taken := firstn j lines).
  assert (Hlen : length taken = j) by (apply firstn_length_le; exact Hj).
  assert (Hoff : forall i m, build_messages start taken !! i = Some m ->
            (i < j)%nat /\ Offset m = offsetFromInt (start + span (firstn (S i) taken))).
  { intros i m Hm.
    pose proof (lookup_lt_Some _ _ _ Hm) as Hi. rewrite build_messages_length, Hlen in Hi.
    split; [exact Hi|].
    destruct (taken !! i) as [l|] eqn:Hl.
    - rewrite (build_messages_lookup _ _ _ _ Hl) in Hm. now injection Hm as <-.
    - apply lookup_ge_None in Hl. lia. }
  assert (Hspan : forall i, span (firstn i taken) <= span lines).
  { intros i. etransitivity; [apply span_firstn_le|]. apply span_firstn_le. }
  cbn [Messages NextOffset]. split.
  - intros i k mi mk Hik Hi Hk.
    destruct (Hoff i mi Hi) as [Hi' ->]. destruct (Hoff k mk Hk) as [Hk' ->].
    pose proof (span_firstn_strict taken (S i) (S k) ltac:(lia)).
    pose proof (span_nonneg (firstn (S i) taken)).
    pose proof (Hspan (S k)).
    apply offsetFromInt_lt; lia.
  - intros m Hm. rewrite last_lookup, build_messages_length, Hlen in Hm.
    destruct (Hoff _ m Hm) as [Hlt ->].
    destruct j as [|j]; [lia|]. cbn [Nat.eqb Nat.pred].
    rewrite <- Hlen at 1. now rewrite firstn_all.
Qed.

Lemma build_messages_app (pos : Z) (a b : list (list byte)) :
  build_messages pos (a ++ b) =
  build_messages pos a ++ build_messages (pos + span a) b.
Proof.
  revert pos. induction a as [|l a IH]; intros pos.
  - cbn. now rewrite Z.add_0_r.
  - cbn [app]. rewrite !build_messages_cons, IH. cbn [app]. do 3 f_equal.
    cbn [span fold_right]. fold (span a). lia.
Qed.

(** X18: a smaller budget gives a part of what a larger one gives:
    when the read under [limit2] succeeds and [limit1 <= limit2], the
    read under [limit1] succeeds as well, and its messages are the first
    messages of the read under [limit2]. *)
Theorem Read_budget_monotone (w : World) (s s1 : ClaudeStorage)
    (streamID path offset : string) (limit1 limit2 : Z) (content : list byte)
    (r2 : ReadResult) :
  getPath w s streamID = (s1, Ok path) ->
  fs_files w !! path = Some content ->
  Z.of_nat (length content) < max_int64 ->
  limit1 <= limit2 ->
  Read w s streamID offset limit2 = (s1, Ok r2) ->
  exists (r1 : ReadResult) (more : list StoredMessage),
    Read w s streamID offset limit1 = (s1, Ok r1) /\
    Messages r2 = Messages r1 ++ more /\
    TailOffset r2 = TailOffset r1.
Proof.
  intros Hres Hfile Hsize Hle HOk.
  destruct (Read_Ok_inv w s s1 s1 streamID path offset limit2 content r2
              Hres Hfile Hsize HOk)
    as (Hseek & Hread & Hfit2 & j2 & Hj2 & Heq2 & Hstop2 & Hall2).
  injection Heq2 as ->.
  destruct (Read_accepted w s s1 streamID path offset limit1 content
              Hres Hfile Hseek Hread Hsize) as (j1 & Hj1 & Heq1 & Hstop1 & Hall1).
  { intros n raw Hn Hreach. apply (Hfit2 n raw Hn).
    unfold reached in *. destruct Hreach as [H1|Hr]; [now left | right; lia]. }
  set (lines := scanner_lines (seek content (offsetToInt offset))) in *.
  assert (H12 : (j1 <= j2)%nat).
  { destruct (Nat.le_gt_cases j1 j2) as [H|H]; [exact H|].
    destruct Hstop2 as [Hs2 Hone]; [lia|].
    specialize (Hall1 j2 ltac:(lia)). lia. }
  eexists. exists (build_messages
                     (offsetToInt offset + span (firstn j1 lines))
                     (firstn (j2 - j1) (skipn j1 lines))).
  split; [exact Heq1|]. cbn [Messages TailOffset].
  split; [|reflexivity].
  rewrite <- build_messages_app. f_equal.
  replace j2 with (j1 + (j2 - j1))%nat at 1 by lia.
  symmetry. apply take_take_drop.
Qed.

(** The loop reaches a line that is too long when the lines before it
    fit the scanner and the budget, and then stops with the scan error. *)
Lemma scan_loop_too_long (limit : Z) (pre rest : list (list byte)) (raw : list byte)
    (st : LoopState) :
  Forall fits_scanner pre ->
  ~ fits_scanner raw ->
  0 <= bytesRead st ->
  bytesRead st + payload (map dropCR pre) <= limit ->
  bytesRead st + payload (map dropCR pre) <= max_int64 ->
  snd (scan_loop limit (pre ++ raw :: rest) st) = Some ErrScan.
Proof.
  revert st. induction pre as [|p pre IH]; intros st Hfit Hraw Hbr Hlim Hmax.
  - cbn [app scan_loop]. unfold fits_scanner in Hraw.
    destruct (maxTokenSize <? _) eqn:E; [reflexivity|apply Z.ltb_ge in E; lia].
  - apply Forall_cons in Hfit as [Hp Hfit]. unfold fits_scanner in Hp.
    cbn [map payload fold_right] in Hlim, Hmax. fold (payload (map dropCR pre)) in Hlim, Hmax.
    pose proof (payload_nonneg (map dropCR pre)) as Hp0.
    cbn [app scan_loop].
    destruct (maxTokenSize <? _) eqn:E; [apply Z.ltb_lt in E; lia|].
    rewrite (wrap64_small (bytesRead st + _)) by int_lia.
    destruct (limit <? _) eqn:E2; [apply Z.ltb_lt in E2; lia|].
    cbn [andb]. apply IH; cbn [bytesRead]; try assumption; lia.
Qed.

(** X19: no partial result on a line that is too long: when the lines
    before it fit the scanner and the budget, and the line itself does not
    fit the scanner's 16MB buffer, [Read] reports the scan error and
    returns none of the lines before it. *)
Theorem Read_line_too_long (w : World) (s s1 : ClaudeStorage)
    (streamID path offset : string) (limit : Z) (content : list byte)
    (pre rest : list (list byte)) (raw : list byte) :
  getPath w s streamID = (s1, Ok path) ->
  fs_files w !! path = Some content ->
  0 <= offsetToInt offset ->
  Z.of_nat (length content) < max_int64 ->
  raw_lines [] (seek content (offsetToInt offset)) = pre ++ raw :: rest ->
  Forall fits_scanner pre ->
  maxTokenSize < Z.of_nat (length raw) + 1 ->
  payload (map dropCR pre) <= limit ->
  Read w s streamID offset limit = (s1, Err ErrScan).
Proof.
  intros Hres Hfile Hstart Hsize Hlines Hfit Hraw Hlim.
  assert (Hmax : payload (map dropCR pre) <= max_int64).
  { pose proof (offsetToInt_range offset) as Hr.
    pose proof (scanner_lines_bounds content (offsetToInt offset) ltac:(lia) Hsize) as Hb.
    unfold scanner_lines in Hb. rewrite Hlines, map_app, span_app in Hb.
    pose proof (payload_le_span (map dropCR pre)).
    pose proof (span_nonneg (map dropCR (raw :: rest))). lia. }
  pose proof (scan_loop_too_long limit pre rest raw
                {| messages := []; currentOffset := offsetToInt offset; bytesRead := 0 |}
                Hfit ltac:(unfold fits_scanner; lia) ltac:(cbn; lia)
                ltac:(cbn; lia) ltac:(cbn; lia)) as Hloop.
  assert (Hin : offsetToInt offset <= Z.of_nat (length content)).
  { destruct (Z_le_gt_dec (offsetToInt offset) (Z.of_nat (length content))) as [H|H];
      [exact H|].
    rewrite seek_past_end in Hlines by lia. cbn in Hlines.
    destruct pre; discriminate Hlines. }
  rewrite (Read_unfold w s s1 streamID path offset limit content Hres Hfile).
  cbv zeta. rewrite File_Seek_inside, File_Read_inside by lia. cbn [negb].
  rewrite Hlines. destruct (scan_loop _ _ _) as [st e]. cbn [snd] in Hloop.
  now rewrite Hloop.
Qed.

(** ** Reading on from a record boundary *)

Lemma file_of_records_app (a b : list (list byte)) :
  file_of_records (a ++ b) = file_of_records a ++ file_of_records b.
Proof. unfold file_of_records. now rewrite map_app, concat_app. Qed.

Lemma seek_file_of_records (pre rest : list (list byte)) :
  seek (file_of_records (pre ++ rest)) (span pre) = file_of_records rest.
Proof.
  rewrite file_of_records_app, <- file_of_records_length. apply seek_app_length.
Qed.

(** A read that starts just after the records [pre] and has budget for
    the records [rest] that follow returns them, and ends at the size of
    the file. *)
Lemma Read_from_boundary (w : World) (s s1 : ClaudeStorage)
    (streamID path offset : string) (limit : Z) (pre rest : list (list byte)) :
  getPath w s streamID = (s1, Ok path) ->
  fs_files w !! path = Some (file_of_records (pre ++ rest)) ->
  offsetToInt offset = span pre ->
  rest <> [] ->
  Forall (Forall (fun b => b <> newline)) rest ->
  Forall (fun r => last r <> Some carriage_return) rest ->
  Forall fits_scanner rest ->
  span (pre ++ rest) < max_int64 ->
  payload rest <= limit ->
  exists r : ReadResult,
    Read w s streamID offset limit = (s1, Ok r) /\
    map Data (Messages r) = rest /\
    NextOffset r = offsetFromInt (span (pre ++ rest)) /\
    TailOffset r = offsetFromInt (span (pre ++ rest)).
Proof.
  intros Hres Hfile Hoff Hne Hnl Hcr Hfit Hsize Hlim.
  pose proof (span_nonneg pre) as Hpre.
  destruct (Read_spec w s s1 streamID path offset limit (file_of_records (pre ++ rest))
              Hres Hfile) as (j & Hj & Heq & Hstop & _).
  { rewrite file_of_records_length, span_app. pose proof (span_nonneg rest). lia. }
  { now rewrite file_of_records_length. }
  { rewrite Hoff, seek_file_of_records, raw_lines_file_of_records by exact Hnl.
    exact Hfit. }
  rewrite Hoff, seek_file_of_records, scanner_lines_file_of_records in * by assumption.
  assert (Hjn : j = length rest).
  { destruct (Nat.eq_dec j (length rest)) as [E|E]; [exact E|].
    destruct Hstop as [H1 _]; [lia|].
    pose proof (payload_firstn_le rest (S j)). lia. }
  subst j. rewrite firstn_all in Heq.
  eexists. split; [exact Heq|]. cbn [Messages NextOffset TailOffset].
  split; [apply build_messages_Data|].
  rewrite file_of_records_length, span_app. split; [|reflexivity].
  destruct rest as [|r0 rest]; [contradiction|]. reflexivity.
Qed.

(** X20: two reads cover the file: on a file of newline-terminated
    records (no carriage return before the newline), a first read from the
    start whose budget holds [k >= 1] records but not [k + 1], followed by
    a read from the next offset it returned with budget for the rest,
    return all the records between them, in order and once each, and the
    second ends at the size of the file. *)
Theorem Read_resume (w : World) (s s1 : ClaudeStorage)
    (streamID path offset : string) (limit1 limit2 : Z)
    (records : list (list byte)) (k : nat) :
  getPath w s streamID = (s1, Ok path) ->
  fs_files w !! path = Some (file_of_records records) ->
  offsetToInt offset = 0 ->
  Forall (Forall (fun b => b <> newline)) records ->
  Forall (fun r => last r <> Some carriage_return) records ->
  Forall fits_scanner records ->
  span records < max_int64 ->
  (1 <= k < length records)%nat ->
  payload (firstn k records) <= limit1 < payload (firstn (S k) records) ->
  payload (skipn k records) <= limit2 ->
  ZeroOffset <> offsetFromInt (span (firstn k records)) ->
  exists r1 r2 : ReadResult,
    Read w s streamID offset limit1 = (s1, Ok r1) /\
    Read w s1 streamID (NextOffset r1) limit2 = (s1, Ok r2) /\
    map Data (Messages r1) ++ map Data (Messages r2) = records /\
    NextOffset r2 = offsetFromInt (Z.of_nat (length (file_of_records records))).
Proof.
  intros Hres Hfile Hoff Hnl Hcr Hfit Hsize Hk Hb1 Hb2 HZ.
  destruct (Read_k_records w s s1 streamID path offset limit1 records k
              Hres Hfile Hoff Hnl Hcr Hfit Hsize Hk Hb1) as (r1 & Hr1 & Hd1 & Hn1).
  assert (Hend : end_of_record records (k - 1) = span (firstn k records)).
  { unfold end_of_record. now replace (S (k - 1)) with k by lia. }
  rewrite Hend in Hn1.
  pose proof (span_nonneg (firstn k records)) as H0.
  pose proof (span_firstn_le records k) as Hle.
  assert (Hdec : offsetToInt (NextOffset r1) = span (firstn k records)).
  { rewrite Hn1. apply offsetToInt_encoded; [lia|]. intros E. contradiction. }
  pose proof (firstn_skipn k records) as Hsplit.
  destruct (Read_from_boundary w s1 s1 streamID path (NextOffset r1) limit2
              (firstn k records) (skipn k records)) as (r2 & Hr2 & Hd2 & Hn2 & _).
  - exact (getPath_cached_aux w w s s1 streamID path Hres).
  - now rewrite Hsplit.
  - exact Hdec.
  - intros E. apply (f_equal (@length _)) in E. rewrite length_skipn in E. cbn in E. lia.
  - rewrite <- Hsplit in Hnl. apply Forall_app in Hnl. tauto.
  - rewrite <- Hsplit in Hcr. apply Forall_app in Hcr. tauto.
  - rewrite <- Hsplit in Hfit. apply Forall_app in Hfit. tauto.
  - now rewrite Hsplit.
  - exact Hb2.
  - exists r1, r2. split; [exact Hr1|]. split; [exact Hr2|].
    split; [now rewrite Hd1, Hd2|].
    now rewrite Hn2, Hsplit, file_of_records_length.
Qed.

(** ** A last line without a newline *)

Lemma raw_lines_tail (cur tail : list byte) :
  Forall (fun b => b <> newline) tail -> rev cur ++ tail <> [] ->
  raw_lines cur tail = [rev cur ++ tail].
Proof.
  revert cur. induction tail as [|b tail IH]; intros cur Hnl Hne.
  - rewrite app_nil_r in *. cbn [raw_lines]. destruct cur; [contradiction|reflexivity].
  - apply Forall_cons in Hnl as [Hb Hnl]. cbn [raw_lines].
    destruct (Byte.eqb b newline) eqn:E; [apply Byte.byte_dec_bl in E; contradiction|].
    rewrite IH; [|exact Hnl|].
    + cbn [rev]. now rewrite <- app_assoc.
    + cbn [rev]. rewrite <- app_assoc. cbn. now destruct (rev cur).
Qed.

Lemma raw_lines_records_tail (cur : list byte) (records : list (list byte))
    (tail : list byte) :
  Forall (Forall (fun b => b <> newline)) records ->
  Forall (fun b => b <> newline) tail -> tail <> [] ->
  raw_lines cur (file_of_records records ++ tail) =
  match records with
  | [] => [rev cur ++ tail]
  | r :: rs => (rev cur ++ r) :: rs ++ [tail]
  end.
Proof.
  revert cur. induction records as [|r rs IH]; intros cur Hnl Htail Hne.
  - cbn [file_of_records map concat app]. apply raw_lines_tail; [exact Htail|].
    intros E. apply app_eq_nil in E. tauto.
  - apply Forall_cons in Hnl as [Hr Hnl].
    unfold file_of_records. cbn [map concat]. rewrite <- !app_assoc. cbn [app].
    rewrite raw_lines_record by exact Hr. f_equal.
    fold (file_of_records rs). rewrite (IH [] Hnl Htail Hne).
    destruct rs; reflexivity.
Qed.

(** X21: a last line that has no newline yet is returned like the
    others, and counted with one: on a file of newline-terminated records
    followed by a non-empty unterminated line, a read from the start with
    budget enough returns the records and that line, and its next offset
    is the encoding of the size of the file plus one, one position past
    the tail offset. *)
Theorem Read_unterminated_last_line (w : World) (s s1 : ClaudeStorage)
    (streamID path offset : string) (limit : Z)
    (records : list (list byte)) (tail : list byte) :
  getPath w s streamID = (s1, Ok path) ->
  fs_files w !! path = Some (file_of_records records ++ tail) ->
  offsetToInt offset = 0 ->
  tail <> [] ->
  Forall (Forall (fun b => b <> newline)) (records ++ [tail]) ->
  Forall (fun r => last r <> Some carriage_return) (records ++ [tail]) ->
  Forall fits_scanner (records ++ [tail]) ->
  span (records ++ [tail]) < max_int64 ->
  payload (records ++ [tail]) <= limit ->
  exists r : ReadResult,
    Read w s streamID offset limit = (s1, Ok r) /\
    map Data (Messages r) = records ++ [tail] /\
    NextOffset r =
      offsetFromInt (Z.of_nat (length (file_of_records records ++ tail)) + 1) /\
    TailOffset r = offsetFromInt (Z.of_nat (length (file_of_records records ++ tail))).
Proof.
  intros Hres Hfile Hoff Hne Hnl Hcr Hfit Hsize Hlim.
  assert (Hlines : raw_lines [] (file_of_records records ++ tail) = records ++ [tail]).
  { apply Forall_app in Hnl as [Hnl1 Hnl2]. apply Forall_cons in Hnl2 as [Hnl2 _].
    rewrite raw_lines_records_tail by assumption. now destruct records. }
  assert (Hlen : Z.of_nat (length (file_of_records records ++ tail)) + 1
                 = span (records ++ [tail])).
  { rewrite length_app, Nat2Z.inj_add, file_of_records_length, span_app. cbn. lia. }
  assert (Hsl : scanner_lines (file_of_records records ++ tail) = records ++ [tail]).
  { unfold scanner_lines. rewrite Hlines. clear -Hcr.
    induction Hcr as [|r rs Hr _ IH]; [reflexivity|].
    cbn [map]. now rewrite dropCR_no_CR, IH. }
  destruct (Read_spec w s s1 streamID path offset limit (file_of_records records ++ tail)
              Hres Hfile) as (j & Hj & Heq & Hstop & _).
  { lia. }
  { lia. }
  { rewrite Hoff, seek_0, Hlines. exact Hfit. }
  rewrite Hoff, seek_0, Hsl in *.
  assert (Hjn : j = length (records ++ [tail])).
  { destruct (Nat.eq_dec j (length (records ++ [tail]))) as [E|E]; [exact E|].
    destruct Hstop as [H1 _]; [lia|].
    pose proof (payload_firstn_le (records ++ [tail]) (S j)). lia. }
  subst j. rewrite firstn_all in Heq.
  eexists. split; [exact Heq|]. cbn [Messages NextOffset TailOffset].
  split; [apply build_messages_Data|]. split; [|reflexivity].
  rewrite Hlen, Z.add_0_l.
  destruct (records ++ [tail]) as [|x l] eqn:E; [|reflexivity].
  apply app_eq_nil in E. destruct E as [_ E]. discriminate.
Qed.

(* ===================================================================== *)
(** * The watch loop *)
(* ===================================================================== *)

Lemma try_send_lookup (c ch : nat) (v : string) (cs : gmap nat Chan) :
  try_send c v cs !! ch = if decide (c = ch) then sent v (cs !! ch) else cs !! ch.
Proof.
  unfold try_send, sent. destruct (decide (c = ch)) as [->|Hne].
  - destruct (cs !! ch) as [[[b|] [|]]|] eqn:E; rewrite ?E; try reflexivity.
    apply lookup_insert_eq.
  - destruct (cs !! c) as [[[b|] [|]]|]; try reflexivity.
    now rewrite lookup_insert_ne.
Qed.

Lemma sent_idem (v : string) (oc : option Chan) : sent v (sent v oc) = sent v oc.
Proof. destruct oc as [[[b|] [|]]|]; reflexivity. Qed.

(** The notification of a list of subscribers, channel by channel. *)
Lemma notify_lookup (v : string) (subs : list nat) (cs : gmap nat Chan) (ch : nat) :
  fold_left (fun cs ch => try_send ch v cs) subs cs !! ch =
  if decide (ch ∈ subs) then sent v (cs !! ch) else cs !! ch.
Proof.
  revert cs. induction subs as [|c subs IH]; intros cs.
  - cbn. destruct (decide (ch ∈ [])) as [H|_]; [|reflexivity].
    now apply elem_of_nil in H.
  - cbn [fold_left]. rewrite IH, try_send_lookup.
    destruct (decide (c = ch)) as [->|Hne].
    + rewrite sent_idem.
      destruct (decide (ch ∈ ch :: subs)) as [_|H]; [|exfalso; apply H; left].
      now destruct (decide (ch ∈ subs)).
    + destruct (decide (ch ∈ subs)) as [Hin|Hnin].
      * destruct (decide (ch ∈ c :: subs)) as [_|H]; [reflexivity|].
        exfalso. apply H. now right.
      * destruct (decide (ch ∈ c :: subs)) as [H|_]; [|reflexivity].
        apply elem_of_cons in H as [->|H]; contradiction.
Qed.

Lemma handleEvent_unfold (w : World) (ev : Event) (s : ClaudeStorage) :
  handleEvent w ev s =
  if relevant ev then
    let s1 :=
      if String.eqb (ev_Name ev) (Join [claudeDir s; "history.jsonl"]) then s
      else set_fileIndex (<[streamID_of_path (ev_Name ev) := ev_Name ev]> (fileIndex s)) s in
    set_chans
      (fold_left (fun cs ch => try_send ch (fst (getTailOffset w (ev_Name ev))) cs)
         (default [] (subscribers s !! event_stream s ev)) (chans s))
      s1
  else s.
Proof.
  unfold handleEvent, relevant, event_stream, streamID_of_path.
  destruct (negb _); [|reflexivity]. cbn [andb].
  destruct (HasSuffix _ _); [|reflexivity].
  destruct (String.eqb _ _); reflexivity.
Qed.

Lemma handleEvent_spec_aux (w : World) (ev : Event) (s : ClaudeStorage) :
  let s' := handleEvent w ev s in
  let tail := match os_Stat w (ev_Name ev) with
              | Some size => offsetFromInt size
              | None => ZeroOffset
              end in
  (relevant ev = false -> s' = s) /\
  (relevant ev = true ->
     subscribers s' = subscribers s /\
     fileIndex s' =
       (if String.eqb (ev_Name ev) (Join [claudeDir s; "history.jsonl"])
        then fileIndex s
        else <[streamID_of_path (ev_Name ev) := ev_Name ev]> (fileIndex s)) /\
     forall ch : nat,
       chans s' !! ch =
       if decide (ch ∈ default [] (subscribers s !! event_stream s ev))
       then sent tail (chans s !! ch)
       else chans s !! ch).
Proof.
  cbv zeta. rewrite handleEvent_unfold. split.
  - intros ->. reflexivity.
  - intros ->. cbv zeta.
    assert (Htail : fst (getTailOffset w (ev_Name ev)) =
                    match os_Stat w (ev_Name ev) with
                    | Some size => offsetFromInt size
                    | None => ZeroOffset
                    end).
    { unfold getTailOffset. now destruct (os_Stat w (ev_Name ev)). }
    rewrite Htail.
    split; [now destruct (String.eqb _ _)|].
    split; [now destruct (String.eqb _ _)|].
    intros ch. cbn [set_chans chans]. apply notify_lookup.
Qed.

(** X22: a turn of the watch loop on a write or a creation of a
    [.jsonl] file never changes the registry; it maps the identifier of
    the file to the path of the event (the history file keeps its entry);
    and it offers the tail offset to the subscribers of that stream and
    to no other channel: a subscriber whose channel is open and empty
    gets it, one whose buffer is full keeps what it holds.  The tail
    offset is the encoded size of the file, or the "from the beginning"
    token when the file cannot be stat'ed.  Any other event changes
    nothing. *)
Theorem handleEvent_spec (w : World) (ev : Event) (s : ClaudeStorage) :
  let s' := handleEvent w ev s in
  let tail := match os_Stat w (ev_Name ev) with
              | Some size => offsetFromInt size
              | None => ZeroOffset
              end in
  (relevant ev = false -> s' = s) /\
  (relevant ev = true ->
     subscribers s' = subscribers s /\
     fileIndex s' =
       (if String.eqb (ev_Name ev) (Join [claudeDir s; "history.jsonl"])
        then fileIndex s
        else <[streamID_of_path (ev_Name ev) := ev_Name ev]> (fileIndex s)) /\
     forall ch : nat,
       chans s' !! ch =
       if decide (ch ∈ default [] (subscribers s !! event_stream s ev))
       then sent tail (chans s !! ch)
       else chans s !! ch).
Proof. apply handleEvent_spec_aux. Qed.

(** X23: a write or a creation seen by the watch loop makes the file
    the answer of the next resolution: after the turn, [getPath] on the
    identifier of the file returns the path of the event, from the index
    and whatever the files are by then. *)
Theorem getPath_after_event (w w' : World) (ev : Event) (s : ClaudeStorage) :
  relevant ev = true ->
  String.eqb (ev_Name ev) (Join [claudeDir s; "history.jsonl"]) = false ->
  getPath w' (handleEvent w ev s) (streamID_of_path (ev_Name ev))
    = (handleEvent w ev s, Ok (ev_Name ev)).
Proof.
  intros Hrel Hhist. apply getPath_indexed.
  assert (Hsuf : HasSuffix (ev_Name ev) jsonl = true).
  { unfold relevant in Hrel. now apply andb_true_iff in Hrel as [_ Hrel]. }
  destruct (streamID_of_path_Base_aux _ Hsuf) as (_ & _ & ->).
  rewrite handleEvent_unfold, Hrel, Hhist. cbn. apply lookup_insert_eq.
Qed.

(* ===================================================================== *)
(** * Subscriptions *)
(* ===================================================================== *)

Lemma getPath_chans (w : World) (s : ClaudeStorage) (streamID : string) :
  chans (fst (getPath w s streamID)) = chans s /\
  subscribers (fst (getPath w s streamID)) = subscribers s.
Proof.
  destruct (getPath_effect w s streamID) as [->|(_ & path & _ & ->)];
    split; reflexivity.
Qed.

Lemma Subscribe_registers_aux (w : World) (s s1 : ClaudeStorage)
    (streamID offset path : string) :
  let id := TrimPrefix streamID "/" in
  getPath w s id = (s1, Ok path) ->
  exists (s2 : ClaudeStorage) (ch : nat),
    Subscribe w s streamID offset = (s2, Ok ch) /\
    chans s !! ch = None /\
    chans s2 !! ch = Some {| chan_buf := None; chan_closed := false |} /\
    (forall c : nat, c <> ch -> chans s2 !! c = chans s !! c) /\
    subscribers s2 !! id = Some (default [] (subscribers s !! id) ++ [ch]) /\
    (forall k : string, k <> id -> subscribers s2 !! k = subscribers s !! k) /\
    fileIndex s2 = fileIndex s1 /\
    claudeDir s2 = claudeDir s.
Proof.
  intros id Hres. unfold Subscribe. fold id. rewrite Hres.
  destruct (getPath_chans w s id) as [Hc Hs]. rewrite Hres in Hc, Hs. cbn [fst] in Hc, Hs.
  assert (Hcd : claudeDir s1 = claudeDir s).
  { destruct (getPath_effect w s id) as [E|(_ & p & _ & E)];
      rewrite Hres in E; cbn [fst] in E; now rewrite E. }
  do 2 eexists. split; [reflexivity|].
  cbn [set_subscribers set_chans chans subscribers fileIndex claudeDir].
  rewrite Hc, Hs.
  split; [apply not_elem_of_dom, is_fresh|].
  split; [apply lookup_insert_eq|].
  split; [intros c Hne; now rewrite lookup_insert_ne|].
  split; [apply lookup_insert_eq|].
  split; [intros k Hne; now rewrite lookup_insert_ne|].
  split; [reflexivity|exact Hcd].
Qed.

(** X24: a subscription to a stream that resolves gives a channel that
    did not exist before, open and empty, and lists it after the earlier
    subscribers of the stream (the identifier with its leading slash
    stripped); the other lists of the registry and the other channels are
    left as they were. *)
Theorem Subscribe_registers (w : World) (s s1 : ClaudeStorage)
    (streamID offset path : string) :
  let id := TrimPrefix streamID "/" in
  getPath w s id = (s1, Ok path) ->
  exists (s2 : ClaudeStorage) (ch : nat),
    Subscribe w s streamID offset = (s2, Ok ch) /\
    chans s !! ch = None /\
    chans s2 !! ch = Some {| chan_buf := None; chan_closed := false |} /\
    (forall c : nat, c <> ch -> chans s2 !! c = chans s !! c) /\
    subscribers s2 !! id = Some (default [] (subscribers s !! id) ++ [ch]) /\
    (forall k : string, k <> id -> subscribers s2 !! k = subscribers s !! k) /\
    fileIndex s2 = fileIndex s1.
Proof.
  intros id Hres.
  destruct (Subscribe_registers_aux w s s1 streamID offset path Hres)
    as (s2 & ch & H1 & H2 & H3 & H4 & H5 & H6 & H7 & _).
  exists s2, ch. repeat split; assumption.
Qed.

(** X25: a subscriber hears of the next write: after a subscription to
    the stream of the file [ev_Name ev] (not the history file), a turn of
    the watch loop on a write or a creation of that file leaves the
    encoded size of the file in the channel of the subscription. *)
Theorem Subscribe_then_event (w w' : World) (s s1 : ClaudeStorage)
    (streamID offset path : string) (ev : Event) (content : list byte) :
  let id := TrimPrefix streamID "/" in
  getPath w s id = (s1, Ok path) ->
  relevant ev = true ->
  String.eqb (ev_Name ev) (Join [claudeDir s; "history.jsonl"]) = false ->
  streamID_of_path (ev_Name ev) = id ->
  fs_files w' !! ev_Name ev = Some content ->
  exists (s2 : ClaudeStorage) (ch : nat),
    Subscribe w s streamID offset = (s2, Ok ch) /\
    chans (handleEvent w' ev s2) !! ch =
      Some {| chan_buf := Some (offsetFromInt (Z.of_nat (length content)));
              chan_closed := false |}.
Proof.
  intros id Hres Hrel Hhist Hid Hfile.
  destruct (Subscribe_registers_aux w s s1 streamID offset path Hres)
    as (s2 & ch & Hsub & _ & Hch & _ & Hsubs & _ & _ & Hcd).
  fold id in Hsubs.
  exists s2, ch. split; [exact Hsub|].
  destruct (handleEvent_spec_aux w' ev s2) as [_ H]. destruct (H Hrel) as (_ & _ & Hchans).
  rewrite Hchans. unfold event_stream. rewrite Hcd, Hhist, Hid, Hsubs.
  unfold default at 1. cbn [from_option Datatypes.id].
  destruct (decide (ch ∈ default [] (subscribers s !! id) ++ [ch])) as [_|Hn].
  - rewrite Hch, (os_Stat_file w' _ content Hfile). reflexivity.
  - exfalso. apply Hn. apply elem_of_app. right. apply list_elem_of_singleton. reflexivity.
Qed.

(** ** Cancellation and the soundness of the registry *)

Lemma existsb_eqb_elem_of (ch : nat) (subs : list nat) :
  existsb (Nat.eqb ch) subs = true <-> ch ∈ subs.
Proof.
  rewrite existsb_exists. split.
  - intros (x & Hx & E). apply Nat.eqb_eq in E. subst x. now apply list_elem_of_In.
  - intros H. exists ch. split; [now apply list_elem_of_In | apply Nat.eqb_refl].
Qed.

Lemma remove_first_elem_of (ch x : nat) (subs : list nat) :
  NoDup subs -> (x ∈ remove_first ch subs <-> x ∈ subs /\ x <> ch).
Proof.
  intros Hnd. induction Hnd as [|c subs Hc Hnd IH]; cbn [remove_first].
  - split; [intros H; now apply elem_of_nil in H | intros [H _]; exact H].
  - destruct (Nat.eqb c ch) eqn:E.
    + apply Nat.eqb_eq in E. subst c. rewrite elem_of_cons. split.
      * intros H. split; [now right|]. intros ->. contradiction.
      * intros [[->|H] Hne]; [contradiction|exact H].
    + apply Nat.eqb_neq in E. rewrite !elem_of_cons, IH. split.
      * intros [->|[H Hne]]; [split; [now left|exact E] | split; [now right|exact Hne]].
      * intros [[->|H] Hne]; [now left | right; now split].
Qed.

Lemma remove_first_NoDup (ch : nat) (subs : list nat) :
  NoDup subs -> NoDup (remove_first ch subs).
Proof.
  intros Hnd. induction Hnd as [|c subs Hc Hnd IH]; cbn [remove_first]; [constructor|].
  destruct (Nat.eqb c ch); [exact Hnd|].
  constructor; [|exact IH]. rewrite remove_first_elem_of by exact Hnd. tauto.
Qed.

Lemma remove_first_snoc (ch : nat) (old : list nat) :
  ch ∉ old -> remove_first ch (old ++ [ch]) = old.
Proof.
  induction old as [|c old IH]; intros Hn; cbn [app remove_first].
  - now rewrite Nat.eqb_refl.
  - apply not_elem_of_cons in Hn as [Hne Hn].
    destruct (Nat.eqb c ch) eqn:E; [apply Nat.eqb_eq in E; congruence|].
    now rewrite IH.
Qed.

(** The cancellation of a registered channel. *)
Lemma cancel_registered (s : ClaudeStorage) (id : string) (ch : nat)
    (subs : list nat) (c : Chan) :
  subscribers s !! id = Some subs -> ch ∈ subs -> chans s !! ch = Some c ->
  cancel s id ch =
  set_chans (<[ch := {| chan_buf := chan_buf c; chan_closed := true |}]> (chans s))
    (set_subscribers (<[id := remove_first ch subs]> (subscribers s)) s).
Proof.
  intros Hs Hin Hc. unfold cancel. rewrite Hs. cbn [default from_option Datatypes.id].
  rewrite (proj2 (existsb_eqb_elem_of ch subs) Hin).
  cbn [set_subscribers chans]. now rewrite Hc.
Qed.

(** X26: a subscription that is cancelled leaves the registry as it
    found it: on a sound registry, after [Subscribe] and the cancellation
    of the channel it returned, the stream has the subscribers it had
    before, in the same order, the other streams and the other channels
    are untouched, and the channel of the subscription is closed. *)
Theorem Subscribe_then_cancel (w : World) (s s1 : ClaudeStorage)
    (streamID offset path : string) :
  let id := TrimPrefix streamID "/" in
  registry_ok s ->
  getPath w s id = (s1, Ok path) ->
  exists (s2 : ClaudeStorage) (ch : nat),
    Subscribe w s streamID offset = (s2, Ok ch) /\
    default [] (subscribers (cancel s2 id ch) !! id) = default [] (subscribers s !! id) /\
    (forall k : string, k <> id ->
       subscribers (cancel s2 id ch) !! k = subscribers s !! k) /\
    chans (cancel s2 id ch) !! ch = Some {| chan_buf := None; chan_closed := true |} /\
    (forall c : nat, c <> ch -> chans (cancel s2 id ch) !! c = chans s !! c).
Proof.
  intros id Hok Hres.
  destruct (Subscribe_registers_aux w s s1 streamID offset path Hres)
    as (s2 & ch & Hsub & Hfresh & Hch & Hother & Hsubs & Hk & _).
  fold id in Hsubs, Hk.
  exists s2, ch. split; [exact Hsub|].
  assert (Hnin : ch ∉ default [] (subscribers s !! id)).
  { destruct (subscribers s !! id) as [old|] eqn:Hold; [|apply not_elem_of_nil].
    cbn. intros Hin. destruct Hok as (H1 & _).
    destruct (H1 id old ch Hold Hin) as (c & Hc & _). congruence. }
  rewrite (cancel_registered s2 id ch _ _ Hsubs ltac:(apply elem_of_app; right;
             apply list_elem_of_singleton; reflexivity) Hch).
  cbn [set_chans set_subscribers subscribers chans chan_buf].
  rewrite remove_first_snoc by exact Hnin.
  split; [now rewrite lookup_insert_eq|].
  split; [intros k Hne; rewrite lookup_insert_ne by congruence; now apply Hk|].
  split; [apply lookup_insert_eq|].
  intros c Hne. rewrite lookup_insert_ne by congruence. now apply Hother.
Qed.

Lemma registry_ok_same (s s' : ClaudeStorage) :
  subscribers s' = subscribers s -> chans s' = chans s ->
  registry_ok s -> registry_ok s'.
Proof. unfold registry_ok. intros -> ->. tauto. Qed.

Lemma sent_open (v : string) (oc : option Chan) :
  (exists c, oc = Some c /\ chan_closed c = false) ->
  exists c, sent v oc = Some c /\ chan_closed c = false.
Proof.
  intros (c & -> & Hc). destruct c as [[b|] [|]]; try discriminate; cbn; eauto.
Qed.

Lemma handleEvent_registry_ok (w : World) (ev : Event) (s : ClaudeStorage) :
  registry_ok s -> registry_ok (handleEvent w ev s).
Proof.
  intros Hok. destruct (handleEvent_spec_aux w ev s) as [Hno Hyes].
  destruct (relevant ev) eqn:Hrel; [|now rewrite Hno].
  destruct (Hyes eq_refl) as (Hs & _ & Hc).
  destruct Hok as (H1 & H2 & H3). unfold registry_ok. rewrite Hs.
  split; [|split; assumption].
  intros id subs ch Hsubs Hin. rewrite Hc.
  specialize (H1 id subs ch Hsubs Hin).
  destruct (decide _); [now apply sent_open|exact H1].
Qed.

Lemma Subscribe_registry_ok (w : World) (s : ClaudeStorage) (streamID offset : string) :
  registry_ok s -> registry_ok (fst (Subscribe w s streamID offset)).
Proof.
  intros Hok.
  destruct (getPath w s (TrimPrefix streamID "/")) as [s1 [path|e]] eqn:Hres.
  2:{ unfold Subscribe. rewrite Hres. cbn [fst].
      apply getPath_Err in Hres as [-> _]. exact Hok. }
  destruct (Subscribe_registers_aux w s s1 streamID offset path Hres)
    as (s2 & ch & Hsub & Hfresh & Hch & Hother & Hsubs & Hk & _).
  rewrite Hsub. cbn [fst]. set (id := TrimPrefix streamID "/") in *.
  destruct Hok as (H1 & H2 & H3).
  assert (Hreg : forall k subs c, subscribers s !! k = Some subs -> c ∈ subs -> c <> ch).
  { intros k subs c Hs Hin ->. destruct (H1 k subs ch Hs Hin) as (x & Hx & _). congruence. }
  assert (Hold : forall c, c ∈ default [] (subscribers s !! id) ->
            exists subs, subscribers s !! id = Some subs /\ c ∈ subs).
  { intros c Hin. destruct (subscribers s !! id) as [subs|]; [eauto|].
    now apply elem_of_nil in Hin. }
  assert (Hlook : forall k subs, subscribers s2 !! k = Some subs ->
            (k = id /\ subs = default [] (subscribers s !! id) ++ [ch]) \/
            (k <> id /\ subscribers s !! k = Some subs)).
  { intros k subs Hs. destruct (decide (k = id)) as [->|Hne].
    - left. split; [reflexivity|]. congruence.
    - right. split; [exact Hne|]. now rewrite <- Hk. }
  split; [|split].
  - intros k subs c Hs Hin.
    destruct (Hlook k subs Hs) as [[-> ->]|[Hne Hs']].
    + apply elem_of_app in Hin as [Hin|Hin].
      * destruct (Hold c Hin) as (subs & Hs' & Hin').
        rewrite Hother by exact (Hreg _ _ _ Hs' Hin'). exact (H1 _ _ _ Hs' Hin').
      * apply list_elem_of_singleton in Hin. subst c. eauto.
    + rewrite Hother by exact (Hreg _ _ _ Hs' Hin). exact (H1 _ _ _ Hs' Hin).
  - intros k subs Hs. destruct (Hlook k subs Hs) as [[-> ->]|[Hne Hs']]; [|eauto].
    apply NoDup_app. split; [|split].
    + destruct (subscribers s !! id) as [old|] eqn:E; [exact (H2 _ _ E)|constructor].
    + intros c Hin Hc. apply list_elem_of_singleton in Hc. subst c.
      destruct (Hold ch Hin) as (subs & Hs' & Hin'). exact (Hreg _ _ _ Hs' Hin' eq_refl).
    + apply NoDup_singleton.
  - intros k1 k2 subs1 subs2 c Hs1 Hs2 Hin1 Hin2.
    destruct (Hlook k1 subs1 Hs1) as [[-> ->]|[Hne1 Hs1']];
      destruct (Hlook k2 subs2 Hs2) as [[-> ->]|[Hne2 Hs2']]; [reflexivity| | |eauto].
    + apply elem_of_app in Hin1 as [Hin1|Hin1].
      * destruct (Hold c Hin1) as (subs & Hs' & Hin'). eauto.
      * apply list_elem_of_singleton in Hin1. subst c.
        exfalso. exact (Hreg _ _ _ Hs2' Hin2 eq_refl).
    + apply elem_of_app in Hin2 as [Hin2|Hin2].
      * destruct (Hold c Hin2) as (subs & Hs' & Hin'). eauto.
      * apply list_elem_of_singleton in Hin2. subst c.
        exfalso. exact (Hreg _ _ _ Hs1' Hin1 eq_refl).
Qed.

Lemma cancel_registry_ok (s : ClaudeStorage) (id : string) (ch : nat) :
  ch ∈ default [] (subscribers s !! id) ->
  registry_ok s -> registry_ok (cancel s id ch).
Proof.
  intros Hin Hok.
  destruct (subscribers s !! id) as [subs|] eqn:Hsubs; [|now apply elem_of_nil in Hin].
  cbn in Hin. destruct Hok as (H1 & H2 & H3).
  destruct (H1 id subs ch Hsubs Hin) as (c & Hc & Hopen).
  rewrite (cancel_registered s id ch subs c Hsubs Hin Hc).
  pose proof (H2 id subs Hsubs) as Hnd.
  assert (Hlook : forall k l, <[id := remove_first ch subs]> (subscribers s) !! k = Some l ->
            (k = id /\ l = remove_first ch subs) \/ (k <> id /\ subscribers s !! k = Some l)).
  { intros k l Hl. destruct (decide (k = id)) as [->|Hne].
    - left. rewrite lookup_insert_eq in Hl. split; congruence.
    - right. rewrite lookup_insert_ne in Hl by congruence. now split. }
  assert (Hmem : forall k l x,
            <[id := remove_first ch subs]> (subscribers s) !! k = Some l -> x ∈ l ->
            x <> ch /\ exists l', subscribers s !! k = Some l' /\ x ∈ l').
  { intros k l x Hl Hx. destruct (Hlook k l Hl) as [[-> ->]|[Hne Hl']].
    - apply remove_first_elem_of in Hx as [Hx Hne]; [|exact Hnd]. eauto.
    - split; [|eauto]. intros ->. apply Hne. exact (H3 k id l subs ch Hl' Hsubs Hx Hin). }
  unfold registry_ok. cbn [set_chans set_subscribers subscribers chans].
  split; [|split].
  - intros k l x Hl Hx. destruct (Hmem k l x Hl Hx) as (Hne & l' & Hl' & Hx').
    rewrite lookup_insert_ne by congruence. exact (H1 k l' x Hl' Hx').
  - intros k l Hl. destruct (Hlook k l Hl) as [[-> ->]|[Hne Hl']]; [|eauto].
    now apply remove_first_NoDup.
  - intros k1 k2 l1 l2 x Hl1 Hl2 Hx1 Hx2.
    destruct (Hmem k1 l1 x Hl1 Hx1) as (_ & l1' & Hl1' & Hx1').
    destruct (Hmem k2 l2 x Hl2 Hx2) as (_ & l2' & Hl2' & Hx2'). eauto.
Qed.

Lemma step_registry_ok (st : Step) (sys : System) :
  step_allowed st sys ->
  registry_ok (sys_storage sys) -> registry_ok (sys_storage (step st sys)).
Proof.
  intros Hst Hok.
  destruct st; cbn [step sys_storage Create Append AppendFrom Delete fst]; try exact Hok.
  - destruct (indexFiles_spec_aux (sys_world sys) (sys_storage sys) EmptyString)
      as (_ & _ & Hs & Hc).
    exact (registry_ok_same _ _ Hs Hc Hok).
  - now apply handleEvent_registry_ok.
  - destruct (getPath_chans (sys_world sys) (sys_storage sys) streamID) as [Hc Hs].
    exact (registry_ok_same _ _ Hs Hc Hok).
  - rewrite Head_storage.
    destruct (getPath_chans (sys_world sys) (sys_storage sys) streamID) as [Hc Hs].
    exact (registry_ok_same _ _ Hs Hc Hok).
  - rewrite Read_storage.
    destruct (getPath_chans (sys_world sys) (sys_storage sys) streamID) as [Hc Hs].
    exact (registry_ok_same _ _ Hs Hc Hok).
  - now apply Subscribe_registry_ok.
  - now apply cancel_registry_ok.
Qed.

Lemma run_registry_ok (steps : list Step) (sys : System) :
  run_allowed steps sys ->
  registry_ok (sys_storage sys) -> registry_ok (sys_storage (run steps sys)).
Proof.
  revert sys. induction steps as [|st steps IH]; intros sys Hrun Hok; [exact Hok|].
  destruct Hrun as [Hst Hrun]. cbn [run fold_left].
  apply (IH (step st sys) Hrun). now apply step_registry_ok.
Qed.

Lemma NewClaudeStorage_registry_ok (w : World) (dir : string) :
  registry_ok (NewClaudeStorage w dir).
Proof.
  destruct (NewClaudeStorage_spec_aux w dir) as (Hs & _).
  unfold registry_ok. rewrite Hs.
  repeat split; intros *; rewrite lookup_empty; discriminate.
Qed.

(** X27: the watch loop never meets a closed channel: from a new
    storage, after any run of steps in which a subscription is cancelled
    only for its own stream and channel and while it is registered, every
    channel listed in the registry exists and is open, no list names a
    channel twice, and no channel is listed under two streams. *)
Theorem registry_stays_sound (w : World) (dir : string) (steps : list Step) :
  let sys0 := {| sys_world := w; sys_storage := NewClaudeStorage w dir |} in
  run_allowed steps sys0 ->
  registry_ok (sys_storage (run steps sys0)).
Proof.
  intros sys0 Hrun. apply run_registry_ok; [exact Hrun|].
  apply NewClaudeStorage_registry_ok.
Qed.


End Storage.

(* ===================================================================== *)
(** * The adapter on the small tree *)
(* ===================================================================== *)

Example getPath_deep_sample :
  snd (getPath sample_Join sample_world sample_storage "deep")
  = Ok "/c/projects/p/a/deep.jsonl".
Proof. vm_compute. reflexivity. Qed.

Example Read_recs_budget_7 :
  snd (Read sample_ZeroOffset sample_Join sample_world sample_storage
         "recs" (offsetFromInt 0) 7)
  = Ok {| Messages := [ {| Data := bytes "alpha"; Offset := offsetFromInt 6 |};
                        {| Data := bytes "be"; Offset := offsetFromInt 9 |} ];
          NextOffset := offsetFromInt 9;
          TailOffset := offsetFromInt 15 |}.
Proof. vm_compute. reflexivity. Qed.

Example Read_recs_tight_budget :
  snd (Read sample_ZeroOffset sample_Join sample_world sample_storage "recs" "-1" 3)
  = Ok {| Messages := [ {| Data := bytes "alpha"; Offset := offsetFromInt 6 |} ];
          NextOffset := offsetFromInt 6;
          TailOffset := offsetFromInt 15 |}.
Proof. vm_compute. reflexivity. Qed.

Lemma offsetFromInt_strictly_monotone_witness :
  string_lt (offsetFromInt 9) (offsetFromInt 10) /\
  (String.length (offsetFromInt 9) = 20%nat /\ all_digits (offsetFromInt 9) = true) /\
  (String.length (offsetFromInt 10) = 20%nat /\ all_digits (offsetFromInt 10) = true).
Proof.
  apply (offsetFromInt_strictly_monotone 9 10); [lia | lia | vm_compute; discriminate].
Defined.

Lemma offsetToInt_offsetFromInt_witness :
  offsetToInt sample_ZeroOffset (offsetFromInt 1024) = 1024 /\
  offsetFromInt 0 = "00000000000000000000" /\
  offsetToInt sample_ZeroOffset (offsetFromInt 0) = 0.
Proof.
  apply (offsetToInt_offsetFromInt sample_ZeroOffset 1024).
  - vm_compute. split; discriminate.
  - vm_compute. intros H. discriminate H.
Defined.

Lemma offsetToInt_lenient_witness :
  offsetToInt sample_ZeroOffset "12x4" = 0 /\
  offsetToInt sample_ZeroOffset "5" = 5.
Proof.
  split.
  - apply (offsetToInt_lenient sample_ZeroOffset "12x4").
    right. right. vm_compute. reflexivity.
  - change 5 with (Z.min (decimal_value "5") max_int64).
    apply (offsetToInt_lenient sample_ZeroOffset "5").
    + reflexivity.
    + intros H. discriminate H.
Defined.

(** C4 as stated fails whatever the "from the beginning" token is: the
    tokens ["5"] and ["7"] are no encodings, and at most one of them can
    be that token; the other decodes to its number, not to 0. *)
Lemma offsetToInt_malformed_not_zero :
  ~ (exists Z0 : string,
       forall o : string,
         (forall p : Z, o <> offsetFromInt p) -> offsetToInt Z0 o = 0).
Proof.
  intros [Z0 H].
  assert (Hshort : forall o : string,
            (String.length o < 20)%nat -> forall p : Z, o <> offsetFromInt p).
  { intros o Ho p ->. pose proof (offsetFromInt_length_ge p). lia. }
  pose proof (H "5" (Hshort "5" ltac:(cbn; lia))) as H5.
  pose proof (H "7" (Hshort "7" ltac:(cbn; lia))) as H7.
  unfold offsetToInt in H5, H7.
  destruct (String.eqb "5" Z0) eqn:E5.
  - apply String.eqb_eq in E5. subst Z0. vm_compute in H7. discriminate.
  - vm_compute in H5. discriminate.
Qed.

Lemma long_line_length : Z.of_nat (length long_line) = maxTokenSize.
Proof.
  unfold long_line. rewrite repeat_length. apply Z2Nat.id.
  unfold maxTokenSize. lia.
Qed.

Lemma long_line_no_newline : Forall (fun b => b <> newline) long_line.
Proof.
  unfold long_line. apply List.Forall_forall. intros b Hb.
  apply (repeat_spec (Z.to_nat maxTokenSize) x61 b) in Hb. subst b.
  intros H. discriminate H.
Qed.





Lemma getPath_fallback_walk_witness :
  exists s' : ClaudeStorage,
    getPath sample_Join sample_world sample_storage "deep"
      = (s', Ok "/c/projects/p/a/deep.jsonl") /\
    fileIndex s' = <["deep" := "/c/projects/p/a/deep.jsonl"]> (fileIndex sample_storage) /\
    fileIndex s' !! "deep" = Some "/c/projects/p/a/deep.jsonl" /\
    subscribers s' = subscribers sample_storage /\ chans s' = chans sample_storage.
Proof.
  apply (getPath_fallback_walk sample_Join sample_world sample_storage "deep"
           (firstn 4 sample_walk) (skipn 5 sample_walk)
           {| entry_path := "/c/projects/p/a/deep.jsonl";
              entry_isDir := false; entry_err := false |}).
  - vm_compute. reflexivity.
  - vm_compute. right. reflexivity.
  - vm_compute. reflexivity.
  - vm_compute. repeat constructor.
  - vm_compute. reflexivity.
Defined.


(* ===================================================================== *)
(** * More runs on the small tree *)
(* ===================================================================== *)

Lemma offsetFromInt_order_embedding_witness :
  String.compare (offsetFromInt 3) (offsetFromInt 12) = (3 ?= 12) /\
  (offsetFromInt 3 = offsetFromInt 12 -> 3 = 12).
Proof.
  apply (offsetFromInt_order_embedding 3 12); vm_compute; split; discriminate.
Defined.

Lemma offsetToInt_decimal_witness :
  offsetToInt sample_ZeroOffset "99999999999999999999"
  = Z.min (decimal_value "99999999999999999999") max_int64.
Proof.
  apply (offsetToInt_decimal sample_ZeroOffset "99999999999999999999").
  - reflexivity.
  - intros H. discriminate H.
Defined.

Lemma streamID_of_path_Base_witness :
  Base "/c/projects/p/a/deep.jsonl"
    = (streamID_of_path "/c/projects/p/a/deep.jsonl" +:+ jsonl) /\
  no_slash (streamID_of_path "/c/projects/p/a/deep.jsonl") = true /\
  TrimPrefix (streamID_of_path "/c/projects/p/a/deep.jsonl") "/"
    = streamID_of_path "/c/projects/p/a/deep.jsonl".
Proof.
  apply (streamID_of_path_Base "/c/projects/p/a/deep.jsonl"). reflexivity.
Defined.

Lemma streamID_of_path_join_witness :
  HasSuffix ("/c/projects/p" +:+ "/" +:+ "deep" +:+ jsonl) jsonl = true /\
  streamID_of_path ("/c/projects/p" +:+ "/" +:+ "deep" +:+ jsonl) = "deep".
Proof.
  apply (streamID_of_path_join "/c/projects/p" "deep"). reflexivity.
Defined.

Lemma getPath_after_indexFiles_witness :
  exists e' : DirEntry,
    In e' (fs_walk sample_world (projectsDir sample_storage)) /\
    indexed_as (streamID_of_path (entry_path deep_entry)) e' = true /\
    getPath sample_Join sample_world_empty (indexFiles sample_world sample_storage)
      (streamID_of_path (entry_path deep_entry))
      = (indexFiles sample_world sample_storage, Ok (entry_path e')).
Proof.
  apply (getPath_after_indexFiles sample_Join sample_world sample_world_empty
           sample_storage deep_entry).
  - vm_compute. do 4 right. left. reflexivity.
  - reflexivity.
Defined.

Lemma indexable_walk_hit_witness :
  walk_hit (streamID_of_path (entry_path deep_entry)) deep_entry = true.
Proof. apply (indexable_walk_hit deep_entry). reflexivity. Defined.

Lemma getPath_cached_witness :
  getPath sample_Join sample_world_empty
    (set_fileIndex (<["deep" := "/c/projects/p/a/deep.jsonl"]> (fileIndex sample_storage))
       sample_storage) "deep"
  = (set_fileIndex (<["deep" := "/c/projects/p/a/deep.jsonl"]> (fileIndex sample_storage))
       sample_storage, Ok "/c/projects/p/a/deep.jsonl").
Proof.
  apply (getPath_cached sample_Join sample_world sample_world_empty sample_storage).
  vm_compute. reflexivity.
Defined.

Lemma getPath_glob_match_witness :
  getPath sample_Join sample_world_glob sample_storage "/shallow"
  = (set_fileIndex (<["shallow" := "/c/projects/p/shallow.jsonl"]> (fileIndex sample_storage))
       sample_storage, Ok "/c/projects/p/shallow.jsonl").
Proof.
  apply (getPath_glob_match sample_Join sample_world_glob sample_storage "/shallow"
           "/c/projects/p/shallow.jsonl" ["/c/projects/q/shallow.jsonl"]).
  - vm_compute. reflexivity.
  - reflexivity.
Defined.

Lemma Read_stale_index_witness :
  (Read sample_ZeroOffset sample_Join sample_world_special sample_storage
     "_history" "-1" 100 = (sample_storage, Err ErrOpen) /\
   Head sample_Join sample_world_special sample_storage "_history"
     = (sample_storage, Err ErrStat)) /\
  (Read sample_ZeroOffset sample_Join sample_world_special sample_storage
     "recs" "-1" 100 = (sample_storage, Err ErrOpen) /\
   Head sample_Join sample_world_special sample_storage "recs"
     = (sample_storage,
        Ok {| ContentType := "application/json"; InfoNextOffset := offsetFromInt 15 |})) /\
  (Read sample_ZeroOffset sample_Join sample_world_special sample_storage
     "crlf" "-1" 100 = (sample_storage, Err ErrScan) /\
   Head sample_Join sample_world_special sample_storage "crlf"
     = (sample_storage,
        Ok {| ContentType := "application/json"; InfoNextOffset := offsetFromInt 4096 |})).
Proof.
  split; [|split].
  - apply (Read_stale_index sample_ZeroOffset sample_Join sample_world_special
             sample_storage "_history" "/c/history.jsonl" "-1" 100).
    + vm_compute. reflexivity.
    + vm_compute. reflexivity.
    + vm_compute. reflexivity.
  - apply (Read_stale_index sample_ZeroOffset sample_Join sample_world_special
             sample_storage "recs" "/c/projects/p/a/recs.jsonl" "-1" 100).
    + vm_compute. reflexivity.
    + vm_compute. reflexivity.
    + vm_compute. reflexivity.
  - apply (Read_stale_index sample_ZeroOffset sample_Join sample_world_special
             sample_storage "crlf" "/c/projects/p/a/crlf.jsonl" "-1" 100).
    + vm_compute. reflexivity.
    + vm_compute. reflexivity.
    + vm_compute. reflexivity.
    + vm_compute. split; discriminate.
Defined.

Lemma Read_negative_offset_witness :
  Read sample_ZeroOffset sample_Join sample_world sample_storage "recs" "-5" 100
    = (sample_storage, Err ErrSeek).
Proof.
  apply (Read_negative_offset sample_ZeroOffset sample_Join sample_world sample_storage
           sample_storage "recs" "/c/projects/p/a/recs.jsonl" "-5" 100
           (file_of_records sample_records)).
  - vm_compute. reflexivity.
  - vm_compute. reflexivity.
  - vm_compute. reflexivity.
Defined.

Lemma Read_Head_not_found_witness :
  Read sample_ZeroOffset sample_Join sample_world sample_storage "nope" "-1" 100
    = (sample_storage, Err ErrStreamNotFound) /\
  Head sample_Join sample_world sample_storage "nope"
    = (sample_storage, Err ErrStreamNotFound).
Proof.
  apply (Read_Head_not_found sample_ZeroOffset sample_Join sample_world sample_storage
           "nope" "-1" 100).
  intros (s' & path & H). vm_compute in H. discriminate H.
Defined.

Lemma Head_agrees_with_Read_witness :
  exists (path : string) (content : list byte),
    fileIndex sample_storage !! TrimPrefix "recs" "/" = Some path /\
    fs_files sample_world !! path = Some content /\
    offsetFromInt 15 = offsetFromInt (Z.of_nat (length content)) /\
    Head sample_Join sample_world sample_storage "recs" =
      (sample_storage,
       Ok {| ContentType := "application/json"; InfoNextOffset := offsetFromInt 15 |}).
Proof.
  apply (Head_agrees_with_Read sample_ZeroOffset sample_Join sample_world sample_storage
           sample_storage "recs" (offsetFromInt 0) 7
           {| Messages := [ {| Data := bytes "alpha"; Offset := offsetFromInt 6 |};
                            {| Data := bytes "be"; Offset := offsetFromInt 9 |} ];
              NextOffset := offsetFromInt 9;
              TailOffset := offsetFromInt 15 |}).
  vm_compute. reflexivity.
Defined.

Lemma Read_messages_no_newline_witness :
  Forall (fun m => Forall (fun b => b <> newline) (Data m))
    [ {| Data := bytes "alpha"; Offset := offsetFromInt 6 |};
      {| Data := bytes "be"; Offset := offsetFromInt 9 |} ].
Proof.
  apply (Read_messages_no_newline sample_ZeroOffset sample_Join sample_world
           sample_storage sample_storage "recs" (offsetFromInt 0) 7
           {| Messages := [ {| Data := bytes "alpha"; Offset := offsetFromInt 6 |};
                            {| Data := bytes "be"; Offset := offsetFromInt 9 |} ];
              NextOffset := offsetFromInt 9;
              TailOffset := offsetFromInt 15 |}).
  vm_compute. reflexivity.
Defined.

Lemma Read_offsets_increase_witness :
  string_lt (offsetFromInt 6) (offsetFromInt 9) /\
  offsetFromInt 9 = offsetFromInt 9.
Proof.
  destruct (Read_offsets_increase sample_ZeroOffset sample_Join sample_world
              sample_storage sample_storage "recs" "/c/projects/p/a/recs.jsonl"
              (offsetFromInt 0) 7 (file_of_records sample_records)
              {| Messages := [ {| Data := bytes "alpha"; Offset := offsetFromInt 6 |};
                               {| Data := bytes "be"; Offset := offsetFromInt 9 |} ];
                 NextOffset := offsetFromInt 9;
                 TailOffset := offsetFromInt 15 |}) as [Hinc Hlast].
  - vm_compute. reflexivity.
  - vm_compute. reflexivity.
  - vm_compute. reflexivity.
  - vm_compute. reflexivity.
  - split.
    + apply (Hinc 0%nat 1%nat {| Data := bytes "alpha"; Offset := offsetFromInt 6 |}
               {| Data := bytes "be"; Offset := offsetFromInt 9 |});
        [lia | reflexivity | reflexivity].
    + apply (Hlast {| Data := bytes "be"; Offset := offsetFromInt 9 |}). reflexivity.
Defined.

Lemma Read_budget_monotone_witness :
  exists (r1 : ReadResult) (more : list StoredMessage),
    Read sample_ZeroOffset sample_Join sample_world sample_storage
      "recs" (offsetFromInt 0) 3 = (sample_storage, Ok r1) /\
    [ {| Data := bytes "alpha"; Offset := offsetFromInt 6 |};
      {| Data := bytes "be"; Offset := offsetFromInt 9 |} ] = Messages r1 ++ more /\
    offsetFromInt 15 = TailOffset r1.
Proof.
  apply (Read_budget_monotone sample_ZeroOffset sample_Join sample_world
           sample_storage sample_storage "recs" "/c/projects/p/a/recs.jsonl"
           (offsetFromInt 0) 3 7 (file_of_records sample_records)
           {| Messages := [ {| Data := bytes "alpha"; Offset := offsetFromInt 6 |};
                            {| Data := bytes "be"; Offset := offsetFromInt 9 |} ];
              NextOffset := offsetFromInt 9;
              TailOffset := offsetFromInt 15 |}).
  - vm_compute. reflexivity.
  - vm_compute. reflexivity.
  - vm_compute. reflexivity.
  - vm_compute. discriminate.
  - vm_compute. reflexivity.
Defined.

Lemma Read_line_too_long_witness :
  Read sample_ZeroOffset sample_Join sample_world_long sample_storage
    "recs" (offsetFromInt 0) 100 = (sample_storage, Err ErrScan).
Proof.
  assert (Hoff : offsetToInt sample_ZeroOffset (offsetFromInt 0) = 0)
    by (vm_compute; reflexivity).
  apply (Read_line_too_long sample_ZeroOffset sample_Join sample_world_long
           sample_storage sample_storage "recs" "/c/projects/p/a/recs.jsonl"
           (offsetFromInt 0) 100 (long_line ++ [newline]) [] [] long_line).
  - apply getPath_indexed. reflexivity.
  - apply lookup_singleton_eq.
  - rewrite Hoff. lia.
  - rewrite length_app, Nat2Z.inj_add, long_line_length. vm_compute. reflexivity.
  - rewrite Hoff, seek_0.
    rewrite (raw_lines_record [] long_line [] long_line_no_newline).
    cbn [rev app raw_lines]. reflexivity.
  - constructor.
  - rewrite long_line_length. vm_compute. reflexivity.
  - vm_compute. discriminate.
Defined.

Ltac forall_records :=
  match goal with
  | |- Forall fits_scanner ?l =>
      let l' := eval vm_compute in l in
      change (Forall fits_scanner l'); repeat constructor; vm_compute; discriminate
  | |- Forall (Forall _) ?l =>
      let l' := eval vm_compute in l in
      change (Forall (Forall (fun b => b <> newline)) l');
      repeat constructor; intros H; discriminate H
  | |- Forall (fun r => last r <> _) ?l =>
      let l' := eval vm_compute in l in
      change (Forall (fun r => last r <> Some carriage_return) l');
      repeat constructor; intros H; discriminate H
  end.

Lemma Read_resume_witness :
  exists r1 r2 : ReadResult,
    Read sample_ZeroOffset sample_Join sample_world sample_storage
      "recs" (offsetFromInt 0) 7 = (sample_storage, Ok r1) /\
    Read sample_ZeroOffset sample_Join sample_world sample_storage
      "recs" (NextOffset r1) 100 = (sample_storage, Ok r2) /\
    map Data (Messages r1) ++ map Data (Messages r2) = sample_records /\
    NextOffset r2 = offsetFromInt (Z.of_nat (length (file_of_records sample_records))).
Proof.
  apply (Read_resume sample_ZeroOffset sample_Join sample_world sample_storage
           sample_storage "recs" "/c/projects/p/a/recs.jsonl" (offsetFromInt 0)
           7 100 sample_records 2).
  - vm_compute. reflexivity.
  - vm_compute. reflexivity.
  - vm_compute. reflexivity.
  - forall_records.
  - forall_records.
  - forall_records.
  - vm_compute. reflexivity.
  - cbn. lia.
  - vm_compute. split; [discriminate | reflexivity].
  - vm_compute. discriminate.
  - vm_compute. intros H. discriminate H.
Defined.

Lemma Read_unterminated_last_line_witness :
  exists r : ReadResult,
    Read sample_ZeroOffset sample_Join sample_world_partial sample_storage
      "recs" (offsetFromInt 0) 100 = (sample_storage, Ok r) /\
    map Data (Messages r) = [bytes "alpha"] ++ [bytes "be"] /\
    NextOffset r =
      offsetFromInt
        (Z.of_nat (length (file_of_records [bytes "alpha"] ++ bytes "be")) + 1) /\
    TailOffset r =
      offsetFromInt (Z.of_nat (length (file_of_records [bytes "alpha"] ++ bytes "be"))).
Proof.
  apply (Read_unterminated_last_line sample_ZeroOffset sample_Join sample_world_partial
           sample_storage sample_storage "recs" "/c/projects/p/a/recs.jsonl"
           (offsetFromInt 0) 100 [bytes "alpha"] (bytes "be")).
  - vm_compute. reflexivity.
  - vm_compute. reflexivity.
  - vm_compute. reflexivity.
  - vm_compute. intros H. discriminate H.
  - forall_records.
  - forall_records.
  - forall_records.
  - vm_compute. reflexivity.
  - vm_compute. discriminate.
Defined.

Lemma getPath_after_event_witness :
  getPath sample_Join sample_world_empty
    (handleEvent sample_ZeroOffset sample_Join sample_world sample_event sample_storage)
    (streamID_of_path (ev_Name sample_event))
  = (handleEvent sample_ZeroOffset sample_Join sample_world sample_event sample_storage,
     Ok (ev_Name sample_event)).
Proof.
  apply (getPath_after_event sample_ZeroOffset sample_Join sample_world
           sample_world_empty sample_event sample_storage).
  - reflexivity.
  - vm_compute. reflexivity.
Defined.

Lemma Subscribe_registers_witness :
  exists (s2 : ClaudeStorage) (ch : nat),
    Subscribe sample_Join sample_world sample_storage "/recs" "-1" = (s2, Ok ch) /\
    chans sample_storage !! ch = None /\
    chans s2 !! ch = Some {| chan_buf := None; chan_closed := false |} /\
    (forall c : nat, c <> ch -> chans s2 !! c = chans sample_storage !! c) /\
    subscribers s2 !! TrimPrefix "/recs" "/"
      = Some (default [] (subscribers sample_storage !! TrimPrefix "/recs" "/") ++ [ch]) /\
    (forall k : string, k <> TrimPrefix "/recs" "/" ->
       subscribers s2 !! k = subscribers sample_storage !! k) /\
    fileIndex s2 = fileIndex sample_storage.
Proof.
  apply (Subscribe_registers sample_Join sample_world sample_storage sample_storage
           "/recs" "-1" "/c/projects/p/a/recs.jsonl").
  vm_compute. reflexivity.
Defined.

Lemma Subscribe_then_event_witness :
  exists (s2 : ClaudeStorage) (ch : nat),
    Subscribe sample_Join sample_world sample_storage "/recs" "-1" = (s2, Ok ch) /\
    chans (handleEvent sample_ZeroOffset sample_Join sample_world sample_event s2) !! ch =
      Some {| chan_buf :=
                Some (offsetFromInt (Z.of_nat (length (file_of_records sample_records))));
              chan_closed := false |}.
Proof.
  apply (Subscribe_then_event sample_ZeroOffset sample_Join sample_world sample_world
           sample_storage sample_storage "/recs" "-1" "/c/projects/p/a/recs.jsonl"
           sample_event (file_of_records sample_records)).
  - vm_compute. reflexivity.
  - reflexivity.
  - vm_compute. reflexivity.
  - vm_compute. reflexivity.
  - vm_compute. reflexivity.
Defined.

Lemma sample_storage_registry_ok : registry_ok sample_storage.
Proof.
  unfold registry_ok, sample_storage. cbn [subscribers].
  split; [|split]; intros *; rewrite lookup_empty; intros H; discriminate H.
Defined.

Lemma Subscribe_then_cancel_witness :
  exists (s2 : ClaudeStorage) (ch : nat),
    Subscribe sample_Join sample_world sample_storage "/recs" "-1" = (s2, Ok ch) /\
    default [] (subscribers (cancel s2 (TrimPrefix "/recs" "/") ch) !! TrimPrefix "/recs" "/")
      = default [] (subscribers sample_storage !! TrimPrefix "/recs" "/") /\
    (forall k : string, k <> TrimPrefix "/recs" "/" ->
       subscribers (cancel s2 (TrimPrefix "/recs" "/") ch) !! k
       = subscribers sample_storage !! k) /\
    chans (cancel s2 (TrimPrefix "/recs" "/") ch) !! ch
      = Some {| chan_buf := None; chan_closed := true |} /\
    (forall c : nat, c <> ch ->
       chans (cancel s2 (TrimPrefix "/recs" "/") ch) !! c = chans sample_storage !! c).
Proof.
  apply (Subscribe_then_cancel sample_Join sample_world sample_storage sample_storage
           "/recs" "-1" "/c/projects/p/a/recs.jsonl").
  - exact sample_storage_registry_ok.
  - vm_compute. reflexivity.
Defined.

Lemma registry_stays_sound_witness :
  registry_ok
    (sys_storage
       (run sample_ZeroOffset sample_Join unit
          [StepSubscribe unit "recs" "-1"; StepWatchEvent unit sample_event;
           StepCancel unit "recs" 0%nat]
          {| sys_world := sample_world;
             sys_storage := NewClaudeStorage sample_Join sample_world "/c" |})).
Proof.
  apply (registry_stays_sound sample_ZeroOffset sample_Join unit sample_world "/c"
           [StepSubscribe unit "recs" "-1"; StepWatchEvent unit sample_event;
            StepCancel unit "recs" 0%nat]).
  cbn [run_allowed step_allowed]. split; [exact I|]. split; [exact I|].
  split; [|exact I].
  vm_compute. left.
Defined.
